(** * khmcm/animation: the colour parser and the animation iterator

    A shallow embedding of [src/index.ts].

    - [ColorParser]: [extractColorAsRgb], with the three regular
      expressions of the source written as syntax trees and run by a
      backtracking matcher (greedy quantifiers, leftmost match).
    - [Animation]: the [AnimationIterator] class.  The object's fields
      are a record, the methods are state transformers on a [World]
      that also holds what the iterator talks to: the queue of
      callbacks handed to [window.requestAnimationFrame], the promises
      created by [start], and a log of what happened (update function
      calls, listener notifications, frame requests, resolutions).
    - [ColorText] and [Runs]: what the theorems about all texts of a
      form and about whole runs of frames are stated with: the texts
      the patterns are written for, built from their parts, and what is
      read off the log of a run.

    Numbers.  A JavaScript number is an IEEE double; here the timing
    fields are exact rationals ([Q]).  NaN, the infinities and rounding
    are outside the model, with one exception spelled out where it is
    used: [1000 / rate] for [rate = 0] is JavaScript's [Infinity], which
    no elapsed time reaches.  The sum [time + interval] is exact here
    and rounded in the program, so what is stated about several ticks
    speaks of the states the update function returned and of the order
    of the elapsed times, not of the value of a sum.

    Strings are strings of 8-bit characters, read as the code units
    U+0000 to U+00FF; code units beyond are outside the model. *)

From Stdlib Require Import QArith ZArith Ascii String List Lia Lqa.
From stdpp Require Import base list sorting gmap strings.

#[local] Set Warnings "-register-all,-clear-no-such-hyp".
#[local] Open Scope nat_scope.

(* ===================================================================== *)
(** * The colour parser *)
(* ===================================================================== *)

Module ColorParser.

(** ** Regular expressions *)

(** The fragment of JavaScript regular expressions that the source
    uses: literal characters, the classes [\s], [[0-9]] and [[a-f0-9]],
    [r?], [r{lo,hi}], capture groups and the anchors [^] and [$]. *)
Inductive regex : Type :=
| RChar (c : ascii)
| RClass (p : ascii -> bool)
| RSeq (r1 r2 : regex)
| ROpt (r : regex)
| RRep (lo hi : nat) (r : regex)
| RGroup (r : regex)
| RBol
| REol.

(** A match result: the captures [$1, $2, ...] in order. *)
Definition captures : Type := list (list ascii).

(** Backtracking matcher in continuation-passing style.  [i] is the
    index of the next character in the whole input, [s] the input from
    there on.  Quantifiers are greedy: one more iteration is tried
    before the continuation. *)
Fixpoint rmatch {R : Type} (r : regex) (i : nat) (s : list ascii) (caps : captures)
    (k : nat -> list ascii -> captures -> option R) {struct r} : option R :=
  match r with
  | RChar c =>
      match s with
      | x :: s' => if Ascii.eqb x c then k (S i) s' caps else None
      | [] => None
      end
  | RClass p =>
      match s with
      | x :: s' => if p x then k (S i) s' caps else None
      | [] => None
      end
  | RSeq r1 r2 =>
      rmatch r1 i s caps (fun i' s' caps' => rmatch r2 i' s' caps' k)
  | ROpt r1 =>
      match rmatch r1 i s caps k with
      | Some x => Some x
      | None => k i s caps
      end
  | RRep lo hi r1 =>
      (fix rep (lo hi i : nat) (s : list ascii) (caps : captures)
           (k : nat -> list ascii -> captures -> option R) {struct hi} : option R :=
         match hi with
         | O => match lo with O => k i s caps | S _ => None end
         | S hi' =>
             match rmatch r1 i s caps
                     (fun i' s' caps' => rep (Nat.pred lo) hi' i' s' caps' k) with
             | Some x => Some x
             | None => match lo with O => k i s caps | S _ => None end
             end
         end) lo hi i s caps k
  | RGroup r1 =>
      rmatch r1 i s caps
        (fun i' s' caps' => k i' s' (caps' ++ [firstn (i' - i) s]))
  | RBol => if Nat.eqb i 0 then k i s caps else None
  | REol => match s with [] => k i s caps | _ :: _ => None end
  end.

(** The leftmost match, as [String.prototype.replace] and
    [String.prototype.match] find it for a regex without the [g] flag. *)
Fixpoint search (r : regex) (i : nat) (s : list ascii) : option captures :=
  match rmatch r i s [] (fun _ _ caps => Some caps) with
  | Some caps => Some caps
  | None =>
      match s with
      | [] => None
      | _ :: s' => search r (S i) s'
      end
  end.

Definition exec (r : regex) (s : string) : option captures :=
  search r 0 (list_ascii_of_string s).

(** ** Character classes and string helpers *)

Definition code (c : ascii) : nat := nat_of_ascii c.

Definition between (lo hi : nat) (c : ascii) : bool :=
  Nat.leb lo (code c) && Nat.leb (code c) hi.

(** [\s] and the characters [trim] and [parseInt] skip, among the
    code units up to 255: TAB, LF, VT, FF, CR, the space and the
    no-break space U+00A0. *)
Definition is_space (c : ascii) : bool :=
  between 9 13 c || Nat.eqb (code c) 32 || Nat.eqb (code c) 160.
Definition is_digit (c : ascii) : bool := between 48 57 c.
Definition is_hex_lower (c : ascii) : bool := between 97 102 c || is_digit c.

(** [toLowerCase] on one code unit: the letters A to Z and, among the
    code units up to 255, U+00C0 to U+00DE without the sign U+00D7
    are moved up by 32. *)
Definition lower (c : ascii) : ascii :=
  if between 65 90 c || (between 192 222 c && negb (Nat.eqb (code c) 215))
  then ascii_of_nat (code c + 32) else c.

Fixpoint drop_spaces (s : list ascii) : list ascii :=
  match s with
  | c :: s' => if is_space c then drop_spaces s' else s
  | [] => []
  end.

Definition toLowerCase (s : string) : string :=
  string_of_list_ascii (List.map lower (list_ascii_of_string s)).

Definition trim (s : string) : string :=
  string_of_list_ascii
    (rev (drop_spaces (rev (drop_spaces (list_ascii_of_string s))))).

(** ** Numbers produced by [parseInt] *)

Inductive number : Type :=
| Num (z : Z)
| NaN.

Definition digit_value (c : ascii) : option N :=
  if is_digit c then Some (N.of_nat (code c - 48))
  else if between 97 122 c then Some (N.of_nat (code c - 87))
  else if between 65 90 c then Some (N.of_nat (code c - 55))
  else None.

(** The longest prefix of digits of the radix, most significant first. *)
Fixpoint digits (radix : N) (s : list ascii) : list N :=
  match s with
  | c :: s' =>
      match digit_value c with
      | Some d => if N.ltb d radix then d :: digits radix s' else []
      | None => []
      end
  | [] => []
  end.

Definition value (radix : N) (ds : list N) : N :=
  fold_left (fun acc d => (acc * radix + d)%N) ds 0%N.

Definition strip_hex_prefix (s : list ascii) : option (list ascii) :=
  match s with
  | "0"%char :: x :: s' =>
      if Ascii.eqb x "x" || Ascii.eqb x "X" then Some s' else None
  | _ => None
  end.

(** [parseInt(s, radix)]; [radix = None] is the call with one argument.
    Leading white space is skipped, a sign is read, [0x] is stripped
    when the radix is 16 or absent, and the longest digit prefix is
    converted; no digit gives [NaN]. *)
Definition parseInt (s : string) (radix : option N) : number :=
  let s0 := drop_spaces (list_ascii_of_string s) in
  let '(neg, s1) :=
    match s0 with
    | "-"%char :: s' => (true, s')
    | "+"%char :: s' => (false, s')
    | _ => (false, s0)
    end in
  let '(r, s2) :=
    match radix with
    | Some 16%N | None =>
        match strip_hex_prefix s1 with
        | Some s' => (16%N, s')
        | None => (match radix with Some r => r | None => 10%N end, s1)
        end
    | Some r => (r, s1)
    end in
  if N.ltb r 2 || N.ltb 36 r then NaN
  else
    match digits r s2 with
    | [] => NaN
    | ds => Num (if neg then - Z.of_N (value r ds) else Z.of_N (value r ds))
    end.

(** ** The colour record and the parser *)

Record IRgbColor : Type := {
  r : number;
  g : number;
  b : number;
  a : option number
}.

Inductive outcome : Type :=
| Return (c : IRgbColor)
| Throw (message : string).

Definition lit (s : string) : regex :=
  match list_ascii_of_string s with
  | [] => RRep 0 0 RBol
  | c :: cs => fold_left (fun acc x => RSeq acc (RChar x)) cs (RChar c)
  end.

Fixpoint seq (rs : list regex) : regex :=
  match rs with
  | [] => RRep 0 0 RBol
  | [x] => x
  | x :: rs' => RSeq x (seq rs')
  end.

Definition ws : regex := ROpt (RClass is_space).
Definition channel : regex := RGroup (RRep 1 3 (RClass is_digit)).

(** [/rgb\s?\(([0-9]{1,3})\s?,\s?([0-9]{1,3})\s?,\s?([0-9]{1,3}),\s?([0-9]{1,3})\s?\)/] *)
Definition rgba_regex : regex :=
  seq [lit "rgb"; ws; RChar "(";
       channel; ws; RChar ","; ws;
       channel; ws; RChar ","; ws;
       channel; RChar ","; ws;
       channel; ws; RChar ")"].

(** [/rgb\s?\(([0-9]{1,3})\s?,\s?([0-9]{1,3})\s?,\s?([0-9]{1,3})\s?\)/] *)
Definition rgb_regex : regex :=
  seq [lit "rgb"; ws; RChar "(";
       channel; ws; RChar ","; ws;
       channel; ws; RChar ","; ws;
       channel; ws; RChar ")"].

(** [/^#[a-f0-9]{6}$/] *)
Definition hex_regex : regex :=
  seq [RBol; RChar "#"; RRep 6 6 (RClass is_hex_lower); REol].

Definition capture_int (cs : list ascii) : number :=
  parseInt (string_of_list_ascii cs) None.

(** [s.substring(from, to)] for [from <= to]. *)
Definition substring (from to : nat) (s : string) : string :=
  String.substring from (to - from) s.

Definition not_recognized : string :=
  "Format not recognized (must be rgb, rgba, hex)".

Definition extractColorAsRgb (color : string) : outcome :=
  let formattedColor := trim (toLowerCase color) in
  match exec rgba_regex formattedColor with
  | Some [c1; c2; c3; c4] =>
      Return {| r := capture_int c1; g := capture_int c2;
                b := capture_int c3; a := Some (capture_int c4) |}
  | _ =>
      match exec rgb_regex formattedColor with
      | Some [c1; c2; c3] =>
          Return {| r := capture_int c1; g := capture_int c2;
                    b := capture_int c3; a := None |}
      | _ =>
          match exec hex_regex formattedColor with
          | Some _ =>
              Return {| r := parseInt (substring 1 3 color) (Some 16%N);
                        g := parseInt (substring 3 5 color) (Some 16%N);
                        b := parseInt (substring 5 7 color) (Some 16%N);
                        a := None |}
          | None => Throw not_recognized
          end
      end
  end.

Definition rgb (x y z : Z) : IRgbColor :=
  {| r := Num x; g := Num y; b := Num z; a := None |}.

Definition rgba (x y z w : Z) : IRgbColor :=
  {| r := Num x; g := Num y; b := Num z; a := Some (Num w) |}.

End ColorParser.

(* ===================================================================== *)
(** * The animation iterator *)
(* ===================================================================== *)

(** [IAnimationIteratorFuncResult]: what the update function returns
    and what every listener receives. *)
Module FuncResult.
Record t : Type := make {
  styles : gmap string string;
  progress : Q
}.
End FuncResult.

Module Animation.

(** A value of TypeScript's [any], as far as the iterator passes it
    around: it hands [initialState] to the update function untouched. *)
Inductive any : Type :=
| Null
| Number (q : Q)
| Text (s : string)
| Object (fields : list (string * any)).

Definition TAnimationIteratorFunc : Type := any -> Q -> FuncResult.t.

(** [IAnimationIteratorArgs]; an omitted (or null) field is [None]. *)
Module Args.
Record t : Type := make {
  rate : option Q;
  interval : option Q;
  time : option Q;
  func : option TAnimationIteratorFunc;
  function : option TAnimationIteratorFunc
}.
End Args.

(** ** Listener callbacks

    A callback is code of the caller.  What the iterator can observe of
    it is which registry operations it performs while it runs, so a
    user callback is a name and, for each state it is called with, the
    sequence of those operations: [Subscribe] calls [subscribe] with a
    further user callback, [Unsubscribe slot] calls an unsubscribe
    closure that was returned with index [slot].  Callbacks read the
    state they are given and do not write to it, and they do not call
    [reset], [resetListeners] or [start].

    [StartCallback] is the listener that [start] subscribes; [slot] is
    the index captured by its own unsubscribe closure and [promise]
    identifies the promise whose [resolve] it holds. *)
Inductive action : Type :=
| Subscribe (name : nat) (body : FuncResult.t -> list action)
| Unsubscribe (slot : nat).

Inductive TAnimationIteratorListenerCallback : Type :=
| UserCallback (name : nat) (body : FuncResult.t -> list action)
| StartCallback (slot : nat) (promise : nat).

Record IAnimationIteratorListener : Type := {
  callback : TAnimationIteratorListenerCallback
}.

(** An array element is [Some] listener, or [None] for a hole left by
    [delete]. *)
Abbreviation slots := (list (option IAnimationIteratorListener)).

(** ** What can be observed of a run

    [Updated i t s]: the update function was called with [(i, t)] and
    [s] is its result after clamping, whose progress is stored in
    [this.progress].  [Notified k cb s]: [forEach] found [cb] at index
    [k] and called it with [s].  [Subscribed k cb]: [subscribe] put [cb]
    in slot [k].  [Unsubscribed k]: a closure ran [delete listeners[k]].
    [FrameRequested i]: [window.requestAnimationFrame] was called with
    [() => this.next(i)].  [Resolved p s]: [resolve(s)] of promise [p]
    was called. *)
Inductive event : Type :=
| Updated (initialState : any) (time : Q) (nextState : FuncResult.t)
| Notified (slot : nat) (cb : TAnimationIteratorListenerCallback) (state : FuncResult.t)
| Subscribed (slot : nat) (cb : TAnimationIteratorListenerCallback)
| Unsubscribed (slot : nat)
| FrameRequested (initialState : any)
| Resolved (promise : nat) (state : FuncResult.t).

(** ** State *)

Record AnimationIterator : Type := {
  args : Args.t;
  interval : Q;
  rate : Q;
  progress : Q;
  time : Q;
  lastTick : Q;
  func : TAnimationIteratorFunc;
  listeners : slots
}.

(** The iterator together with its surroundings: [frames] are the
    callbacks [() => this.next(initialState)] waiting in
    [window.requestAnimationFrame], oldest first, each given by its
    [initialState]; [promises] counts the promises [start] has created;
    [log] is the history, oldest event first. *)
Record World : Type := {
  self : AnimationIterator;
  frames : list any;
  promises : nat;
  log : list event
}.

Definition DEFAULT_STEP_INTERVAL : Q := 1 # 180.
Definition DEFAULT_FRAME_RATE : Q := 60.
Definition DEFAULT_PROGRESS : Q := 0.
Definition DEFAULT_TIME : Q := 0.
Definition DEFAULT_LAST_TICK : Q := 0.
Definition DEFAULT_FUNC : TAnimationIteratorFunc :=
  fun _ time => FuncResult.make ∅ time.

Definition conditionalDefault {T : Type} (value : option T) (defaultValue : T) : T :=
  match value with
  | None => defaultValue
  | Some v => v
  end.

(** [x || y] on optional functions: a function is truthy. *)
Definition or_else {T : Type} (x y : option T) : option T :=
  match x with
  | Some v => Some v
  | None => y
  end.

Definition with_self (f : AnimationIterator -> AnimationIterator) (w : World) : World :=
  {| self := f (self w); frames := frames w; promises := promises w; log := log w |}.

Definition record (e : event) (w : World) : World :=
  {| self := self w; frames := frames w; promises := promises w; log := log w ++ [e] |}.

Definition with_listeners (ls : slots) (it : AnimationIterator) : AnimationIterator :=
  {| args := args it; interval := interval it; rate := rate it;
     progress := progress it; time := time it; lastTick := lastTick it;
     func := func it; listeners := ls |}.

(** ** [reset], [resetListeners], [resetAll] and the constructor *)

(** The body of the [reset] closure; [args] is the constructor
    argument the closure captured. *)
Definition reset_fields (it : AnimationIterator) : AnimationIterator :=
  {| args := args it;
     interval := conditionalDefault (Args.interval (args it)) DEFAULT_STEP_INTERVAL;
     rate := conditionalDefault (Args.rate (args it)) DEFAULT_FRAME_RATE;
     func := conditionalDefault
               (or_else (Args.func (args it)) (Args.function (args it))) DEFAULT_FUNC;
     progress := DEFAULT_PROGRESS;
     time := DEFAULT_TIME;
     lastTick := DEFAULT_LAST_TICK;
     listeners := listeners it |}.

(** The field initialisers of the class, run before the constructor body. *)
Definition field_initialisers (a : Args.t) : AnimationIterator :=
  {| args := a;
     interval := DEFAULT_STEP_INTERVAL;
     rate := DEFAULT_FRAME_RATE;
     progress := DEFAULT_PROGRESS;
     time := DEFAULT_TIME;
     lastTick := DEFAULT_LAST_TICK;
     func := DEFAULT_FUNC;
     listeners := [] |}.

(** [new AnimationIterator(args)] *)
Definition constructor (a : Args.t) : AnimationIterator :=
  reset_fields (field_initialisers a).

Definition reset (w : World) : World := with_self reset_fields w.

Definition resetListeners (w : World) : World := with_self (with_listeners []) w.

Definition resetAll (w : World) : World := resetListeners (reset w).

(** A world in which nothing has happened yet. *)
Definition fresh (a : Args.t) : World :=
  {| self := constructor a; frames := []; promises := 0; log := [] |}.

(** ** [subscribe] and the closures it returns *)

(** The first index [i] with [!listeners[i]], if there is one. *)
Fixpoint free_slot (ls : slots) : option nat :=
  match ls with
  | [] => None
  | None :: _ => Some 0
  | Some _ :: ls' => S <$> free_slot ls'
  end.

(** The index that the closure returned by the next [subscribe] captures. *)
Definition subscribe_slot (ls : slots) : nat :=
  match free_slot ls with
  | Some i => i
  | None => length ls
  end.

Definition subscribe_slots (cb : TAnimationIteratorListenerCallback) (ls : slots) : slots :=
  match free_slot ls with
  | Some i => <[i := Some {| callback := cb |}]> ls
  | None => ls ++ [Some {| callback := cb |}]
  end.

(** [subscribe(callback)]: the new world and the index captured by the
    returned closure. *)
Definition subscribe (cb : TAnimationIteratorListenerCallback) (w : World) : World * nat :=
  let ls := listeners (self w) in
  (record (Subscribed (subscribe_slot ls) cb)
     (with_self (with_listeners (subscribe_slots cb ls)) w),
   subscribe_slot ls).

(** [delete listeners[i]]: a hole at [i]; nothing at or beyond the length. *)
Definition delete_listener (i : nat) (ls : slots) : slots := <[i := None]> ls.

(** Calling a closure [() => { delete this.listeners[i]; }]. *)
Definition unsubscribe (i : nat) (w : World) : World :=
  record (Unsubscribed i)
    (with_self (fun it => with_listeners (delete_listener i (listeners it)) it) w).

(** ** Running a callback *)

Definition requestAnimationFrame (initialState : any) (w : World) : World :=
  record (FrameRequested initialState)
    {| self := self w; frames := frames w ++ [initialState];
       promises := promises w; log := log w |}.

Definition resolve (promise : nat) (state : FuncResult.t) (w : World) : World :=
  record (Resolved promise state) w.

Definition perform (w : World) (a : action) : World :=
  match a with
  | Subscribe name body => fst (subscribe (UserCallback name body) w)
  | Unsubscribe slot => unsubscribe slot w
  end.

Definition call (cb : TAnimationIteratorListenerCallback) (state : FuncResult.t)
    (w : World) : World :=
  match cb with
  | UserCallback _ body => fold_left perform (body state) w
  | StartCallback slot promise =>
      if Qeq_bool (FuncResult.progress state) 1
      then resolve promise state (unsubscribe slot w)
      else w
  end.

(** ** [next] *)

(** One step of [this.listeners.forEach(...)] at index [k]: a hole is
    not visited, anything else is a listener and its callback is called. *)
Definition visit (k : nat) (state : FuncResult.t) (w : World) : World :=
  match listeners (self w) !! k with
  | Some (Some l) => call (callback l) state (record (Notified k (callback l) state) w)
  | _ => w
  end.

(** [forEach] from index [k] for [n] more indices.  The array is read
    at each index when the index is reached. *)
Fixpoint forEach_from (k n : nat) (state : FuncResult.t) (w : World) : World :=
  match n with
  | O => w
  | S n' => forEach_from (S k) n' state (visit k state w)
  end.

(** [forEach] reads the length once, before the first callback. *)
Definition notify (state : FuncResult.t) (w : World) : World :=
  forEach_from 0 (length (listeners (self w))) state w.

(** [Date.now() - this.lastTick >= 1000 / this.rate].  For a rate of
    zero the right-hand side is [Infinity] and the test fails. *)
Definition tick_due (now : Q) (it : AnimationIterator) : bool :=
  if Qeq_bool (rate it) 0 then false
  else Qle_bool (1000 / rate it) (now - lastTick it).

(** [if(nextState.progress >= 1.0) nextState.progress = 1.0] *)
Definition clamp (state : FuncResult.t) : FuncResult.t :=
  if Qle_bool 1 (FuncResult.progress state)
  then FuncResult.make (FuncResult.styles state) 1
  else state.

Definition set_lastTick (t : Q) (it : AnimationIterator) : AnimationIterator :=
  {| args := args it; interval := interval it; rate := rate it;
     progress := progress it; time := time it; lastTick := t;
     func := func it; listeners := listeners it |}.

Definition set_time (t : Q) (it : AnimationIterator) : AnimationIterator :=
  {| args := args it; interval := interval it; rate := rate it;
     progress := progress it; time := t; lastTick := lastTick it;
     func := func it; listeners := listeners it |}.

Definition set_progress (p : Q) (it : AnimationIterator) : AnimationIterator :=
  {| args := args it; interval := interval it; rate := rate it;
     progress := p; time := time it; lastTick := lastTick it;
     func := func it; listeners := listeners it |}.

(** The part of [next] after the test has passed; [now'] is the second
    reading of [Date.now()]. *)
Definition tick (initialState : any) (now' : Q) (w : World) : World :=
  let w1 := with_self (set_lastTick now') w in
  let w2 := with_self (fun it => set_time (time it + interval it) it) w1 in
  let nextState :=
    clamp (func (self w2) initialState (time (self w2))) in
  let w3 := record (Updated initialState (time (self w2)) nextState) w2 in
  let w4 := with_self (set_progress (FuncResult.progress nextState)) w3 in
  let w5 := notify nextState w4 in
  if Qle_bool 1 (progress (self w5)) then w5
  else requestAnimationFrame initialState w5.

(** [next(initialState)], with the two readings of the clock. *)
Definition next (initialState : any) (now now' : Q) (w : World) : World :=
  if tick_due now (self w) then tick initialState now' w
  else requestAnimationFrame initialState w.

(** ** [start] *)

(** The promise executor runs at once: it requests the first frame and
    subscribes the one-shot listener.  The listener refers to the
    closure that this very [subscribe] returns, that is to the index
    [subscribe_slot] of the registry at that moment.  Returns the new
    world and the promise. *)
Definition start (initialState : any) (w : World) : World * nat :=
  let promise := promises w in
  let w1 :=
    requestAnimationFrame initialState
      {| self := self w; frames := frames w;
         promises := S promise; log := log w |} in
  let slot := subscribe_slot (listeners (self w1)) in
  (fst (subscribe (StartCallback slot promise) w1), promise).

(** ** The host *)

(** The host runs the oldest pending frame callback; [clock] holds the
    two readings [Date.now()] gives during that call. *)
Definition frame (clock : Q * Q) (w : World) : World :=
  match frames w with
  | [] => w
  | initialState :: rest =>
      next initialState (fst clock) (snd clock)
        {| self := self w; frames := rest; promises := promises w; log := log w |}
  end.

Definition run (clocks : list (Q * Q)) (w : World) : World :=
  fold_left (fun w c => frame c w) clocks w.

(** ** Reading the log *)

Definition notified_slot (e : event) : option nat :=
  match e with
  | Notified k _ _ => Some k
  | _ => None
  end.

Definition notified_callback (e : event) : option TAnimationIteratorListenerCallback :=
  match e with
  | Notified _ cb _ => Some cb
  | _ => None
  end.

Definition notified_state (e : event) : option FuncResult.t :=
  match e with
  | Notified _ _ st => Some st
  | _ => None
  end.

Definition resolution (promise : nat) (e : event) : option FuncResult.t :=
  match e with
  | Resolved p st => if Nat.eqb p promise then Some st else None
  | _ => None
  end.

(** The events of [w'] that [w] does not have yet. *)
Definition since (w w' : World) : list event := drop (length (log w)) (log w').

Definition stored_progress (e : event) : option Q :=
  match e with
  | Updated _ _ st => Some (FuncResult.progress st)
  | _ => None
  end.

Definition update_time (e : event) : option Q :=
  match e with
  | Updated _ t _ => Some t
  | _ => None
  end.

Definition notification (e : event) : option (nat * TAnimationIteratorListenerCallback) :=
  match e with
  | Notified k cb _ => Some (k, cb)
  | _ => None
  end.

(** The values [resolve] of the given promise was called with. *)
Definition resolutions (promise : nat) (evs : list event) : list FuncResult.t :=
  omap (resolution promise) evs.

(** The number of accepted ticks among the events. *)
Definition ticks (evs : list event) : nat := length (omap update_time evs).

(** The listeners in the registry, in slot order. *)
Definition active (ls : slots) : list IAnimationIteratorListener := omap id ls.

(** The occupied slots with their callbacks, in slot order; [k] is the
    index of the first element of [ls]. *)
Fixpoint occupied_from (k : nat) (ls : slots)
    : list (nat * TAnimationIteratorListenerCallback) :=
  match ls with
  | [] => []
  | None :: ls' => occupied_from (S k) ls'
  | Some l :: ls' => (k, callback l) :: occupied_from (S k) ls'
  end.

Definition occupied (ls : slots) : list (nat * TAnimationIteratorListenerCallback) :=
  occupied_from 0 ls.

(** ** Relations between an earlier and a later world *)

(** The log of [w'] is the log of [w] followed by the events
    [since w w']. *)
Definition grows (w w' : World) : Prop := log w' = log w ++ since w w'.

(** Everything but the registry and the log is in [w'] as it is in [w]. *)
Definition steady (w w' : World) : Prop :=
  self w' = with_listeners (listeners (self w')) (self w) /\
  frames w' = frames w /\
  promises w' = promises w.

(** From [w] to [w'] only the registry and the log changed, the
    registry did not get shorter, and every new event satisfies [P]. *)
Definition extends (P : event -> Prop) (w w' : World) : Prop :=
  grows w w' /\
  steady w w' /\
  (length (listeners (self w)) <= length (listeners (self w')))%nat /\
  Forall P (since w w').

(** The events a callback can cause when it is called with [st]. *)
Definition callback_event (st : FuncResult.t) (e : event) : Prop :=
  match e with
  | Subscribed _ _ | Unsubscribed _ => True
  | Resolved _ s => s = st
  | _ => False
  end.

(** The events of [forEach] from index [lo] up to, not including, [hi]. *)
Definition pass_event (st : FuncResult.t) (lo hi : nat) (e : event) : Prop :=
  match e with
  | Subscribed _ _ | Unsubscribed _ => True
  | Resolved _ s => s = st
  | Notified k _ s => s = st /\ (lo <= k < hi)%nat
  | _ => False
  end.

(** ** Kinds of callbacks *)

(** A callback that performs no registry operation, whatever state it
    is called with. *)
Definition passive (cb : TAnimationIteratorListenerCallback) : Prop :=
  match cb with
  | UserCallback _ body => forall st, body st = []
  | StartCallback _ _ => False
  end.


(** A property of every callback in the registry. *)
Definition every_listener (P : TAnimationIteratorListenerCallback -> Prop)
    (ls : slots) : Prop :=
  Forall (fun s => match s with
                   | Some l => P (callback l)
                   | None => True
                   end) ls.

(** The slots a callback unsubscribes when it is called with [st]. *)
Definition unsubscribed_slot (a : action) : option nat :=
  match a with
  | Unsubscribe i => Some i
  | Subscribe _ _ => None
  end.

Definition targets (cb : TAnimationIteratorListenerCallback) (st : FuncResult.t)
    : list nat :=
  match cb with
  | UserCallback _ body => omap unsubscribed_slot (body st)
  | StartCallback slot _ =>
      if Qeq_bool (FuncResult.progress st) 1 then [slot] else []
  end.

(** A callback that unsubscribes (itself or others) and never subscribes. *)
Definition unsubscribing (cb : TAnimationIteratorListenerCallback) : Prop :=
  match cb with
  | UserCallback _ body =>
      forall st, Forall (fun a => is_Some (unsubscribed_slot a)) (body st)
  | StartCallback _ _ => True
  end.

(** The registry [ls] with the slots in [cleared] emptied; no other
    slot changes and none moves. *)
Definition clear_all (cleared : gset nat) (ls : slots) : slots :=
  imap (fun j x => if bool_decide (j ∈ cleared) then None else x) ls.

(** A pass as the specification describes it, for comparison with
    [forEach_from]: the listeners a pass over slots [k .. k+n-1] calls
    are told from the registry [ls] as it is when the pass begins,
    which is never changed here, and the set of slots cleared since.
    A slot is called when it was occupied and has not been cleared,
    and what its callback unsubscribes is cleared from then on. *)
Fixpoint survivors (k n : nat) (ls : slots) (cleared : gset nat) (st : FuncResult.t)
    : list (nat * TAnimationIteratorListenerCallback) :=
  match n with
  | O => []
  | S n' =>
      match ls !! k with
      | Some (Some l) =>
          if bool_decide (k ∈ cleared) then survivors (S k) n' ls cleared st
          else (k, callback l) ::
               survivors (S k) n' ls
                 (list_to_set (targets (callback l) st) ∪ cleared) st
      | _ => survivors (S k) n' ls cleared st
      end
  end.

(** An action that never calls the unsubscribe closure of slot [s],
    nor subscribes a listener that would. *)
Fixpoint action_spares (s : nat) (a : action) : Prop :=
  match a with
  | Unsubscribe i => i <> s
  | Subscribe _ body =>
      forall st, fold_right (fun a' P => action_spares s a' /\ P) True (body st)
  end.

(** A callback that leaves slot [s] and promise [p] alone: a user
    callback whose actions spare [s], or the one-shot listener of
    another [start]. *)
Definition spares (s p : nat) (cb : TAnimationIteratorListenerCallback) : Prop :=
  match cb with
  | UserCallback _ body => forall st, Forall (action_spares s) (body st)
  | StartCallback s' p' => s' <> s /\ p' <> p
  end.

(** Slot [s] holds the one-shot listener of promise [p] and every
    other listener spares it. *)
Definition armed (s p : nat) (ls : slots) : Prop :=
  ls !! s = Some (Some {| callback := StartCallback s p |}) /\
  forall j l, j <> s -> ls !! j = Some (Some l) -> spares s p (callback l).

(** The one-shot listener of promise [p] is gone. *)
Definition disarmed (s p : nat) (ls : slots) : Prop :=
  every_listener (spares s p) ls.

(** Among the events: the one-shot listener of slot [s] was called with
    [st], its slot was cleared, and then [resolve(st)] of promise [p]
    was called, in this order and with nothing in between. *)
Definition one_shot_fired (s p : nat) (st : FuncResult.t) (evs : list event) : Prop :=
  exists e1 e2,
    evs = e1 ++ [Notified s (StartCallback s p) st; Unsubscribed s; Resolved p st] ++ e2.

(** From [w] to [w'] the log grew, [resolve] of promise [p] was not
    called, and a registry that was armed or disarmed is so still. *)
Definition kept (s p : nat) (w w' : World) : Prop :=
  grows w w' /\
  resolutions p (since w w') = [] /\
  (armed s p (listeners (self w)) -> armed s p (listeners (self w'))) /\
  (disarmed s p (listeners (self w)) -> disarmed s p (listeners (self w'))).

(** A schedule of [n] frames, each [period] milliseconds after the one
    before, the first [period] after [last]. *)
Fixpoint punctual (n : nat) (last period : Q) : list (Q * Q) :=
  match n with
  | O => []
  | S n' => ((last + period)%Q, (last + period)%Q) :: punctual n' (last + period)%Q period
  end.


(** ** The two halves of an accepted tick *)

(** The state the update function produces at the next accepted tick,
    after clamping. *)
Definition next_state (initialState : any) (w : World) : FuncResult.t :=
  clamp (func (self w) initialState (time (self w) + interval (self w))%Q).

(** The world of an accepted tick when [forEach] begins. *)
Definition advanced (initialState : any) (now' : Q) (w : World) : World :=
  let w1 := with_self (set_lastTick now') w in
  let w2 := with_self (fun it => set_time (time it + interval it) it) w1 in
  let nextState :=
    clamp (func (self w2) initialState (time (self w2))) in
  let w3 := record (Updated initialState (time (self w2)) nextState) w2 in
  with_self (set_progress (FuncResult.progress nextState)) w3.

Definition updated (e : event) : option (any * Q * FuncResult.t) :=
  match e with
  | Updated i t st => Some (i, t, st)
  | _ => None
  end.

(** The clamped state an accepted tick computed. *)
Definition update_state (e : event) : option FuncResult.t :=
  match e with
  | Updated _ _ st => Some st
  | _ => None
  end.

(** What an accepted tick records when the update function [f] is
    called with the elapsed time [t]. *)
Definition update_at (initialState : any) (f : TAnimationIteratorFunc) (t : Q)
    : any * Q * FuncResult.t :=
  (initialState, t, clamp (f initialState t)).

(** ** The numbering of promises

    A promise is an object of the host; the model numbers the promises
    in the order in which [start] creates them.  [renumber d] adds [d]
    to every number, and [continued d before w] is the world [w] as it
    is when [d] promises were created and the events [before] happened
    before.  The program reads neither the numbers nor the log. *)
Definition renumber_callback (d : nat) (cb : TAnimationIteratorListenerCallback)
    : TAnimationIteratorListenerCallback :=
  match cb with
  | UserCallback name body => UserCallback name body
  | StartCallback slot promise => StartCallback slot (promise + d)
  end.

Definition renumber_listener (d : nat) (l : IAnimationIteratorListener)
    : IAnimationIteratorListener :=
  {| callback := renumber_callback d (callback l) |}.

Definition renumber_slot (d : nat) (x : option IAnimationIteratorListener)
    : option IAnimationIteratorListener :=
  renumber_listener d <$> x.

Definition renumber_slots (d : nat) (ls : slots) : slots :=
  renumber_slot d <$> ls.

Definition renumber_event (d : nat) (e : event) : event :=
  match e with
  | Notified k cb st => Notified k (renumber_callback d cb) st
  | Subscribed k cb => Subscribed k (renumber_callback d cb)
  | Resolved p st => Resolved (p + d) st
  | Updated i t st => Updated i t st
  | Unsubscribed k => Unsubscribed k
  | FrameRequested i => FrameRequested i
  end.

Definition continued (d : nat) (before : list event) (w : World) : World :=
  {| self := with_listeners (renumber_slots d (listeners (self w))) (self w);
     frames := frames w;
     promises := promises w + d;
     log := before ++ (renumber_event d <$> log w) |}.

End Animation.

(* ===================================================================== *)
(** * Sample iterators *)
(* ===================================================================== *)

Module Samples.
Import Animation.

(** A listener that only looks at the state. *)
Definition quiet (name : nat) : TAnimationIteratorListenerCallback :=
  UserCallback name (fun _ => []).


(** A listener that calls the unsubscribe closures of the given slots. *)
Definition remover (name : nat) (slots : list nat) : TAnimationIteratorListenerCallback :=
  UserCallback name (fun _ => Unsubscribe <$> slots).

Definition no_args : Args.t := Args.make None None None None None.

Definition subscribed (cb : TAnimationIteratorListenerCallback) (w : World) : World :=
  fst (subscribe cb w).


(** Slot 0 unsubscribes slot 1 and itself. *)
Definition with_remover : World :=
  subscribed (quiet 2) (subscribed (quiet 1) (subscribed (remover 0 [1; 0]) (fresh no_args))).

(** A negative time step. *)
Definition backwards : World :=
  fresh (Args.make None (Some (-1)%Q) None None None).

(** The configuration of [examples/demo.ts], with a progress of
    [time ** 2]. *)
Definition demo_args : Args.t :=
  Args.make (Some 60%Q) (Some (7 # 1000)%Q) None
    (Some (fun _ t => FuncResult.make ∅ (t * t)%Q)) None.

(** An iterator that completes at its second tick. *)
Definition two_ticks : Args.t :=
  Args.make (Some 50%Q) (Some (1 # 2)%Q) None None None.

(** An iterator whose first tick overshoots: progress [3/2]. *)
Definition overshoot : Args.t :=
  Args.make (Some 50%Q) (Some (3 # 2)%Q) None None None.

Definition complete : FuncResult.t := FuncResult.make ∅ 1.

(** One quiet listener on a new iterator. *)
Definition watched (a : Args.t) : World := subscribed (quiet 7) (fresh a).


(** A listener in slot 0 that calls the closure of slot 1 although
    slot 1 was unsubscribed before and has been taken by [start] since. *)
Definition stale : World :=
  fst (start Null
         (unsubscribe 1
            (subscribed (quiet 1) (subscribed (remover 0 [1]) (fresh two_ticks))))).

End Samples.

(* ===================================================================== *)
(** * Colour texts *)
(* ===================================================================== *)

(** The texts [extractColorAsRgb] is written for, built from their
    parts, and what is counted in a text to tell that no pattern can
    match it. *)
Module ColorText.
Import ColorParser.

Fixpoint occurrences (c : ascii) (s : list ascii) : nat :=
  match s with
  | [] => 0
  | x :: s' => (if Ascii.eqb x c then 1 else 0) + occurrences c s'
  end.

(** A lower bound on how often [c] occurs in any text that [r] matches. *)
Fixpoint min_occurrences (c : ascii) (r : regex) : nat :=
  match r with
  | RChar c' => if Ascii.eqb c' c then 1 else 0
  | RClass _ => 0
  | RSeq r1 r2 => min_occurrences c r1 + min_occurrences c r2
  | ROpt _ => 0
  | RRep lo _ r1 => lo * min_occurrences c r1
  | RGroup r1 => min_occurrences c r1
  | RBol => 0
  | REol => 0
  end.

Definition chars (s : string) : list ascii := list_ascii_of_string s.
Definition text (s : list ascii) : string := string_of_list_ascii s.

Definition is_channel (ds : list ascii) : bool :=
  forallb is_digit ds && Nat.leb 1 (length ds) && Nat.leb (length ds) 3.

Definition is_gap (g : list ascii) : bool :=
  match g with
  | [] => true
  | [c] => is_space c
  | _ => false
  end.

Definition starts_without (p : ascii -> bool) (s : list ascii) : Prop :=
  match s with
  | [] => True
  | x :: _ => p x = false
  end.

Definition decimal (ds : list ascii) : Z :=
  Z.of_N (fold_left (fun acc c => (acc * 10 + N.of_nat (code c - 48))%N) ds 0%N).

(** The texts the three-channel pattern is written for: [rgb], the
    channels [d1 d2 d3] between parentheses and commas, and a gap
    wherever the pattern has [\s?]. *)
Definition rgb_text (g1 d1 g2 g3 d2 g4 g5 d3 g6 : list ascii) : list ascii :=
  chars "rgb" ++ g1 ++ "("%char :: d1 ++ g2 ++ ","%char :: g3 ++ d2 ++ g4 ++
  ","%char :: g5 ++ d3 ++ g6 ++ [")"%char].

(** The same for the four-channel pattern, which has no gap between
    the third channel and the comma after it. *)
Definition rgba_text (g1 d1 g2 g3 d2 g4 g5 d3 g6 d4 g7 : list ascii) : list ascii :=
  chars "rgb" ++ g1 ++ "("%char :: d1 ++ g2 ++ ","%char :: g3 ++ d2 ++ g4 ++
  ","%char :: g5 ++ d3 ++ ","%char :: g6 ++ d4 ++ g7 ++ [")"%char].

(** A hexadecimal digit in either case. *)
Definition is_hex (c : ascii) : bool :=
  is_digit c || between 97 102 c || between 65 70 c.

Definition hex_value (c : ascii) : Z :=
  match digit_value c with
  | Some d => Z.of_N d
  | None => 0
  end.

(** The value of two hexadecimal digits. *)
Definition hex_core (h1 h2 h3 h4 h5 h6 : ascii) : list ascii :=
  ["#"%char; h1; h2; h3; h4; h5; h6].
Definition hex_pair (h l : ascii) : Z := (16 * hex_value h + hex_value l)%Z.

(** What [parseInt] does once the sign is read. *)
Definition after_sign (radix : option N) (neg : bool) (s1 : list ascii) : number :=
  let '(r, s2) :=
    match radix with
    | Some 16%N | None =>
        match strip_hex_prefix s1 with
        | Some s' => (16%N, s')
        | None => (match radix with Some r => r | None => 10%N end, s1)
        end
    | Some r => (r, s1)
    end in
  if (N.ltb r 2 || N.ltb 36 r)%bool then NaN
  else
    match digits r s2 with
    | [] => NaN
    | ds => Num (if neg then - Z.of_N (value r ds) else Z.of_N (value r ds))
    end.

End ColorText.

(* ===================================================================== *)
(** * Runs of frames *)
(* ===================================================================== *)

(** What is read off the log of a run, and the kinds of registries and
    clocks the theorems about runs speak of. *)
Module Runs.
Import Animation.

(** The state [resolve] was called with, whatever the promise. *)
Definition resolved_state (e : event) : option FuncResult.t :=
  match e with
  | Resolved _ st => Some st
  | _ => None
  end.

Definition frame_request (e : event) : option any :=
  match e with
  | FrameRequested i => Some i
  | _ => None
  end.

(** [Date.now()] does not go back between the two readings of a call. *)
Definition forward (c : Q * Q) : Prop := (fst c <= snd c)%Q.

(** What a callback may do with the state [st] it is called with:
    registry operations, and [resolve(st)] when [st] is complete. *)
Definition settled (st : FuncResult.t) (e : event) : Prop :=
  match e with
  | Subscribed _ _ | Unsubscribed _ => True
  | Notified _ _ s => s = st
  | Resolved _ s => s = st /\ Qeq_bool (FuncResult.progress st) 1 = true
  | _ => False
  end.

(** A frame that comes before the iterator is due: the test of [next]
    fails for its first clock reading. *)
Definition too_early (it : AnimationIterator) (c : Q * Q) : Prop :=
  (rate it == 0 \/ fst c - lastTick it < 1000 / rate it)%Q.

(** Slot [s] holds the one-shot listener of promise [p] and no other
    listener touches the registry. *)
Definition lone_start (s p : nat) (ls : slots) : Prop :=
  ls !! s = Some (Some {| callback := StartCallback s p |}) /\
  forall j l, j <> s -> ls !! j = Some (Some l) -> passive (callback l).

(** The promise of a one-shot listener, for a slot that holds one. *)
Definition started (x : option IAnimationIteratorListener) : option nat :=
  match x with
  | Some {| callback := StartCallback _ p |} => Some p
  | _ => None
  end.

(** A registry as [subscribe] and [start] build it when the callbacks
    of the user leave it alone: every listener is passive, or is the
    one-shot listener of a [start], which holds the closure of the
    slot it is in. *)
Definition own_slot (j : nat) (x : option IAnimationIteratorListener) : Prop :=
  match x with
  | Some l => passive (callback l) \/ exists p, callback l = StartCallback j p
  | None => True
  end.

Definition orderly (ls : slots) : Prop :=
  forall j x, ls !! j = Some x -> own_slot j x.

(** The promises whose one-shot listeners are in the registry, in
    slot order. *)
Definition pending (ls : slots) : list nat := omap started ls.

(** The slot without its one-shot listener, and the registry without
    the one-shot listeners: their slots are holes, nothing moves. *)
Definition strip (x : option IAnimationIteratorListener)
    : option IAnimationIteratorListener :=
  match started x with
  | Some _ => None
  | None => x
  end.

Definition finished (ls : slots) : slots := strip <$> ls.

Definition resolved (e : event) : option (nat * FuncResult.t) :=
  match e with
  | Resolved p st => Some (p, st)
  | _ => None
  end.

(** Every resolution among the events has a complete state, which an
    update among them produced. *)
Definition accounted (evs : list event) : Prop :=
  forall p st, Resolved p st ∈ evs ->
  (FuncResult.progress st == 1)%Q /\ exists i t, Updated i t st ∈ evs.

(** Two worlds in which the animation is at the same point: the fields
    that [next] reads and writes and the pending frames agree; the
    registries, the arguments, the promises and the logs may differ. *)
Definition same_course (w1 w2 : World) : Prop :=
  interval (self w1) = interval (self w2) /\
  rate (self w1) = rate (self w2) /\
  progress (self w1) = progress (self w2) /\
  time (self w1) = time (self w2) /\
  lastTick (self w1) = lastTick (self w2) /\
  func (self w1) = func (self w2) /\
  frames w1 = frames w2.

End Runs.

(** More sample iterators. *)
Module Scenes.
Import Animation.

(** An update function that never completes. *)
Definition stuck : Args.t :=
  Args.make (Some 50%Q) (Some (1 # 2)%Q) None
    (Some (fun _ _ => FuncResult.make ∅ (1 # 2)%Q)) None.

(** [start] on a new iterator that completes at its second tick. *)
Definition started_once : World := fst (start Null (fresh Samples.two_ticks)).

(** The same with a quiet listener subscribed before. *)
Definition started_watched : World :=
  fst (start Null (Samples.watched Samples.two_ticks)).

(** [start] twice on an iterator with one quiet listener, whose first
    tick completes. *)
Definition started_twice : World :=
  fst (start Null (fst (start Null (Samples.watched Samples.overshoot)))).

End Scenes.

(* ===================================================================== *)
(** * Theorems *)
(* ===================================================================== *)

Module ColorParserFacts.
Import ColorParser.

Example parseInt_dec : parseInt "255" None = Num 255.
Proof. reflexivity. Qed.

Example parseInt_hex : parseInt "fF" (Some 16%N) = Num 255.
Proof. reflexivity. Qed.

Example parseInt_nan : parseInt "#f" (Some 16%N) = NaN.
Proof. reflexivity. Qed.

Example rgba_regex_needs_rgb_paren : exec rgba_regex "rgba(10,20,30,5)" = None.
Proof. vm_compute. reflexivity. Qed.

Example rgb_regex_rejects_rgba : exec rgb_regex "rgba(10,20,30,5)" = None.
Proof. vm_compute. reflexivity. Qed.

Example four_channels_without_a :
  extractColorAsRgb "rgb(10,20,30,5)" = Return (rgba 10 20 30 5).
Proof. vm_compute. reflexivity. Qed.

Example upper_case_and_spaces :
  extractColorAsRgb "  RGB (1 , 2 , 3 )  " = Return (rgb 1 2 3).
Proof. vm_compute. reflexivity. Qed.

(** The order of the attempts: the four-channel pattern first, then
    the three-channel pattern, then the hexadecimal one; the first that
    matches decides. *)
Lemma four_channels_first (color : string) (c1 c2 c3 c4 : list ascii) :
  exec rgba_regex (trim (toLowerCase color)) = Some [c1; c2; c3; c4] ->
  extractColorAsRgb color =
  Return {| r := capture_int c1; g := capture_int c2; b := capture_int c3;
            a := Some (capture_int c4) |}.
Proof. intros H. unfold extractColorAsRgb. rewrite H. reflexivity. Qed.

Lemma three_channels_second (color : string) (c1 c2 c3 : list ascii) :
  exec rgba_regex (trim (toLowerCase color)) = None ->
  exec rgb_regex (trim (toLowerCase color)) = Some [c1; c2; c3] ->
  extractColorAsRgb color =
  Return {| r := capture_int c1; g := capture_int c2; b := capture_int c3;
            a := None |}.
Proof. intros H1 H2. unfold extractColorAsRgb. rewrite H1, H2. reflexivity. Qed.

Lemma no_match_throws (color : string) :
  exec rgba_regex (trim (toLowerCase color)) = None ->
  exec rgb_regex (trim (toLowerCase color)) = None ->
  exec hex_regex (trim (toLowerCase color)) = None ->
  extractColorAsRgb color = Throw not_recognized.
Proof. intros H1 H2 H3. unfold extractColorAsRgb. rewrite H1, H2, H3. reflexivity. Qed.

(** The hexadecimal digits are cut from [color] as it was passed, not
    from the trimmed string the pattern was matched against. *)
Example hex_after_a_space :
  extractColorAsRgb " #ff0000" =
  Return {| r := NaN; g := Num 240; b := Num 0; a := None |}.
Proof. vm_compute. reflexivity. Qed.

(** C9. On the spec's examples: ["rgb(10, 20, 30)"] gives
    [{r:10,g:20,b:30}], ["#ff0000"] gives [{r:255,g:0,b:0}] and
    ["notacolor"] throws; but ["rgba(10,20,30,5)"] throws as well,
    where the claim has [{r:10,g:20,b:30,a:5}]: both regular expressions
    spell the prefix [rgb\s?\(], so the letter [a] before the
    parenthesis never matches. *)
Theorem extractColorAsRgb_examples :
  extractColorAsRgb "rgb(10, 20, 30)" = Return (rgb 10 20 30) /\
  extractColorAsRgb "#ff0000" = Return (rgb 255 0 0) /\
  extractColorAsRgb "notacolor" = Throw not_recognized /\
  extractColorAsRgb "rgba(10,20,30,5)" = Throw not_recognized.
Proof. vm_compute. repeat split; reflexivity. Qed.

End ColorParserFacts.

Module AnimationFacts.
Import Animation.

#[local] Open Scope Q_scope.

(** ** Comparisons of the model and the order on [Q] *)

Lemma Qle_bool_true (x y : Q) : Qle_bool x y = true <-> x <= y.
Proof. apply Qle_bool_iff. Qed.

Lemma Qle_bool_false (x y : Q) : Qle_bool x y = false <-> y < x.
Proof.
  split; intros H.
  - apply Qnot_le_lt. intros Hle. apply Qle_bool_iff in Hle. congruence.
  - destruct (Qle_bool x y) eqn:E; [|reflexivity].
    apply Qle_bool_iff in E. exfalso. apply (Qlt_not_le _ _ H E).
Qed.

Lemma Qeq_bool_true (x y : Q) : Qeq_bool x y = true <-> x == y.
Proof. apply Qeq_bool_iff. Qed.

(** The test of [next] fails exactly when the rate is zero or less
    than [1000 / rate] milliseconds have passed since [lastTick]. *)
Lemma tick_due_false (now : Q) (it : AnimationIterator) :
  tick_due now it = false <->
  (rate it == 0 \/ now - lastTick it < 1000 / rate it).
Proof.
  unfold tick_due. destruct (Qeq_bool (rate it) 0) eqn:E.
  - apply Qeq_bool_true in E. tauto.
  - rewrite Qle_bool_false. split; [tauto|].
    intros [H|H]; [|exact H].
    apply Qeq_bool_true in H. congruence.
Qed.

Lemma tick_due_true (now : Q) (it : AnimationIterator) :
  tick_due now it = true <->
  (~ rate it == 0 /\ 1000 / rate it <= now - lastTick it).
Proof.
  unfold tick_due. destruct (Qeq_bool (rate it) 0) eqn:E.
  - apply Qeq_bool_true in E. split; [discriminate|tauto].
  - rewrite Qle_bool_true. split; [|tauto].
    intros H. split; [|exact H].
    intros H0. apply Qeq_bool_true in H0. congruence.
Qed.

(** ** Clamping *)

Lemma clamp_le_1 (st : FuncResult.t) : FuncResult.progress (clamp st) <= 1.
Proof.
  unfold clamp. destruct (Qle_bool 1 (FuncResult.progress st)) eqn:E; simpl.
  - apply Qle_refl.
  - apply Qle_bool_false in E. apply Qlt_le_weak, E.
Qed.

Lemma clamp_ge_1 (st : FuncResult.t) :
  1 <= FuncResult.progress st -> FuncResult.progress (clamp st) = 1.
Proof.
  intros H. unfold clamp. apply Qle_bool_true in H. rewrite H. reflexivity.
Qed.

Lemma clamp_lt_1 (st : FuncResult.t) :
  FuncResult.progress st < 1 -> clamp st = st.
Proof.
  intros H. unfold clamp. apply Qle_bool_false in H. rewrite H. reflexivity.
Qed.

Lemma clamp_mono (s1 s2 : FuncResult.t) :
  FuncResult.progress s1 <= FuncResult.progress s2 ->
  FuncResult.progress (clamp s1) <= FuncResult.progress (clamp s2).
Proof.
  intros H. unfold clamp.
  destruct (Qle_bool 1 (FuncResult.progress s1)) eqn:E1;
    destruct (Qle_bool 1 (FuncResult.progress s2)) eqn:E2; simpl;
    rewrite ?Qle_bool_true, ?Qle_bool_false in *; lra.
Qed.

(** ** The log only grows *)

Lemma since_app (w w' : World) (evs : list event) :
  log w' = log w ++ evs -> since w w' = evs.
Proof. intros H. unfold since. rewrite H. apply drop_app_length. Qed.

Lemma grows_intro (w w' : World) (evs : list event) :
  log w' = log w ++ evs -> grows w w'.
Proof. intros H. unfold grows. rewrite (since_app _ _ _ H). exact H. Qed.

Lemma grows_refl (w : World) : grows w w.
Proof. apply (grows_intro w w []). symmetry. apply app_nil_r. Qed.

Lemma since_refl (w : World) : since w w = [].
Proof. apply since_app. symmetry. apply app_nil_r. Qed.

Lemma grows_trans (w1 w2 w3 : World) :
  grows w1 w2 -> grows w2 w3 -> grows w1 w3.
Proof.
  unfold grows. intros H12 H23.
  apply (grows_intro w1 w3 (since w1 w2 ++ since w2 w3)).
  rewrite H23, H12 at 1. symmetry. apply app_assoc.
Qed.

Lemma since_trans (w1 w2 w3 : World) :
  grows w1 w2 -> grows w2 w3 -> since w1 w3 = since w1 w2 ++ since w2 w3.
Proof.
  unfold grows. intros H12 H23. apply since_app.
  rewrite H23, H12 at 1. symmetry. apply app_assoc.
Qed.

Lemma record_since (e : event) (w : World) : since w (record e w) = [e].
Proof. apply since_app. reflexivity. Qed.

Lemma record_grows (e : event) (w : World) : grows w (record e w).
Proof. apply (grows_intro _ _ [e]). reflexivity. Qed.

Lemma subscribe_since (cb : TAnimationIteratorListenerCallback) (w : World) :
  since w (fst (subscribe cb w)) =
  [Subscribed (subscribe_slot (listeners (self w))) cb].
Proof. apply since_app. reflexivity. Qed.

Lemma unsubscribe_since (i : nat) (w : World) :
  since w (unsubscribe i w) = [Unsubscribed i].
Proof. apply since_app. reflexivity. Qed.

Lemma requestAnimationFrame_since (i : any) (w : World) :
  since w (requestAnimationFrame i w) = [FrameRequested i].
Proof. apply since_app. reflexivity. Qed.

(** C2. A tick that comes before [1000 / rate] milliseconds have passed
    since [lastTick] (for a rate of zero: any tick) changes no field of
    the iterator, calls neither the update function nor a listener, and
    requests exactly one frame with the same [initialState]. *)
Theorem next_too_early (initialState : any) (now now' : Q) (w : World) :
  rate (self w) == 0 \/ now - lastTick (self w) < 1000 / rate (self w) ->
  next initialState now now' w =
  {| self := self w;
     frames := frames w ++ [initialState];
     promises := promises w;
     log := log w ++ [FrameRequested initialState] |}.
Proof.
  intros H. apply tick_due_false in H. unfold next. rewrite H. reflexivity.
Qed.

(** ** What a callback and a notification pass can change *)

Lemma steady_refl (w : World) : steady w w.
Proof. unfold steady. destruct w as [[] ? ? ?]; simpl. auto. Qed.

Lemma steady_trans (w1 w2 w3 : World) :
  steady w1 w2 -> steady w2 w3 -> steady w1 w3.
Proof.
  unfold steady. intros (H1 & H2 & H3) (H4 & H5 & H6).
  rewrite H4, H1, H5, H2, H6, H3. simpl. auto.
Qed.

Lemma extends_refl (P : event -> Prop) (w : World) : extends P w w.
Proof.
  unfold extends. rewrite since_refl.
  split; [apply grows_refl|]. split; [apply steady_refl|]. split; [lia|constructor].
Qed.

Lemma extends_trans (P : event -> Prop) (w1 w2 w3 : World) :
  extends P w1 w2 -> extends P w2 w3 -> extends P w1 w3.
Proof.
  intros (G1 & S1 & L1 & F1) (G2 & S2 & L2 & F2).
  split; [eapply grows_trans; eassumption|].
  split; [eapply steady_trans; eassumption|].
  split; [lia|].
  rewrite (since_trans _ _ _ G1 G2). apply Forall_app. auto.
Qed.

Lemma extends_weaken (P P' : event -> Prop) (w w' : World) :
  (forall e, P e -> P' e) -> extends P w w' -> extends P' w w'.
Proof.
  intros HP (G & S & L & F). repeat split; try assumption; try apply S.
  eapply Forall_impl; eauto.
Qed.

Lemma extends_one (P : event -> Prop) (w w' : World) (e : event) :
  log w' = log w ++ [e] -> steady w w' ->
  (length (listeners (self w)) <= length (listeners (self w')))%nat ->
  P e -> extends P w w'.
Proof.
  intros Hlog Hs Hl He.
  split; [eapply grows_intro; eassumption|]. split; [assumption|].
  split; [assumption|]. rewrite (since_app _ _ _ Hlog). repeat constructor. exact He.
Qed.

Lemma length_subscribe_slots (cb : TAnimationIteratorListenerCallback) (ls : slots) :
  (length ls <= length (subscribe_slots cb ls))%nat.
Proof.
  unfold subscribe_slots. destruct (free_slot ls).
  - rewrite length_insert. lia.
  - rewrite length_app. simpl. lia.
Qed.

Lemma steady_listeners (w : World) (ls : slots) (e : event) :
  steady w (record e (with_self (with_listeners ls) w)).
Proof. unfold steady. destruct w as [[] ? ? ?]; simpl. auto. Qed.

Lemma listeners_subscribe (cb : TAnimationIteratorListenerCallback) (w : World) :
  listeners (self (fst (subscribe cb w))) = subscribe_slots cb (listeners (self w)).
Proof. reflexivity. Qed.

Lemma listeners_unsubscribe (i : nat) (w : World) :
  listeners (self (unsubscribe i w)) = <[i := None]> (listeners (self w)).
Proof. reflexivity. Qed.

Lemma listeners_record (e : event) (w : World) :
  listeners (self (record e w)) = listeners (self w).
Proof. reflexivity. Qed.

Lemma subscribe_extends (P : event -> Prop) (cb : TAnimationIteratorListenerCallback)
    (w : World) :
  P (Subscribed (subscribe_slot (listeners (self w))) cb) ->
  extends P w (fst (subscribe cb w)).
Proof.
  intros HP. eapply extends_one; [reflexivity| | |exact HP].
  - apply steady_listeners.
  - rewrite listeners_subscribe. apply length_subscribe_slots.
Qed.

Lemma unsubscribe_extends (P : event -> Prop) (i : nat) (w : World) :
  P (Unsubscribed i) -> extends P w (unsubscribe i w).
Proof.
  intros HP. eapply extends_one; [reflexivity| | |exact HP].
  - unfold unsubscribe, steady. destruct w as [[] ? ? ?]; simpl. auto.
  - rewrite listeners_unsubscribe, length_insert. lia.
Qed.

Lemma resolve_extends (P : event -> Prop) (p : nat) (st : FuncResult.t) (w : World) :
  P (Resolved p st) -> extends P w (resolve p st w).
Proof.
  intros HP. eapply extends_one; [reflexivity| | |exact HP].
  - unfold steady. destruct w as [[] ? ? ?]; simpl. auto.
  - simpl. lia.
Qed.

Lemma perform_extends (st : FuncResult.t) (w : World) (a : action) :
  extends (callback_event st) w (perform w a).
Proof.
  destruct a; simpl.
  - apply subscribe_extends. exact I.
  - apply unsubscribe_extends. exact I.
Qed.

Lemma fold_perform_extends (st : FuncResult.t) (body : list action) (w : World) :
  extends (callback_event st) w (fold_left perform body w).
Proof.
  revert w. induction body as [|a body IH]; intros w; simpl.
  - apply extends_refl.
  - eapply extends_trans; [apply perform_extends|apply IH].
Qed.

Lemma call_extends (cb : TAnimationIteratorListenerCallback) (st : FuncResult.t)
    (w : World) :
  extends (callback_event st) w (call cb st w).
Proof.
  destruct cb as [name body|slot p]; simpl.
  - apply fold_perform_extends.
  - destruct (Qeq_bool (FuncResult.progress st) 1).
    + eapply extends_trans; [apply unsubscribe_extends|apply resolve_extends].
      * exact I.
      * reflexivity.
    + apply extends_refl.
Qed.

Lemma callback_pass_event (st : FuncResult.t) (lo hi : nat) (e : event) :
  callback_event st e -> pass_event st lo hi e.
Proof. destruct e; simpl; tauto. Qed.

Lemma pass_event_widen (st : FuncResult.t) (lo hi lo' hi' : nat) (e : event) :
  (lo' <= lo)%nat -> (hi <= hi')%nat ->
  pass_event st lo hi e -> pass_event st lo' hi' e.
Proof. intros Hlo Hhi. destruct e; simpl; try tauto. intros [? ?]. split; [assumption|lia]. Qed.

Lemma visit_extends (k : nat) (st : FuncResult.t) (w : World) :
  extends (pass_event st k (S k)) w (visit k st w).
Proof.
  unfold visit. destruct (listeners (self w) !! k) as [[l|]|] eqn:E;
    try apply extends_refl.
  eapply extends_trans.
  - apply (extends_one _ w (record (Notified k (callback l) st) w) (Notified k (callback l) st)).
    + reflexivity.
    + unfold steady. destruct w as [[] ? ? ?]; simpl. auto.
    + simpl. lia.
    + simpl. split; [reflexivity|lia].
  - eapply extends_weaken; [|apply call_extends].
    intros e. apply callback_pass_event.
Qed.

Lemma forEach_from_extends (k n : nat) (st : FuncResult.t) (w : World) :
  extends (pass_event st k (k + n)) w (forEach_from k n st w).
Proof.
  revert k w. induction n as [|n IH]; intros k w; simpl.
  - apply extends_refl.
  - apply (extends_trans _ _ (visit k st w)).
    + eapply extends_weaken; [|apply visit_extends].
      intros e. apply pass_event_widen; lia.
    + eapply extends_weaken; [|apply IH].
      intros e. apply pass_event_widen; lia.
Qed.

Lemma notify_extends (st : FuncResult.t) (w : World) :
  extends (pass_event st 0 (length (listeners (self w)))) w (notify st w).
Proof. apply (forEach_from_extends 0). Qed.

(** ** An accepted tick *)

Lemma tick_eq (initialState : any) (now' : Q) (w : World) :
  tick initialState now' w =
  let w5 := notify (next_state initialState w) (advanced initialState now' w) in
  if Qle_bool 1 (progress (self w5)) then w5
  else requestAnimationFrame initialState w5.
Proof. reflexivity. Qed.

Lemma advanced_self (initialState : any) (now' : Q) (w : World) :
  self (advanced initialState now' w) =
  {| args := args (self w);
     interval := interval (self w);
     rate := rate (self w);
     progress := FuncResult.progress (next_state initialState w);
     time := time (self w) + interval (self w);
     lastTick := now';
     func := func (self w);
     listeners := listeners (self w) |}.
Proof. reflexivity. Qed.

Lemma advanced_log (initialState : any) (now' : Q) (w : World) :
  log (advanced initialState now' w) =
  log w ++ [Updated initialState (time (self w) + interval (self w))
              (next_state initialState w)].
Proof. reflexivity. Qed.

Lemma advanced_grows (initialState : any) (now' : Q) (w : World) :
  grows w (advanced initialState now' w).
Proof. eapply grows_intro. apply advanced_log. Qed.

Lemma steady_progress (w w' : World) :
  steady w w' -> progress (self w') = progress (self w).
Proof. intros (H & _). rewrite H. reflexivity. Qed.

Lemma steady_time (w w' : World) :
  steady w w' -> time (self w') = time (self w).
Proof. intros (H & _). rewrite H. reflexivity. Qed.

Lemma steady_fields (w w' : World) :
  steady w w' ->
  args (self w') = args (self w) /\
  interval (self w') = interval (self w) /\
  rate (self w') = rate (self w) /\
  lastTick (self w') = lastTick (self w) /\
  func (self w') = func (self w).
Proof. intros (H & _). rewrite H. simpl. auto. Qed.

(** The events of an accepted tick: the update, then the notification
    pass, then the frame request unless the animation is complete. *)
Lemma tick_since (initialState : any) (now' : Q) (w : World) :
  let st := next_state initialState w in
  let w4 := advanced initialState now' w in
  since w (tick initialState now' w) =
  Updated initialState (time (self w) + interval (self w)) st ::
  since w4 (notify st w4) ++
  (if Qle_bool 1 (FuncResult.progress st) then [] else [FrameRequested initialState]).
Proof.
  intros st w4. rewrite tick_eq. fold st w4. cbv zeta.
  destruct (notify_extends st w4) as (G & S & _ & _).
  rewrite (steady_progress _ _ S).
  change (progress (self w4)) with (FuncResult.progress st).
  apply since_app.
  destruct (Qle_bool 1 (FuncResult.progress st)).
  - rewrite G. unfold w4 at 1. rewrite advanced_log. rewrite <- app_assoc. simpl.
    rewrite app_nil_r. reflexivity.
  - simpl. rewrite G. unfold w4 at 1. rewrite advanced_log.
    rewrite <- !app_assoc. reflexivity.
Qed.

Lemma tick_grows (initialState : any) (now' : Q) (w : World) :
  grows w (tick initialState now' w).
Proof.
  rewrite tick_eq. cbv zeta.
  set (st := next_state initialState w). set (w4 := advanced initialState now' w).
  destruct (notify_extends st w4) as (G & _).
  assert (G5 : grows w (notify st w4)).
  { eapply grows_trans; [apply advanced_grows|exact G]. }
  destruct (Qle_bool 1 (progress (self (notify st w4)))); [exact G5|].
  eapply grows_trans; [exact G5|]. eapply grows_intro. reflexivity.
Qed.

(** The fields of the iterator after an accepted tick. *)
Lemma tick_self (initialState : any) (now' : Q) (w : World) :
  self (tick initialState now' w) =
  with_listeners (listeners (self (tick initialState now' w)))
    (self (advanced initialState now' w)).
Proof.
  rewrite tick_eq. cbv zeta.
  set (st := next_state initialState w). set (w4 := advanced initialState now' w).
  destruct (notify_extends st w4) as (_ & (S & _) & _).
  destruct (Qle_bool 1 (progress (self (notify st w4)))); simpl; exact S.
Qed.

(** C3. Every state a listener is called with during [next] is the
    clamped result of the update function: its progress is at most 1,
    and it is exactly 1 when the update function returned 1 or more. *)
Theorem notified_progress_clamped (initialState : any) (now now' : Q) (w : World)
    (k : nat) (cb : TAnimationIteratorListenerCallback) (st : FuncResult.t) :
  Notified k cb st ∈ since w (next initialState now now' w) ->
  st = clamp (func (self w) initialState (time (self w) + interval (self w))) /\
  FuncResult.progress st <= 1 /\
  (1 <= FuncResult.progress
          (func (self w) initialState (time (self w) + interval (self w))) ->
   FuncResult.progress st = 1).
Proof.
  intros Hin.
  assert (Hst : st = next_state initialState w).
  { unfold next in Hin. destruct (tick_due now (self w)).
    - rewrite tick_since in Hin. cbv zeta in Hin.
      apply elem_of_cons in Hin as [Hin|Hin]; [discriminate|].
      apply elem_of_app in Hin as [Hin|Hin].
      + destruct (notify_extends (next_state initialState w)
                    (advanced initialState now' w)) as (_ & _ & _ & F).
        rewrite Forall_forall in F. apply F in Hin. simpl in Hin. tauto.
      + destruct (Qle_bool 1 _); [inversion Hin|].
        apply list_elem_of_singleton in Hin. discriminate.
    - rewrite requestAnimationFrame_since in Hin.
      apply list_elem_of_singleton in Hin. discriminate. }
  subst st. unfold next_state. split; [reflexivity|].
  split; [apply clamp_le_1|apply clamp_ge_1].
Qed.

(** ** The first listener of a pass *)

Lemma since_elem_of_l (w1 w2 w3 : World) (e : event) :
  grows w1 w2 -> grows w2 w3 -> e ∈ since w1 w2 -> e ∈ since w1 w3.
Proof.
  intros G1 G2 H. rewrite (since_trans _ _ _ G1 G2). apply elem_of_app. auto.
Qed.

Lemma since_elem_of_r (w1 w2 w3 : World) (e : event) :
  grows w1 w2 -> grows w2 w3 -> e ∈ since w2 w3 -> e ∈ since w1 w3.
Proof.
  intros G1 G2 H. rewrite (since_trans _ _ _ G1 G2). apply elem_of_app. auto.
Qed.

Lemma visit_hole (k : nat) (st : FuncResult.t) (w : World) :
  listeners (self w) !! k = Some None -> visit k st w = w.
Proof. intros H. unfold visit. rewrite H. reflexivity. Qed.

Lemma visit_listener (k : nat) (st : FuncResult.t) (w : World)
    (l : IAnimationIteratorListener) :
  listeners (self w) !! k = Some (Some l) ->
  visit k st w = call (callback l) st (record (Notified k (callback l) st) w).
Proof. intros H. unfold visit. rewrite H. reflexivity. Qed.

Lemma extends_grows (P : event -> Prop) (w w' : World) : extends P w w' -> grows w w'.
Proof. intros (G & _). exact G. Qed.

Lemma forEach_from_grows (k n : nat) (st : FuncResult.t) (w : World) :
  grows w (forEach_from k n st w).
Proof. eapply extends_grows, forEach_from_extends. Qed.

Lemma call_grows (cb : TAnimationIteratorListenerCallback) (st : FuncResult.t)
    (w : World) :
  grows w (call cb st w).
Proof. eapply extends_grows, call_extends. Qed.

(** A pass that finds holes up to index [k0 + j] and a listener there
    calls that listener. *)
Lemma forEach_from_first (st : FuncResult.t) (l : IAnimationIteratorListener)
    (j : nat) :
  forall (k0 n : nat) (w : World),
  (forall i, (i < j)%nat -> listeners (self w) !! (k0 + i)%nat = Some None) ->
  listeners (self w) !! (k0 + j)%nat = Some (Some l) ->
  (j < n)%nat ->
  Notified (k0 + j) (callback l) st ∈ since w (forEach_from k0 n st w).
Proof.
  induction j as [|j IH]; intros k0 n w Hholes Hl Hn;
    destruct n as [|n]; try lia; simpl.
  - rewrite Nat.add_0_r in *. rewrite (visit_listener _ _ _ _ Hl).
    set (w1 := record (Notified k0 (callback l) st) w).
    apply (since_elem_of_l w (call (callback l) st w1)).
    + eapply grows_trans; [apply record_grows|apply call_grows].
    + apply forEach_from_grows.
    + apply (since_elem_of_l w w1).
      * apply record_grows.
      * apply call_grows.
      * unfold w1. rewrite record_since. apply list_elem_of_singleton. reflexivity.
  - rewrite visit_hole.
    + replace (k0 + S j)%nat with (S k0 + j)%nat by lia. apply IH.
      * intros i Hi. replace (S k0 + i)%nat with (k0 + S i)%nat by lia.
        apply Hholes. lia.
      * replace (S k0 + j)%nat with (k0 + S j)%nat by lia. exact Hl.
      * lia.
    + specialize (Hholes 0%nat). rewrite Nat.add_0_r in Hholes. apply Hholes. lia.
Qed.

Lemma occupied_from_first (ls : slots) :
  forall (k0 k : nat) (cb : TAnimationIteratorListenerCallback),
  head (occupied_from k0 ls) = Some (k, cb) ->
  exists (j : nat) (l : IAnimationIteratorListener),
    k = (k0 + j)%nat /\ callback l = cb /\
    ls !! j = Some (Some l) /\
    (forall i, (i < j)%nat -> ls !! i = Some None).
Proof.
  induction ls as [|[l|] ls IH]; intros k0 k cb H; simpl in H.
  - discriminate.
  - injection H as <- <-. exists 0%nat, l.
    repeat split; [lia|intros i Hi; lia].
  - apply IH in H as (j & l & -> & Hcb & Hl & Hholes).
    exists (S j), l. repeat split; [lia|assumption|assumption|].
    intros [|i] Hi; simpl; [reflexivity|apply Hholes; lia].
Qed.

Lemma notify_first (st : FuncResult.t) (w : World) (k : nat)
    (cb : TAnimationIteratorListenerCallback) :
  head (occupied (listeners (self w))) = Some (k, cb) ->
  Notified k cb st ∈ since w (notify st w).
Proof.
  intros H. apply occupied_from_first in H as (j & l & -> & <- & Hl & Hholes).
  unfold notify. apply forEach_from_first.
  - exact Hholes.
  - exact Hl.
  - apply lookup_lt_Some in Hl. exact Hl.
Qed.

(** ** The first tick *)

(** C10. [reset] (and so the constructor, which ends with it) leaves
    [lastTick] at 0.  Hence for a positive rate the first tick is
    accepted as soon as the clock reads [1000 / rate] or more: elapsed
    time becomes [0 + interval], the update function is called with it,
    and the notification pass runs (the listener in the lowest occupied
    slot is called with the new state). *)
Theorem first_tick_accepted (w : World) (it : AnimationIterator)
    (initialState : any) (now now' : Q) :
  self w = reset_fields it ->
  0 < rate (self w) ->
  1000 / rate (self w) <= now ->
  lastTick (self w) = 0 /\
  next initialState now now' w = tick initialState now' w /\
  time (self (next initialState now now' w)) = 0 + interval (self w) /\
  lastTick (self (next initialState now now' w)) = now' /\
  head (since w (next initialState now now' w)) =
    Some (Updated initialState (0 + interval (self w)) (next_state initialState w)) /\
  forall (k : nat) (cb : TAnimationIteratorListenerCallback),
    head (occupied (listeners (self w))) = Some (k, cb) ->
    Notified k cb (next_state initialState w)
      ∈ since w (next initialState now now' w).
Proof.
  intros Hw Hrate Hnow.
  assert (Hlast : lastTick (self w) = 0) by (rewrite Hw; reflexivity).
  assert (Htime : time (self w) = 0) by (rewrite Hw; reflexivity).
  assert (Hdue : tick_due now (self w) = true).
  { apply tick_due_true. rewrite Hlast. split; [|lra].
    intros H0. rewrite H0 in Hrate. apply (Qlt_irrefl 0 Hrate). }
  unfold next. rewrite Hdue.
  split; [exact Hlast|]. split; [reflexivity|].
  rewrite tick_self, advanced_self. simpl. rewrite tick_since. cbv zeta. simpl.
  rewrite Htime.
  repeat split.
  intros k cb Hocc. apply elem_of_cons. right. apply elem_of_app. left.
  apply notify_first. exact Hocc.
Qed.

Lemma constructor_is_reset (a : Args.t) :
  self (fresh a) = reset_fields (field_initialisers a).
Proof. reflexivity. Qed.

Lemma reset_is_reset (w : World) : self (reset w) = reset_fields (self w).
Proof. reflexivity. Qed.

(** ** [subscribe] and [unsubscribe] on the registry *)

Lemma free_slot_Some (ls : slots) (i : nat) :
  free_slot ls = Some i ->
  ls !! i = Some None /\
  forall j, (j < i)%nat -> exists l, ls !! j = Some (Some l).
Proof.
  revert i. induction ls as [|[l|] ls IH]; intros i H; simpl in H.
  - discriminate.
  - destruct (free_slot ls) as [i'|]; [|discriminate].
    injection H as <-. destruct (IH i' eq_refl) as (Hi & Hlow).
    split; [exact Hi|].
    intros [|j] Hj; simpl; [eauto|apply Hlow; lia].
  - injection H as <-. split; [reflexivity|]. intros j Hj. lia.
Qed.


Lemma subscribe_slot_le (ls : slots) : (subscribe_slot ls <= length ls)%nat.
Proof.
  unfold subscribe_slot. destruct (free_slot ls) as [i|] eqn:E; [|lia].
  apply free_slot_Some in E as (Hi & _). apply lookup_lt_Some in Hi. lia.
Qed.

(** The slot of a subscription holds the callback afterwards. *)
Lemma subscribe_slots_lookup (cb : TAnimationIteratorListenerCallback) (ls : slots) :
  subscribe_slots cb ls !! subscribe_slot ls = Some (Some {| callback := cb |}).
Proof.
  unfold subscribe_slots, subscribe_slot.
  destruct (free_slot ls) as [i|] eqn:E.
  - apply free_slot_Some in E as (Hi & _).
    apply list_lookup_insert_eq. apply lookup_lt_Some in Hi. exact Hi.
  - apply list_lookup_middle. reflexivity.
Qed.

(** Every other slot is as it was. *)
Lemma subscribe_slots_other (cb : TAnimationIteratorListenerCallback) (ls : slots)
    (j : nat) :
  j <> subscribe_slot ls -> subscribe_slots cb ls !! j = ls !! j.
Proof.
  unfold subscribe_slots, subscribe_slot. intros Hj.
  destruct (free_slot ls) as [i|] eqn:E.
  - apply list_lookup_insert_ne. congruence.
  - destruct (decide (j < length ls)%nat) as [Hlt|Hge].
    + apply lookup_app_l. exact Hlt.
    + rewrite (lookup_ge_None_2 ls) by lia.
      apply lookup_ge_None_2. rewrite length_app. simpl. lia.
Qed.


Lemma subscribe_slot_empty (cb : TAnimationIteratorListenerCallback) (ls : slots) :
  (ls !! subscribe_slot ls = Some None /\
   length (subscribe_slots cb ls) = length ls) \/
  (subscribe_slot ls = length ls /\
   subscribe_slots cb ls = ls ++ [Some {| callback := cb |}]).
Proof.
  unfold subscribe_slot, subscribe_slots. destruct (free_slot ls) as [i|] eqn:E.
  - left. apply free_slot_Some in E as (Hi & _). split; [exact Hi|].
    apply length_insert.
  - right. split; reflexivity.
Qed.



(** ** A pass over passive listeners *)

Lemma call_passive (cb : TAnimationIteratorListenerCallback) (st : FuncResult.t)
    (w : World) :
  passive cb -> call cb st w = w.
Proof.
  destruct cb as [name body|slot p]; simpl; [|tauto].
  intros H. rewrite H. reflexivity.
Qed.

Lemma every_listener_lookup (P : TAnimationIteratorListenerCallback -> Prop)
    (ls : slots) (k : nat) (l : IAnimationIteratorListener) :
  every_listener P ls -> ls !! k = Some (Some l) -> P (callback l).
Proof.
  unfold every_listener. rewrite Forall_lookup. intros H Hk. apply (H _ _ Hk).
Qed.

Lemma omap_since_cons {B : Type} (f : event -> option B) (w w1 w' : World)
    (e : event) :
  log w1 = log w ++ [e] -> grows w1 w' ->
  omap f (since w w') = omap f [e] ++ omap f (since w1 w').
Proof.
  intros H1 G. rewrite <- omap_app. f_equal.
  apply since_app. rewrite G, H1. symmetry. apply app_assoc.
Qed.

(** When no listener touches the registry, a pass calls the listeners
    of the slots it covers, in slot order, and leaves the registry as
    it is. *)
Lemma forEach_from_passive (st : FuncResult.t) (n : nat) :
  forall (k : nat) (w : World),
  every_listener passive (listeners (self w)) ->
  omap notification (since w (forEach_from k n st w)) =
    occupied_from k (take n (drop k (listeners (self w)))) /\
  listeners (self (forEach_from k n st w)) = listeners (self w).
Proof.
  induction n as [|n IH]; intros k w Hp; simpl.
  - rewrite since_refl. split; reflexivity.
  - destruct (listeners (self w) !! k) as [[l|]|] eqn:E.
    + rewrite (visit_listener _ _ _ _ E).
      rewrite (call_passive _ _ _ (every_listener_lookup _ _ _ _ Hp E)).
      set (w1 := record (Notified k (callback l) st) w).
      destruct (IH (S k) w1 Hp) as (IH1 & IH2).
      rewrite (drop_S _ _ _ E). simpl.
      rewrite (omap_since_cons notification w w1 _ (Notified k (callback l) st)
                 eq_refl (forEach_from_grows _ _ _ _)).
      simpl. rewrite IH1. split; [reflexivity|exact IH2].
    + rewrite (visit_hole _ _ _ E).
      destruct (IH (S k) w Hp) as (IH1 & IH2).
      rewrite (drop_S _ _ _ E). simpl. split; [exact IH1|exact IH2].
    + assert (Hv : visit k st w = w) by (unfold visit; rewrite E; reflexivity).
      rewrite Hv.
      destruct (IH (S k) w Hp) as (IH1 & IH2).
      apply lookup_ge_None_1 in E.
      rewrite drop_ge in IH1 by lia. rewrite drop_ge by lia.
      rewrite take_nil in IH1. rewrite take_nil. split; [exact IH1|exact IH2].
Qed.

Lemma notify_passive (st : FuncResult.t) (w : World) :
  every_listener passive (listeners (self w)) ->
  omap notification (since w (notify st w)) = occupied (listeners (self w)) /\
  listeners (self (notify st w)) = listeners (self w).
Proof.
  intros Hp. unfold notify, occupied.
  destruct (forEach_from_passive st (length (listeners (self w))) 0 w Hp) as (H1 & H2).
  rewrite drop_0, take_ge in H1 by lia. split; assumption.
Qed.

(** The listeners an accepted tick calls are those of its
    notification pass. *)
Lemma tick_notifications (initialState : any) (now' : Q) (w : World) :
  omap notification (since w (tick initialState now' w)) =
  omap notification
    (since (advanced initialState now' w)
       (notify (next_state initialState w) (advanced initialState now' w))).
Proof.
  rewrite tick_since. cbv zeta. simpl. rewrite omap_app.
  destruct (Qle_bool 1 _); simpl; apply app_nil_r.
Qed.


(** ** Subscribing several listeners to an empty registry *)







Lemma every_listener_insert_None (P : TAnimationIteratorListenerCallback -> Prop)
    (ls : slots) (k : nat) :
  every_listener P ls -> every_listener P (<[k := None]> ls).
Proof.
  unfold every_listener. intros H. apply Forall_insert; [exact H|exact I].
Qed.



(** ** Unsubscribing during a pass *)

Lemma clear_all_lookup (cl : gset nat) (ls : slots) (j : nat) :
  clear_all cl ls !! j =
  (fun x => if bool_decide (j ∈ cl) then None else x) <$> ls !! j.
Proof. unfold clear_all. apply list_lookup_imap. Qed.

Lemma clear_all_length (cl : gset nat) (ls : slots) :
  length (clear_all cl ls) = length ls.
Proof. unfold clear_all. apply length_imap. Qed.

Lemma clear_all_empty (ls : slots) : clear_all ∅ ls = ls.
Proof.
  apply list_eq. intros j. rewrite clear_all_lookup.
  destruct (ls !! j); reflexivity.
Qed.

Lemma insert_clear_all (i : nat) (cl : gset nat) (ls : slots) :
  <[i := None]> (clear_all cl ls) = clear_all ({[i]} ∪ cl) ls.
Proof.
  apply list_eq. intros j. rewrite list_lookup_insert, !clear_all_lookup.
  rewrite clear_all_length. destruct (ls !! j) as [x|] eqn:E; simpl.
  - apply lookup_lt_Some in E.
    destruct (decide (i = j)) as [->|Hne].
    + rewrite decide_True by (split; [reflexivity|exact E]).
      rewrite bool_decide_eq_true_2 by set_solver. reflexivity.
    + rewrite decide_False by tauto. simpl.
      destruct (bool_decide (j ∈ cl)) eqn:B.
      * apply bool_decide_eq_true_1 in B.
        rewrite bool_decide_eq_true_2 by set_solver. reflexivity.
      * apply bool_decide_eq_false_1 in B.
        rewrite bool_decide_eq_false_2 by set_solver. reflexivity.
  - apply lookup_ge_None_1 in E. rewrite decide_False by lia. reflexivity.
Qed.

Lemma fold_perform_unsubscribing (ls0 : slots) (body : list action) :
  forall (w : World) (cl : gset nat),
  Forall (fun a => is_Some (unsubscribed_slot a)) body ->
  listeners (self w) = clear_all cl ls0 ->
  listeners (self (fold_left perform body w)) =
  clear_all (list_to_set (omap unsubscribed_slot body) ∪ cl) ls0.
Proof.
  induction body as [|a body IH]; intros w cl Hb Hw.
  - simpl. rewrite Hw. f_equal. set_solver.
  - apply Forall_cons in Hb as (Ha & Hb).
    destruct a as [name b|i]; [destruct Ha as [x Hx]; discriminate|].
    change (fold_left perform (Unsubscribe i :: body) w)
      with (fold_left perform body (unsubscribe i w)).
    rewrite (IH (unsubscribe i w) ({[i]} ∪ cl) Hb).
    + f_equal. simpl. set_solver.
    + rewrite listeners_unsubscribe, Hw. apply insert_clear_all.
Qed.

Lemma call_unsubscribing (ls0 : slots) (cb : TAnimationIteratorListenerCallback)
    (st : FuncResult.t) (w : World) (cl : gset nat) :
  unsubscribing cb ->
  listeners (self w) = clear_all cl ls0 ->
  listeners (self (call cb st w)) =
  clear_all (list_to_set (targets cb st) ∪ cl) ls0.
Proof.
  destruct cb as [name body|slot p]; simpl; intros Hu Hw.
  - apply fold_perform_unsubscribing; [apply Hu|exact Hw].
  - destruct (Qeq_bool (FuncResult.progress st) 1).
    + change (listeners (self (resolve p st (unsubscribe slot w))))
        with (listeners (self (unsubscribe slot w))).
      rewrite listeners_unsubscribe, Hw, insert_clear_all. f_equal. set_solver.
    + rewrite Hw. f_equal. set_solver.
Qed.

(** A pass over listeners that only unsubscribe calls the [survivors]
    of the registry it began with, and ends with that registry less
    some slots. *)
Lemma forEach_from_unsubscribing (ls0 : slots) (st : FuncResult.t) (n : nat) :
  forall (k : nat) (w : World) (cl : gset nat),
  every_listener unsubscribing ls0 ->
  listeners (self w) = clear_all cl ls0 ->
  omap notification (since w (forEach_from k n st w)) = survivors k n ls0 cl st /\
  exists cl', listeners (self (forEach_from k n st w)) = clear_all cl' ls0.
Proof.
  induction n as [|n IH]; intros k w cl Hu Hw.
  - simpl. rewrite since_refl. split; [reflexivity|]. exists cl. exact Hw.
  - change (forEach_from k (S n) st w) with (forEach_from (S k) n st (visit k st w)).
    assert (Hk : listeners (self w) !! k =
                 (fun x => if bool_decide (k ∈ cl) then None else x) <$> ls0 !! k).
    { rewrite Hw. apply clear_all_lookup. }
    simpl survivors.
    destruct (ls0 !! k) as [[l|]|] eqn:E; simpl in Hk.
    + destruct (bool_decide (k ∈ cl)) eqn:B.
      * rewrite (visit_hole _ _ _ Hk). apply IH; assumption.
      * rewrite (visit_listener _ _ _ _ Hk).
        set (w1 := record (Notified k (callback l) st) w).
        assert (Hl : unsubscribing (callback l))
          by (eapply every_listener_lookup; eassumption).
        assert (Hc := call_unsubscribing ls0 (callback l) st w1 cl Hl Hw).
        destruct (IH (S k) _ _ Hu Hc) as (IH1 & IH2).
        split; [|exact IH2].
        rewrite (omap_since_cons notification w w1 _ (Notified k (callback l) st) eq_refl).
        -- simpl. f_equal.
           rewrite <- IH1.
           assert (Hno : omap notification (since w1 (call (callback l) st w1)) = []).
           { destruct (call_extends (callback l) st w1) as (_ & _ & _ & F).
             induction F as [|e evs He _ IHF]; [reflexivity|].
             simpl. destruct e; simpl in He; try tauto; exact IHF. }
           rewrite (since_trans w1 (call (callback l) st w1)
                      (forEach_from (S k) n st (call (callback l) st w1))
                      (call_grows _ _ _) (forEach_from_grows _ _ _ _)).
           rewrite omap_app, Hno. reflexivity.
        -- eapply grows_trans; [apply call_grows|apply forEach_from_grows].
    + rewrite (visit_hole k st w) by (rewrite Hk; destruct (bool_decide _); reflexivity).
      apply IH; assumption.
    + assert (Hv : visit k st w = w) by (unfold visit; rewrite Hk; reflexivity).
      rewrite Hv. apply IH; assumption.
Qed.

Section Survivors.

Variables (ls : slots) (st : FuncResult.t).

(** Who is called was in the registry when the pass began, in the
    same slot, and has not been cleared. *)
Lemma survivors_sound (n : nat) :
  forall (k : nat) (cl : gset nat) (x : nat) (cb : TAnimationIteratorListenerCallback),
  (x, cb) ∈ survivors k n ls cl st ->
  (k <= x < k + n)%nat /\ (x ∉ cl) /\
  exists l, ls !! x = Some (Some l) /\ callback l = cb.
Proof.
  induction n as [|n IH]; intros k cl x cb H; simpl in H.
  - inversion H.
  - destruct (ls !! k) as [[l|]|] eqn:E.
    + destruct (bool_decide (k ∈ cl)) eqn:B.
      * apply IH in H as (? & ? & ?). split; [lia|]. split; assumption.
      * apply bool_decide_eq_false_1 in B.
        apply elem_of_cons in H as [H|H].
        -- injection H as -> ->. split; [lia|]. split; [exact B|]. eauto.
        -- apply IH in H as (? & Hx & ?). split; [lia|].
           split; [set_solver|assumption].
    + apply IH in H as (? & ? & ?). split; [lia|]. split; assumption.
    + apply IH in H as (? & ? & ?). split; [lia|]. split; assumption.
Qed.

(** A slot that a called listener clears ahead of the pass is not called. *)
Lemma survivors_skip (n : nat) :
  forall (k : nat) (cl : gset nat) (j x : nat)
         (cb cb' : TAnimationIteratorListenerCallback),
  (j, cb) ∈ survivors k n ls cl st ->
  x ∈ targets cb st -> (j < x)%nat ->
  (x, cb') ∉ survivors k n ls cl st.
Proof.
  induction n as [|n IH]; intros k cl j x cb cb' H Hx Hjx; simpl in *.
  - inversion H.
  - destruct (ls !! k) as [[l|]|] eqn:E; try (eapply IH; eassumption).
    destruct (bool_decide (k ∈ cl)) eqn:B; [eapply IH; eassumption|].
    apply elem_of_cons in H as [H|H].
    + injection H as -> ->. intros Hin.
      apply elem_of_cons in Hin as [Hin|Hin]; [injection Hin as -> _; lia|].
      apply survivors_sound in Hin as (_ & Hcl & _).
      apply Hcl. apply elem_of_union_l, elem_of_list_to_set. exact Hx.
    + intros Hin. apply elem_of_cons in Hin as [Hin|Hin].
      * injection Hin as -> _. apply survivors_sound in H as (? & _). lia.
      * revert Hin. eapply IH; eassumption.
Qed.

(** A listener of the starting registry that no earlier called
    listener clears is called. *)
Lemma survivors_complete (n : nat) :
  forall (k : nat) (cl : gset nat) (x : nat) (l : IAnimationIteratorListener),
  ls !! x = Some (Some l) ->
  (k <= x < k + n)%nat -> x ∉ cl ->
  (forall j cb, (j, cb) ∈ survivors k n ls cl st -> (j < x)%nat ->
                x ∉ targets cb st) ->
  (x, callback l) ∈ survivors k n ls cl st.
Proof.
  induction n as [|n IH]; intros k cl x l Hl Hx Hcl Hfree; simpl in *.
  - lia.
  - destruct (decide (k = x)) as [->|Hne].
    + rewrite Hl. rewrite bool_decide_eq_false_2 by exact Hcl.
      apply elem_of_cons. left. reflexivity.
    + destruct (ls !! k) as [[lk|]|] eqn:E;
        try (apply IH; [assumption|lia|assumption|assumption]).
      destruct (bool_decide (k ∈ cl)) eqn:B;
        [apply IH; [assumption|lia|assumption|assumption]|].
      apply elem_of_cons. right. apply IH; [assumption|lia| |].
      * intros Hin. apply elem_of_union in Hin as [Hin|Hin]; [|tauto].
        apply elem_of_list_to_set in Hin.
        apply (Hfree k (callback lk)); [apply elem_of_cons; left; reflexivity|lia|exact Hin].
      * intros j cb Hj. apply Hfree. apply elem_of_cons. right. exact Hj.
Qed.

End Survivors.

Lemma tick_listeners (initialState : any) (now' : Q) (w : World) :
  listeners (self (tick initialState now' w)) =
  listeners (self (notify (next_state initialState w)
                     (advanced initialState now' w))).
Proof.
  rewrite tick_eq. cbv zeta. destruct (Qle_bool 1 _); reflexivity.
Qed.

(** C5. In an accepted tick whose listeners unsubscribe themselves or
    others while they are called, the pass goes on over the registry
    it began with: the registry afterwards is that registry with some
    slots emptied (nothing moves), the listeners called are the
    [survivors]: each was in its slot when the pass began, a slot
    cleared by a listener called earlier in the pass is not called,
    and every other listener of the starting registry is called. *)
Theorem unsubscribe_during_pass (initialState : any) (now' : Q) (w : World) :
  let ls := listeners (self w) in
  let st := next_state initialState w in
  let called := omap notification (since w (tick initialState now' w)) in
  every_listener unsubscribing ls ->
  called = survivors 0 (length ls) ls ∅ st /\
  (exists cl, listeners (self (tick initialState now' w)) = clear_all cl ls) /\
  (forall x cb, (x, cb) ∈ called ->
     exists l, ls !! x = Some (Some l) /\ callback l = cb) /\
  (forall j cb x cb', (j, cb) ∈ called -> x ∈ targets cb st -> (j < x)%nat ->
     (x, cb') ∉ called) /\
  (forall x l, ls !! x = Some (Some l) ->
     (forall j cb, (j, cb) ∈ called -> (j < x)%nat -> x ∉ targets cb st) ->
     (x, callback l) ∈ called).
Proof.
  intros ls st called Hu.
  assert (Hw : listeners (self (advanced initialState now' w)) = clear_all ∅ ls)
    by (rewrite clear_all_empty; reflexivity).
  destruct (forEach_from_unsubscribing ls st (length ls) 0
              (advanced initialState now' w) ∅ Hu Hw) as (H1 & H2).
  assert (Hc : called = survivors 0 (length ls) ls ∅ st).
  { unfold called. rewrite tick_notifications. exact H1. }
  split; [exact Hc|].
  split; [rewrite tick_listeners; exact H2|].
  rewrite Hc. split; [|split].
  - intros x cb H. apply survivors_sound in H as (_ & _ & H). exact H.
  - intros j cb x cb'. apply survivors_skip.
  - intros x l Hl Hfree. apply survivors_complete; try assumption.
    + apply lookup_lt_Some in Hl. lia.
    + set_solver.
Qed.

(** ** The order of a pass *)





Lemma pass_event_states (st : FuncResult.t) (lo hi : nat) (evs : list event) :
  Forall (pass_event st lo hi) evs -> Forall (eq st) (omap notified_state evs).
Proof.
  intros F. induction F as [|e evs He _ IH]; [constructor|].
  destruct e; simpl in *; try tauto. constructor; [symmetry; tauto|exact IH].
Qed.





(** ** Runs of frames *)

Lemma pass_event_not_updated (st : FuncResult.t) (lo hi : nat) (evs : list event) :
  Forall (pass_event st lo hi) evs -> omap updated evs = [].
Proof.
  intros F. induction F as [|e evs He _ IH]; [reflexivity|].
  destruct e; simpl in *; try tauto; exact IH.
Qed.

(** An accepted tick records one update. *)
Lemma tick_updated (initialState : any) (now' : Q) (w : World) :
  omap updated (since w (tick initialState now' w)) =
  [(initialState, time (self w) + interval (self w), next_state initialState w)].
Proof.
  rewrite tick_since. cbv zeta. simpl. f_equal. rewrite omap_app.
  destruct (notify_extends (next_state initialState w)
              (advanced initialState now' w)) as (_ & _ & _ & F).
  rewrite (pass_event_not_updated _ _ _ _ F).
  destruct (Qle_bool 1 _); reflexivity.
Qed.

Lemma tick_frames (initialState : any) (now' : Q) (w : World) :
  frames (tick initialState now' w) =
  frames w ++
  (if Qle_bool 1 (FuncResult.progress (next_state initialState w)) then []
   else [initialState]).
Proof.
  rewrite tick_eq. cbv zeta.
  set (st := next_state initialState w). set (w4 := advanced initialState now' w).
  destruct (notify_extends st w4) as (_ & S & _).
  rewrite (steady_progress _ _ S). destruct S as (_ & Hf & _).
  change (progress (self w4)) with (FuncResult.progress st).
  destruct (Qle_bool 1 (FuncResult.progress st)).
  - rewrite Hf. simpl. symmetry. apply app_nil_r.
  - simpl. rewrite Hf. reflexivity.
Qed.

Lemma tick_fields (initialState : any) (now' : Q) (w : World) :
  time (self (tick initialState now' w)) = time (self w) + interval (self w) /\
  interval (self (tick initialState now' w)) = interval (self w) /\
  rate (self (tick initialState now' w)) = rate (self w) /\
  func (self (tick initialState now' w)) = func (self w) /\
  lastTick (self (tick initialState now' w)) = now' /\
  progress (self (tick initialState now' w)) =
    FuncResult.progress (next_state initialState w).
Proof. rewrite tick_self. simpl. repeat split. Qed.

Lemma next_grows (initialState : any) (now now' : Q) (w : World) :
  grows w (next initialState now now' w).
Proof.
  unfold next. destruct (tick_due now (self w)).
  - apply tick_grows.
  - eapply grows_intro. reflexivity.
Qed.

Lemma frame_grows (c : Q * Q) (w : World) : grows w (frame c w).
Proof.
  unfold frame. destruct (frames w) as [|i rest]; [apply grows_refl|].
  apply (next_grows i (fst c) (snd c)
           {| self := self w; frames := rest; promises := promises w; log := log w |}).
Qed.

Lemma run_grows (clocks : list (Q * Q)) :
  forall w, grows w (run clocks w).
Proof.
  induction clocks as [|c clocks IH]; intros w; simpl.
  - apply grows_refl.
  - eapply grows_trans; [apply frame_grows|apply IH].
Qed.

(** What one frame does to a world whose pending frames all carry
    [initialState]: nothing, a frame request, or an accepted tick,
    whose elapsed time is not before the one stored. *)
Lemma frame_cases (initialState : any) (c : Q * Q) (w : World) :
  Forall (eq initialState) (frames w) ->
  0 <= interval (self w) ->
  let w' := frame c w in
  Forall (eq initialState) (frames w') /\
  interval (self w') = interval (self w) /\
  func (self w') = func (self w) /\
  ((omap updated (since w w') = [] /\ time (self w') = time (self w)) \/
   (omap updated (since w w') =
      [update_at initialState (func (self w)) (time (self w'))] /\
    time (self w) <= time (self w'))).
Proof.
  intros Hf Hi. unfold frame. destruct (frames w) as [|i rest] eqn:E.
  - cbv zeta. split; [rewrite E; exact Hf|]. split; [reflexivity|].
    split; [reflexivity|]. left. rewrite since_refl. auto.
  - apply Forall_cons in Hf as (<- & Hrest).
    set (w0 := {| self := self w; frames := rest; promises := promises w; log := log w |}).
    assert (Hs : forall w', since w w' = since w0 w') by reflexivity.
    cbv zeta. rewrite Hs. unfold next. destruct (tick_due (fst c) (self w0)).
    + destruct (tick_fields initialState (snd c) w0) as (Ht & Hiv & _ & Hfn & _).
      split; [|split; [exact Hiv|split; [exact Hfn|]]].
      * rewrite tick_frames. apply Forall_app. split; [exact Hrest|].
        destruct (Qle_bool 1 _); repeat constructor.
      * right. rewrite tick_updated, Ht. split; [reflexivity|].
        change (self w0) with (self w). lra.
    + split; [|split; [reflexivity|split; [reflexivity|]]].
      * simpl. apply Forall_app. split; [exact Hrest|repeat constructor].
      * left. rewrite requestAnimationFrame_since. simpl. auto.
Qed.

(** The updates of a run: the update function is called with elapsed
    times that do not decrease, none before the time stored at the
    start. *)
Lemma run_updates (initialState : any) (clocks : list (Q * Q)) :
  forall w,
  Forall (eq initialState) (frames w) ->
  0 <= interval (self w) ->
  exists ts,
    omap updated (since w (run clocks w)) =
      update_at initialState (func (self w)) <$> ts /\
    StronglySorted Qle ts /\
    Forall (Qle (time (self w))) ts.
Proof.
  induction clocks as [|c clocks IH]; intros w Hf Hi.
  - exists []. simpl. rewrite since_refl. repeat constructor.
  - change (run (c :: clocks) w) with (run clocks (frame c w)).
    destruct (frame_cases initialState c w Hf Hi) as (Hf' & Hiv & Hfn & Hc).
    destruct (IH (frame c w) Hf') as (ts & Hm & Hsort & Hlow);
      [rewrite Hiv; exact Hi|].
    rewrite (since_trans w (frame c w) _ (frame_grows _ _) (run_grows _ _)).
    rewrite omap_app, Hm, Hfn.
    destruct Hc as [(Hu & Ht)|(Hu & Ht)]; rewrite Hu.
    + exists ts. split; [reflexivity|]. split; [exact Hsort|].
      rewrite <- Ht. exact Hlow.
    + exists (time (self (frame c w)) :: ts). split; [reflexivity|]. split.
      * constructor; assumption.
      * constructor; [exact Ht|].
        eapply Forall_impl; [exact Hlow|]. intros t Hle. simpl in Hle.
        apply (Qle_trans _ _ _ Ht Hle).
Qed.

(** ** Progress across accepted ticks *)

Lemma omap_stored_progress (evs : list event) :
  omap stored_progress evs =
  (fun u => FuncResult.progress (snd u)) <$> omap updated evs.
Proof.
  induction evs as [|e evs IH]; [reflexivity|].
  destruct e; simpl; try exact IH. f_equal. exact IH.
Qed.

Lemma omap_update_time (evs : list event) :
  omap update_time evs = (fun u => snd (fst u)) <$> omap updated evs.
Proof.
  induction evs as [|e evs IH]; [reflexivity|].
  destruct e; simpl; try exact IH. f_equal. exact IH.
Qed.

Lemma seq_sorted (a m : nat) : StronglySorted le (seq a m).
Proof.
  revert a. induction m as [|m IH]; intros a; simpl; constructor.
  - apply IH.
  - apply Forall_forall. intros x Hx. apply elem_of_seq in Hx. lia.
Qed.

(** With the default update function ([progress = time]) and a time
    step of [-1], two accepted ticks store the progress [-1] and then
    [-2]: the update function is non-decreasing in the elapsed time,
    the stored progress decreases. *)
Lemma progress_decreases_backwards :
  let w := fst (start Null Samples.backwards) in
  let evs := since w (run [(17, 17); (34, 34)] w) in
  (forall t t', t <= t' ->
     FuncResult.progress (func (self w) Null t) <=
     FuncResult.progress (func (self w) Null t')) /\
  Forall (eq Null) (frames w) /\
  omap stored_progress evs = [-1 # 1; -2 # 1] /\
  ~ StronglySorted Qle (omap stored_progress evs).
Proof.
  cbv zeta.
  assert (H : omap stored_progress
                (since (fst (start Null Samples.backwards))
                   (run [(17, 17); (34, 34)] (fst (start Null Samples.backwards)))) =
              [-1 # 1; -2 # 1]) by (vm_compute; reflexivity).
  split; [intros t t' Ht; exact Ht|].
  split; [repeat constructor|].
  split; [exact H|].
  rewrite H. intros Hs. apply StronglySorted_cons in Hs as (Hs & _).
  apply Forall_cons in Hs as (Hs & _). revert Hs. apply Qlt_not_le. reflexivity.
Qed.

(** C7 (amended). When the time step is not negative and the update
    function's progress is non-decreasing in the elapsed time, the
    progress stored by the accepted ticks of a run (whose frames carry
    the same [initialState]) is non-decreasing from each tick to the
    next, and so is the elapsed time the update function is called
    with.  (How much the elapsed time grows is the matter of the
    addition [time += interval] alone and is not stated.) *)
Theorem progress_monotone (w : World) (initialState : any) (clocks : list (Q * Q)) :
  (forall t t', t <= t' ->
     FuncResult.progress (func (self w) initialState t) <=
     FuncResult.progress (func (self w) initialState t')) ->
  0 <= interval (self w) ->
  Forall (eq initialState) (frames w) ->
  let evs := since w (run clocks w) in
  StronglySorted Qle (omap stored_progress evs) /\
  StronglySorted Qle (omap update_time evs).
Proof.
  intros Hmono Hi Hf evs.
  destruct (run_updates initialState clocks w Hf Hi) as (ts & Hm & Hsort & _).
  fold evs in Hm.
  rewrite omap_stored_progress, omap_update_time, Hm.
  rewrite <- !list_fmap_compose. split.
  - apply (StronglySorted_fmap _ Qle Qle); [|exact Hsort].
    intros t t' Ht. simpl. apply clamp_mono, Hmono, Ht.
  - apply (StronglySorted_fmap _ Qle Qle); [|exact Hsort].
    intros t t' Ht. exact Ht.
Qed.

(** ** The one-shot listener of [start] *)

Lemma action_spares_Subscribe (s name : nat) (body : FuncResult.t -> list action) :
  action_spares s (Subscribe name body) <->
  forall st, Forall (action_spares s) (body st).
Proof.
  simpl. split; intros H st; specialize (H st);
    induction (body st) as [|a l IH]; simpl in *.
  - constructor.
  - constructor; [tauto|apply IH; tauto].
  - exact I.
  - apply Forall_cons in H as (? & ?). auto.
Qed.

Section OneShot.

Variables (s p : nat).

#[local] Abbreviation silent := (fun evs => resolutions p evs = []).

Lemma one_shot_fired_app_l (st : FuncResult.t) (evs more : list event) :
  one_shot_fired s p st evs -> one_shot_fired s p st (evs ++ more).
Proof.
  intros (e1 & e2 & ->). exists e1, (e2 ++ more).
  rewrite <- !app_assoc. reflexivity.
Qed.

Lemma one_shot_fired_app_r (st : FuncResult.t) (before evs : list event) :
  one_shot_fired s p st evs -> one_shot_fired s p st (before ++ evs).
Proof.
  intros (e1 & e2 & ->). exists (before ++ e1), e2.
  rewrite <- !app_assoc. reflexivity.
Qed.

Lemma resolutions_app (evs1 evs2 : list event) :
  resolutions p (evs1 ++ evs2) = resolutions p evs1 ++ resolutions p evs2.
Proof. apply omap_app. Qed.

Lemma silent_trans (w1 w2 w3 : World) :
  grows w1 w2 -> grows w2 w3 ->
  silent (since w1 w2) -> silent (since w2 w3) -> silent (since w1 w3).
Proof.
  intros G1 G2 H1 H2. rewrite (since_trans _ _ _ G1 G2), resolutions_app, H1, H2.
  reflexivity.
Qed.

Lemma every_listener_subscribe (P : TAnimationIteratorListenerCallback -> Prop)
    (cb : TAnimationIteratorListenerCallback) (ls : slots) :
  P cb -> every_listener P ls -> every_listener P (subscribe_slots cb ls).
Proof.
  unfold every_listener, subscribe_slots. intros Hcb Hls.
  destruct (free_slot ls).
  - apply Forall_insert; assumption.
  - apply Forall_app. split; [assumption|]. repeat constructor. exact Hcb.
Qed.

Lemma armed_unsubscribe (i : nat) (ls : slots) :
  i <> s -> armed s p ls -> armed s p (<[i := None]> ls).
Proof.
  intros Hi (Hs & Ho). split.
  - rewrite list_lookup_insert_ne by exact Hi. exact Hs.
  - intros j l Hj Hl. destruct (decide (i = j)) as [->|Hne].
    + rewrite list_lookup_insert in Hl.
      destruct (decide _) as [_|Hn]; [discriminate|].
      apply lookup_lt_Some in Hl. exfalso. apply Hn. split; [reflexivity|exact Hl].
    + rewrite list_lookup_insert_ne in Hl by exact Hne. eauto.
Qed.

Lemma armed_subscribe (cb : TAnimationIteratorListenerCallback) (ls : slots) :
  spares s p cb -> armed s p ls -> armed s p (subscribe_slots cb ls).
Proof.
  intros Hcb (Hs & Ho).
  assert (Hne : s <> subscribe_slot ls).
  { intros ->. destruct (subscribe_slot_empty cb ls) as [(He & _)|(He & _)].
    - congruence.
    - rewrite He in Hs. rewrite lookup_ge_None_2 in Hs by lia. discriminate. }
  split.
  - rewrite subscribe_slots_other by exact Hne. exact Hs.
  - intros j l Hj Hl. destruct (decide (j = subscribe_slot ls)) as [->|Hj'].
    + rewrite subscribe_slots_lookup in Hl. injection Hl as <-. exact Hcb.
    + rewrite subscribe_slots_other in Hl by exact Hj'. eauto.
Qed.

#[local] Abbreviation kept := (Animation.kept s p).

Lemma kept_refl (w : World) : kept w w.
Proof.
  split; [apply grows_refl|]. rewrite since_refl. split; [reflexivity|]. auto.
Qed.

Lemma kept_trans (w1 w2 w3 : World) : kept w1 w2 -> kept w2 w3 -> kept w1 w3.
Proof.
  intros (G1 & S1 & A1 & D1) (G2 & S2 & A2 & D2).
  split; [eapply grows_trans; eassumption|].
  split; [eapply silent_trans; eassumption|]. auto.
Qed.

Lemma kept_record (e : event) (w : World) :
  resolution p e = None -> kept w (record e w).
Proof.
  intros He. split; [apply record_grows|]. rewrite record_since.
  split; [unfold resolutions; simpl; rewrite He; reflexivity|]. auto.
Qed.

Lemma kept_unsubscribe (i : nat) (w : World) : i <> s -> kept w (unsubscribe i w).
Proof.
  intros Hi. split; [eapply grows_intro; reflexivity|].
  rewrite unsubscribe_since. split; [reflexivity|].
  rewrite listeners_unsubscribe. split.
  - apply armed_unsubscribe. exact Hi.
  - apply every_listener_insert_None.
Qed.

Lemma kept_subscribe (cb : TAnimationIteratorListenerCallback) (w : World) :
  spares s p cb -> kept w (fst (subscribe cb w)).
Proof.
  intros Hcb. split; [eapply grows_intro; reflexivity|].
  rewrite subscribe_since. split; [reflexivity|].
  rewrite listeners_subscribe. split.
  - apply armed_subscribe. exact Hcb.
  - apply every_listener_subscribe. exact Hcb.
Qed.

Lemma kept_perform (a : action) (w : World) :
  action_spares s a -> kept w (perform w a).
Proof.
  destruct a as [name body|i]; intros Ha.
  - apply kept_subscribe. exact (proj1 (action_spares_Subscribe s name body) Ha).
  - apply kept_unsubscribe. exact Ha.
Qed.

Lemma kept_fold_perform (body : list action) :
  forall w, Forall (action_spares s) body -> kept w (fold_left perform body w).
Proof.
  induction body as [|a body IH]; intros w Hb; simpl.
  - apply kept_refl.
  - apply Forall_cons in Hb as (Ha & Hb).
    eapply kept_trans; [apply kept_perform; exact Ha|apply IH; exact Hb].
Qed.

Lemma kept_call (cb : TAnimationIteratorListenerCallback) (st : FuncResult.t)
    (w : World) :
  spares s p cb -> kept w (call cb st w).
Proof.
  destruct cb as [name body|s' p']; simpl.
  - intros Hb. apply kept_fold_perform, Hb.
  - intros (Hs & Hp). destruct (Qeq_bool (FuncResult.progress st) 1).
    + eapply kept_trans; [apply kept_unsubscribe; exact Hs|].
      apply kept_record. simpl.
      destruct (Nat.eqb_spec p' p); [contradiction|reflexivity].
    + apply kept_refl.
Qed.

(** A step of the pass at a slot whose listener, if any, spares [s]. *)
Lemma kept_visit (k : nat) (st : FuncResult.t) (w : World) :
  (forall l, listeners (self w) !! k = Some (Some l) -> spares s p (callback l)) ->
  kept w (visit k st w).
Proof.
  intros Hk. unfold visit.
  destruct (listeners (self w) !! k) as [[l|]|]; try apply kept_refl.
  apply (kept_trans _ (record (Notified k (callback l) st) w));
    [apply kept_record; reflexivity|].
  apply kept_call. apply Hk. reflexivity.
Qed.

Lemma kept_forEach_disarmed (st : FuncResult.t) (n : nat) :
  forall k w,
  disarmed s p (listeners (self w)) -> kept w (forEach_from k n st w).
Proof.
  induction n as [|n IH]; intros k w Hd; simpl.
  - apply kept_refl.
  - assert (Hv : kept w (visit k st w)).
    { apply kept_visit. intros l Hl. eapply every_listener_lookup; eassumption. }
    eapply kept_trans; [exact Hv|]. apply IH. apply Hv. exact Hd.
Qed.

(** A pass that does not reach slot [s], or whose state is not
    complete, keeps the one-shot listener in place. *)
Lemma kept_forEach_armed (st : FuncResult.t) (n : nat) :
  forall k w,
  armed s p (listeners (self w)) ->
  Qeq_bool (FuncResult.progress st) 1 = false \/ ~ (k <= s < k + n)%nat ->
  kept w (forEach_from k n st w).
Proof.
  induction n as [|n IH]; intros k w Ha Hc; simpl.
  - apply kept_refl.
  - assert (Hv : kept w (visit k st w)).
    { destruct (decide (k = s)) as [->|Hks].
      - destruct Hc as [Hc|Hc]; [|lia].
        unfold visit. destruct Ha as (-> & _). simpl. rewrite Hc.
        apply kept_record. reflexivity.
      - apply kept_visit. intros l Hl. destruct Ha as (_ & Ho). eauto. }
    eapply kept_trans; [exact Hv|]. apply IH.
    + apply Hv. exact Ha.
    + destruct Hc as [Hc|Hc]; [left; exact Hc|right; lia].
Qed.

Lemma forEach_from_app (st : FuncResult.t) (n m : nat) :
  forall k w,
  forEach_from k (n + m) st w = forEach_from (k + n) m st (forEach_from k n st w).
Proof.
  induction n as [|n IH]; intros k w; simpl.
  - rewrite Nat.add_0_r. reflexivity.
  - rewrite IH. f_equal. lia.
Qed.

(** The pass of a complete state over an armed registry: the one-shot
    listener is called once, clears its slot and resolves its promise
    with the state of the pass. *)
Lemma notify_armed_complete (st : FuncResult.t) (w : World) :
  armed s p (listeners (self w)) ->
  Qeq_bool (FuncResult.progress st) 1 = true ->
  grows w (notify st w) /\
  resolutions p (since w (notify st w)) = [st] /\
  disarmed s p (listeners (self (notify st w))) /\
  Notified s (StartCallback s p) st ∈ since w (notify st w) /\
  one_shot_fired s p st (since w (notify st w)).
Proof.
  intros Ha Hq. unfold notify.
  assert (Hlen : (s < length (listeners (self w)))%nat).
  { destruct Ha as (Hs & _). apply lookup_lt_Some in Hs. exact Hs. }
  replace (length (listeners (self w))) with (s + S (length (listeners (self w)) - S s))%nat
    by lia.
  rewrite forEach_from_app. simpl.
  set (m := (length (listeners (self w)) - S s)%nat).
  set (w1 := forEach_from 0 s st w).
  assert (K1 : kept w w1).
  { apply kept_forEach_armed; [exact Ha|right; lia]. }
  destruct K1 as (G1 & S1 & A1 & _). specialize (A1 Ha).
  set (w2 := visit s st w1).
  assert (V : grows w1 w2 /\ resolutions p (since w1 w2) = [st] /\
              disarmed s p (listeners (self w2)) /\
              Notified s (StartCallback s p) st ∈ since w1 w2 /\
              since w1 w2 =
                [Notified s (StartCallback s p) st; Unsubscribed s; Resolved p st]).
  { unfold w2, visit. destruct A1 as (Hs & Ho). rewrite Hs. simpl. rewrite Hq.
    set (w1' := record (Notified s (StartCallback s p) st) w1).
    assert (Hlog : log (resolve p st (unsubscribe s w1')) =
                   log w1 ++ [Notified s (StartCallback s p) st; Unsubscribed s;
                              Resolved p st]).
    { simpl. rewrite <- !app_assoc. reflexivity. }
    split; [|split; [|split; [|split]]]; [| | | |exact (since_app _ _ _ Hlog)].
    - eapply grows_intro. exact Hlog.
    - rewrite (since_app _ _ _ Hlog).
      unfold resolutions. simpl. rewrite Nat.eqb_refl. reflexivity.
    - change (listeners (self (resolve p st (unsubscribe s w1'))))
        with (<[s := None]> (listeners (self w1))).
      unfold disarmed, every_listener. apply Forall_lookup. intros j x Hj.
      destruct x as [l|]; [|exact I].
      destruct (decide (s = j)) as [->|Hne].
      + rewrite list_lookup_insert in Hj.
        destruct (decide _) as [_|Hn]; [discriminate|].
        apply lookup_lt_Some in Hj. exfalso. apply Hn. split; [reflexivity|exact Hj].
      + rewrite list_lookup_insert_ne in Hj by exact Hne. apply (Ho j l); [congruence|exact Hj].
    - rewrite (since_app _ _ _ Hlog). apply elem_of_cons. left. reflexivity. }
  destruct V as (G2 & S2 & D2 & N2 & E2).
  assert (K3 : kept w2 (forEach_from (S s) m st w2))
    by (apply kept_forEach_disarmed; exact D2).
  destruct K3 as (G3 & S3 & _ & D3).
  split; [eapply grows_trans; [exact G1|eapply grows_trans; eassumption]|].
  split; [|split; [|split]].
  - rewrite (since_trans w w1 _ G1 (grows_trans _ _ _ G2 G3)).
    rewrite (since_trans w1 w2 _ G2 G3).
    rewrite !resolutions_app, S1, S2, S3. reflexivity.
  - apply D3, D2.
  - apply (since_elem_of_r w w1); [exact G1|eapply grows_trans; eassumption|].
    apply (since_elem_of_l w1 w2); assumption.
  - exists (since w w1), (since w2 (forEach_from (S s) m st w2)).
    rewrite (since_trans w w1 _ G1 (grows_trans _ _ _ G2 G3)).
    rewrite (since_trans w1 w2 _ G2 G3), E2. reflexivity.
Qed.

Lemma resolutions_one (e : event) :
  resolution p e = None -> resolutions p [e] = [].
Proof. intros H. unfold resolutions. simpl. rewrite H. reflexivity. Qed.

(** An accepted tick whose state is not complete: the promise stays
    pending, the one-shot listener stays, the next frame is requested. *)
Lemma tick_armed_running (initialState : any) (now' : Q) (w : World) :
  armed s p (listeners (self w)) ->
  FuncResult.progress
    (func (self w) initialState (time (self w) + interval (self w))) < 1 ->
  resolutions p (since w (tick initialState now' w)) = [] /\
  armed s p (listeners (self (tick initialState now' w))) /\
  frames (tick initialState now' w) = frames w ++ [initialState].
Proof.
  intros Ha Hlt.
  assert (Hst : next_state initialState w =
                func (self w) initialState (time (self w) + interval (self w)))
    by (apply clamp_lt_1; exact Hlt).
  assert (Hq : Qeq_bool (FuncResult.progress (next_state initialState w)) 1 = false).
  { rewrite Hst. destruct (Qeq_bool _ 1) eqn:E; [|reflexivity].
    apply Qeq_bool_eq in E. rewrite E in Hlt. exfalso. apply (Qlt_irrefl 1 Hlt). }
  assert (Hl : Qle_bool 1 (FuncResult.progress (next_state initialState w)) = false).
  { rewrite Hst. apply Qle_bool_false. exact Hlt. }
  destruct (kept_forEach_armed (next_state initialState w)
              (length (listeners (self (advanced initialState now' w)))) 0
              (advanced initialState now' w) Ha (or_introl Hq))
    as (_ & S1 & A1 & _).
  split; [|split].
  - rewrite tick_since. cbv zeta. rewrite Hl.
    change (?x :: ?l ++ ?r) with ([x] ++ l ++ r).
    rewrite !resolutions_app. unfold notify. rewrite S1. reflexivity.
  - rewrite tick_listeners. apply A1. exact Ha.
  - rewrite tick_frames, Hl. reflexivity.
Qed.

(** The accepted tick whose state is complete: the promise is resolved,
    once, with the state every listener of this pass was called with;
    its progress is exactly 1; no frame is requested. *)
Lemma tick_armed_complete (initialState : any) (now' : Q) (w : World) :
  armed s p (listeners (self w)) ->
  1 <= FuncResult.progress
         (func (self w) initialState (time (self w) + interval (self w))) ->
  let st := next_state initialState w in
  resolutions p (since w (tick initialState now' w)) = [st] /\
  FuncResult.progress st = 1 /\
  disarmed s p (listeners (self (tick initialState now' w))) /\
  frames (tick initialState now' w) = frames w /\
  last (omap notified_state (since w (tick initialState now' w))) = Some st /\
  progress (self (tick initialState now' w)) = 1 /\
  one_shot_fired s p st (since w (tick initialState now' w)).
Proof.
  intros Ha Hge st.
  assert (Hp : FuncResult.progress st = 1) by (apply clamp_ge_1; exact Hge).
  assert (Hq : Qeq_bool (FuncResult.progress st) 1 = true) by (rewrite Hp; reflexivity).
  assert (Hl : Qle_bool 1 (FuncResult.progress st) = true) by (rewrite Hp; reflexivity).
  destruct (notify_armed_complete st (advanced initialState now' w) Ha Hq)
    as (G & R & D & N & O).
  split; [|split; [exact Hp|split; [|split; [|split; [|split]]]]].
  - rewrite tick_since. cbv zeta. fold st. rewrite Hl, app_nil_r.
    change (?x :: ?l) with ([x] ++ l).
    rewrite resolutions_app, R. reflexivity.
  - rewrite tick_listeners. exact D.
  - rewrite tick_frames. fold st. rewrite Hl. apply app_nil_r.
  - rewrite tick_since. cbv zeta. fold st. rewrite Hl, app_nil_r.
    change (last (omap notified_state
                    (since (advanced initialState now' w)
                       (notify st (advanced initialState now' w)))) = Some st).
    destruct (notify_extends st (advanced initialState now' w)) as (_ & _ & _ & F).
    assert (Hall : Forall (eq st)
                     (omap notified_state
                        (since (advanced initialState now' w)
                           (notify st (advanced initialState now' w))))).
    { eapply pass_event_states. exact F. }
    assert (Hin : st ∈ omap notified_state
                     (since (advanced initialState now' w)
                        (notify st (advanced initialState now' w)))).
    { apply list_elem_of_omap. eexists. split; [exact N|reflexivity]. }
    destruct (last _) as [x|] eqn:E.
    + f_equal. rewrite Forall_forall in Hall. symmetry. apply Hall.
      eapply last_Some_elem_of. exact E.
    + apply last_None in E. rewrite E in Hin. inversion Hin.
  - destruct (tick_fields initialState now' w) as (_ & _ & _ & _ & _ & Hpr).
    rewrite Hpr. exact Hp.
  - rewrite tick_since. cbv zeta. fold st. rewrite Hl, app_nil_r.
    apply (one_shot_fired_app_r st [_]). exact O.
Qed.

End OneShot.

(** ** From [start] to completion *)

Lemma run_idle (clocks : list (Q * Q)) (w : World) :
  frames w = [] -> run clocks w = w.
Proof.
  intros Hf. induction clocks as [|c clocks IH]; [reflexivity|].
  change (run (c :: clocks) w) with (run clocks (frame c w)).
  unfold frame. rewrite Hf. exact IH.
Qed.

Lemma ticks_app (evs1 evs2 : list event) :
  ticks (evs1 ++ evs2) = (ticks evs1 + ticks evs2)%nat.
Proof. unfold ticks. rewrite omap_app, length_app. reflexivity. Qed.

Lemma ticks_tick (initialState : any) (now' : Q) (w : World) :
  ticks (since w (tick initialState now' w)) = 1%nat.
Proof. unfold ticks. rewrite omap_update_time, tick_updated. reflexivity. Qed.

Lemma omap_update_state (evs : list event) :
  omap update_state evs = snd <$> omap updated evs.
Proof.
  induction evs as [|e evs IH]; [reflexivity|].
  destruct e; simpl; try exact IH. f_equal. exact IH.
Qed.

Lemma tick_update_state (initialState : any) (now' : Q) (w : World) :
  omap update_state (since w (tick initialState now' w)) = [next_state initialState w].
Proof. rewrite omap_update_state, tick_updated. reflexivity. Qed.

Lemma disarmed_gone (s p : nat) (ls : slots) (j : nat) :
  disarmed s p ls -> ls !! j <> Some (Some {| callback := StartCallback s p |}).
Proof.
  intros D H. apply (every_listener_lookup _ _ _ _ D) in H. simpl in H. tauto.
Qed.

Section Completion.

Variables (s p : nat) (initialState : any).

(** A run from an armed world with one pending frame.  As long as
    every update stays below 1 the promise is pending, the one-shot
    listener is in its slot and the frame is pending; the first update
    that reaches 1 is the last: the promise is resolved, once, with
    the state of that pass, the one-shot listener is gone and nothing
    is pending. *)
Lemma run_armed (clocks : list (Q * Q)) :
  forall w : World,
  armed s p (listeners (self w)) ->
  frames w = [initialState] ->
  let w' := run clocks w in
  (Forall (fun st => FuncResult.progress st < 1) (omap update_state (since w w')) /\
   resolutions p (since w w') = [] /\
   frames w' = [initialState] /\
   armed s p (listeners (self w'))) \/
  (exists before final,
     omap update_state (since w w') = before ++ [final] /\
     Forall (fun st => FuncResult.progress st < 1) before /\
     FuncResult.progress final = 1 /\
     resolutions p (since w w') = [final] /\
     last (omap notified_state (since w w')) = Some final /\
     frames w' = [] /\
     progress (self w') = 1 /\
     one_shot_fired s p final (since w w') /\
     disarmed s p (listeners (self w'))).
Proof.
  induction clocks as [|c clocks IH]; intros w Ha Hf w'.
  - left. unfold w'. simpl. rewrite since_refl.
    split; [constructor|]. split; [reflexivity|]. split; [exact Hf|exact Ha].
  - unfold w'. change (run (c :: clocks) w) with (run clocks (frame c w)).
    unfold frame. rewrite Hf.
    set (w0 := {| self := self w; frames := []; promises := promises w; log := log w |}).
    assert (Hs : forall x, since w x = since w0 x) by reflexivity.
    rewrite !Hs. unfold next. destruct (tick_due (fst c) (self w0)).
    + set (w1 := tick initialState (snd c) w0).
      assert (U1 : omap update_state (since w0 w1) = [next_state initialState w0])
        by apply tick_update_state.
      destruct (Qlt_le_dec
                  (FuncResult.progress
                     (func (self w0) initialState
                        (time (self w0) + interval (self w0)))) 1) as [Hlt|Hge].
      * destruct (tick_armed_running s p initialState (snd c) w0 Ha Hlt)
          as (R1 & A1 & F1).
        fold w1 in R1, A1, F1.
        assert (B1 : FuncResult.progress (next_state initialState w0) < 1).
        { unfold next_state. rewrite (clamp_lt_1 _ Hlt). exact Hlt. }
        assert (G1 : grows w0 w1) by apply tick_grows.
        assert (G2 : grows w1 (run clocks w1)) by apply run_grows.
        rewrite (since_trans _ _ _ G1 G2), omap_app, resolutions_app, U1, R1.
        destruct (IH w1 A1 F1)
          as [(B & R & F & A)|(before & final & U & B & P1 & R & L & F & P & O & D)].
        -- left. split; [constructor; assumption|]. split; [exact R|].
           split; [exact F|exact A].
        -- right. exists (next_state initialState w0 :: before), final.
           rewrite U. split; [reflexivity|]. split; [constructor; assumption|].
           split; [exact P1|]. split; [exact R|].
           split; [rewrite omap_app; apply last_app_Some; left; exact L|].
           split; [exact F|]. split; [exact P|].
           split; [apply one_shot_fired_app_r; exact O|exact D].
      * destruct (tick_armed_complete s p initialState (snd c) w0 Ha Hge)
          as (R & P1 & D & F & L & P & O).
        fold w1 in R, D, F, L, P, O.
        rewrite (run_idle clocks w1 F). right.
        exists [], (next_state initialState w0).
        split; [exact U1|]. split; [constructor|]. split; [exact P1|].
        split; [exact R|]. split; [exact L|]. split; [exact F|].
        split; [exact P|]. split; [exact O|exact D].
    + set (w1 := requestAnimationFrame initialState w0).
      assert (G1 : grows w0 w1) by (eapply grows_intro; reflexivity).
      assert (G2 : grows w1 (run clocks w1)) by apply run_grows.
      assert (E1 : since w0 w1 = [FrameRequested initialState])
        by apply requestAnimationFrame_since.
      rewrite (since_trans _ _ _ G1 G2), omap_app, resolutions_app, E1.
      destruct (IH w1 Ha eq_refl)
        as [(B & R & F & A)|(before & final & U & B & P1 & R & L & F & P & O & D)].
      * left. split; [exact B|]. split; [exact R|]. split; [exact F|exact A].
      * right. exists before, final.
        split; [exact U|]. split; [exact B|]. split; [exact P1|]. split; [exact R|].
        split; [rewrite omap_app; apply last_app_Some; left; exact L|].
        split; [exact F|]. split; [exact P|].
        split; [apply one_shot_fired_app_r; exact O|exact D].
Qed.

(** Frames that come [period] milliseconds apart, [1000 / rate] or
    more, are all accepted: [n] of them give [n] ticks, unless the
    promise is resolved before. *)
Lemma run_punctual (period : Q) (n : nat) :
  forall w : World,
  armed s p (listeners (self w)) ->
  frames w = [initialState] ->
  0 < rate (self w) ->
  1000 / rate (self w) <= period ->
  let w' := run (punctual n (lastTick (self w)) period) w in
  ticks (since w w') = n \/ resolutions p (since w w') <> [].
Proof.
  induction n as [|n IH]; intros w Ha Hf Hrate Hperiod w'.
  - left. unfold w'. simpl. rewrite since_refl. reflexivity.
  - unfold w'.
    change (punctual (S n) (lastTick (self w)) period)
      with ((lastTick (self w) + period, lastTick (self w) + period) ::
            punctual n (lastTick (self w) + period) period).
    change (run (?c :: ?cs) w) with (run cs (frame c w)).
    unfold frame. rewrite Hf.
    set (w0 := {| self := self w; frames := []; promises := promises w; log := log w |}).
    assert (Hs : forall x, since w x = since w0 x) by reflexivity.
    rewrite !Hs. unfold next. rewrite (proj2 (tick_due_true _ _)).
    + simpl fst. simpl snd.
      set (w1 := tick initialState (lastTick (self w) + period) w0).
      assert (G1 : grows w0 w1) by apply tick_grows.
      rewrite (since_trans _ _ _ G1 (run_grows _ _)), ticks_app, resolutions_app.
      destruct (Qlt_le_dec
                  (FuncResult.progress
                     (func (self w0) initialState
                        (time (self w0) + interval (self w0)))) 1) as [Hlt|Hge].
      * destruct (tick_armed_running s p initialState
                    (lastTick (self w) + period) w0 Ha Hlt)
          as (R1 & A1 & F1).
        destruct (tick_fields initialState (lastTick (self w) + period) w0)
          as (_ & _ & Hr & _ & Hl & _).
        fold w1 in R1, A1, F1, Hr, Hl.
        assert (Hp : punctual n (lastTick (self w) + period) period =
                     punctual n (lastTick (self w1)) period)
          by (rewrite Hl; reflexivity).
        rewrite Hp. unfold w1 at 1 3. rewrite ticks_tick, R1. fold w1.
        destruct (IH w1 A1 F1) as [T|R];
          [rewrite Hr; exact Hrate|rewrite Hr; exact Hperiod| |].
        -- left. rewrite T. reflexivity.
        -- right. exact R.
      * destruct (tick_armed_complete s p initialState
                    (lastTick (self w) + period) w0 Ha Hge) as (R & _).
        fold w1 in R. right. rewrite R. discriminate.
    + simpl. split; [intros H0; rewrite H0 in Hrate; apply (Qlt_irrefl 0 Hrate)|].
      change (rate (self w0)) with (rate (self w)). lra.
Qed.

End Completion.

Lemma start_armed (initialState : any) (w : World) :
  let s := subscribe_slot (listeners (self w)) in
  let p := snd (start initialState w) in
  every_listener (spares s p) (listeners (self w)) ->
  armed s p (listeners (self (fst (start initialState w)))).
Proof.
  intros s p Hsp.
  change (listeners (self (fst (start initialState w))))
    with (subscribe_slots (StartCallback s p) (listeners (self w))).
  split.
  - apply subscribe_slots_lookup.
  - intros j l Hj Hl. rewrite subscribe_slots_other in Hl by exact Hj.
    eapply every_listener_lookup; eassumption.
Qed.

(** C1 (amended). [start] on an iterator with no frame pending, whose
    listeners leave the one-shot listener of this [start] alone
    (a listener that clears its slot before it is called leaves the
    promise pending for ever).  However the frames are timed,
    [resolve] of the returned promise is never called twice.  As long
    as every update stayed below 1 the promise is pending, the frame is
    pending and the one-shot listener is in its slot.  The first
    update that reaches 1 is the last of the run: [resolve] has been
    called exactly once, with the clamped state of that update, which
    is the state of the last notification pass and has progress
    exactly 1, right after the one-shot listener cleared its own slot;
    the one-shot listener is in no slot any more and no frame is
    pending.  For a positive rate and every [n] there are frame times
    after which [n] ticks were accepted unless the promise was
    resolved before: an update function that reaches 1 within [n]
    accepted ticks gets its promise resolved. *)
Theorem start_resolves_once (w0 : World) (initialState : any) (clocks : list (Q * Q)) :
  let s := subscribe_slot (listeners (self w0)) in
  let p := snd (start initialState w0) in
  let w1 := fst (start initialState w0) in
  let w' := run clocks w1 in
  let evs := since w0 w' in
  frames w0 = [] ->
  every_listener (spares s p) (listeners (self w0)) ->
  (length (resolutions p evs) <= 1)%nat /\
  ((Forall (fun st => FuncResult.progress st < 1) (omap update_state evs) /\
    resolutions p evs = [] /\
    frames w' = [initialState] /\
    listeners (self w') !! s = Some (Some {| callback := StartCallback s p |})) \/
   (exists before final,
      omap update_state evs = before ++ [final] /\
      Forall (fun st => FuncResult.progress st < 1) before /\
      FuncResult.progress final = 1 /\
      resolutions p evs = [final] /\
      last (omap notified_state evs) = Some final /\
      frames w' = [] /\
      progress (self w') = 1 /\
      one_shot_fired s p final evs /\
      forall j, listeners (self w') !! j <>
                Some (Some {| callback := StartCallback s p |}))) /\
  (0 < rate (self w0) ->
   forall n, exists clocks',
     (n <= ticks (since w0 (run clocks' w1)))%nat \/
     exists final, resolutions p (since w0 (run clocks' w1)) = [final]).
Proof.
  intros s p w1 w' evs Hidle Hsp.
  assert (Ha : armed s p (listeners (self w1))) by (apply start_armed; exact Hsp).
  assert (Hf : frames w1 = [initialState]) by (unfold w1; simpl; rewrite Hidle; reflexivity).
  assert (G1 : grows w0 w1).
  { apply (grows_intro w0 w1 [FrameRequested initialState;
                               Subscribed s (StartCallback s p)]).
    unfold w1. simpl. rewrite <- app_assoc. reflexivity. }
  assert (E1 : since w0 w1 = [FrameRequested initialState;
                              Subscribed s (StartCallback s p)]).
  { apply since_app. unfold w1. simpl. rewrite <- app_assoc. reflexivity. }
  assert (Hsplit : forall cs, since w0 (run cs w1) =
                     [FrameRequested initialState; Subscribed s (StartCallback s p)] ++
                     since w1 (run cs w1)).
  { intros cs. rewrite (since_trans _ _ _ G1 (run_grows cs w1)), E1. reflexivity. }
  assert (Hcases : forall cs,
    (Forall (fun st => FuncResult.progress st < 1)
       (omap update_state (since w0 (run cs w1))) /\
     resolutions p (since w0 (run cs w1)) = [] /\
     frames (run cs w1) = [initialState] /\
     listeners (self (run cs w1)) !! s =
       Some (Some {| callback := StartCallback s p |})) \/
    (exists before final,
       omap update_state (since w0 (run cs w1)) = before ++ [final] /\
       Forall (fun st => FuncResult.progress st < 1) before /\
       FuncResult.progress final = 1 /\
       resolutions p (since w0 (run cs w1)) = [final] /\
       last (omap notified_state (since w0 (run cs w1))) = Some final /\
       frames (run cs w1) = [] /\
       progress (self (run cs w1)) = 1 /\
       one_shot_fired s p final (since w0 (run cs w1)) /\
       forall j, listeners (self (run cs w1)) !! j <>
                 Some (Some {| callback := StartCallback s p |}))).
  { intros cs. rewrite Hsplit.
    destruct (run_armed s p initialState cs w1 Ha Hf)
      as [(B & R & F & A)|(before & final & U & B & P1 & R & L & F & P & O & D)];
      [left|right].
    - rewrite omap_app, resolutions_app, R.
      split; [exact B|]. split; [reflexivity|]. split; [exact F|]. apply A.
    - exists before, final. rewrite !omap_app, resolutions_app, R.
      split; [exact U|]. split; [exact B|]. split; [exact P1|].
      split; [reflexivity|].
      split; [apply last_app_Some; left; exact L|].
      split; [exact F|]. split; [exact P|].
      split; [apply one_shot_fired_app_r; exact O|].
      intros j. apply disarmed_gone. exact D. }
  split; [|split; [exact (Hcases clocks)|]].
  - destruct (Hcases clocks) as [(_ & R & _)|(before & final & _ & _ & _ & R & _)];
      fold w' evs in R; rewrite R; simpl; lia.
  - intros Hrate n.
    assert (Hperiod : 1000 / rate (self w1) <= 1000 / rate (self w1) + 1) by lra.
    exists (punctual n (lastTick (self w1)) (1000 / rate (self w1) + 1)).
    destruct (run_punctual s p initialState (1000 / rate (self w1) + 1) n w1
                Ha Hf Hrate Hperiod) as [T|R].
    + left. rewrite Hsplit, ticks_app, T. simpl. lia.
    + right.
      destruct (Hcases (punctual n (lastTick (self w1)) (1000 / rate (self w1) + 1)))
        as [(_ & R0 & _)|(before & final & _ & _ & _ & R1 & _)].
      * exfalso. rewrite Hsplit, resolutions_app in R0. apply R. exact R0.
      * exists final. exact R1.
Qed.

(** ** [resetAll] and a new iterator *)

(** Every operation does to a world that is continued what it does to
    the world itself. *)
Section Renumbering.

Variables (d : nat) (before : list event).

#[local] Abbreviation later := (continued d before).

Lemma continued_record (e : event) (w : World) :
  record (renumber_event d e) (later w) = later (record e w).
Proof.
  unfold continued, record. simpl. rewrite fmap_app, app_assoc. reflexivity.
Qed.

Lemma free_slot_renumber (ls : slots) :
  free_slot (renumber_slots d ls) = free_slot ls.
Proof.
  induction ls as [|[l|] ls IH]; [reflexivity| |reflexivity].
  change (free_slot (renumber_slots d (Some l :: ls)))
    with (S <$> free_slot (renumber_slots d ls)).
  rewrite IH. reflexivity.
Qed.

Lemma length_renumber (ls : slots) : length (renumber_slots d ls) = length ls.
Proof. apply length_fmap. Qed.

Lemma subscribe_slot_renumber (ls : slots) :
  subscribe_slot (renumber_slots d ls) = subscribe_slot ls.
Proof.
  unfold subscribe_slot. rewrite free_slot_renumber, length_renumber. reflexivity.
Qed.

Lemma subscribe_slots_renumber (cb : TAnimationIteratorListenerCallback) (ls : slots) :
  subscribe_slots (renumber_callback d cb) (renumber_slots d ls) =
  renumber_slots d (subscribe_slots cb ls).
Proof.
  unfold subscribe_slots. rewrite free_slot_renumber.
  destruct (free_slot ls) as [i|]; unfold renumber_slots.
  - rewrite list_fmap_insert. reflexivity.
  - rewrite fmap_app. reflexivity.
Qed.

Lemma continued_subscribe (cb : TAnimationIteratorListenerCallback) (w : World) :
  fst (subscribe (renumber_callback d cb) (later w)) = later (fst (subscribe cb w)) /\
  snd (subscribe (renumber_callback d cb) (later w)) = snd (subscribe cb w).
Proof.
  unfold subscribe. simpl. rewrite subscribe_slot_renumber, subscribe_slots_renumber.
  split; [|reflexivity].
  unfold continued, record, with_self. simpl.
  rewrite fmap_app, app_assoc. reflexivity.
Qed.

Lemma continued_unsubscribe (i : nat) (w : World) :
  unsubscribe i (later w) = later (unsubscribe i w).
Proof.
  unfold unsubscribe, continued, record, with_self, delete_listener. simpl.
  unfold renumber_slots. rewrite list_fmap_insert, fmap_app, app_assoc. reflexivity.
Qed.

Lemma continued_perform (a : action) (w : World) :
  perform (later w) a = later (perform w a).
Proof.
  destruct a as [name body|i]; cbn [perform].
  - apply (continued_subscribe (UserCallback name body)).
  - apply continued_unsubscribe.
Qed.

Lemma continued_fold_perform (body : list action) :
  forall w, fold_left perform body (later w) = later (fold_left perform body w).
Proof.
  induction body as [|a body IH]; intros w; [reflexivity|].
  simpl. rewrite continued_perform. apply IH.
Qed.

Lemma continued_call (cb : TAnimationIteratorListenerCallback) (st : FuncResult.t)
    (w : World) :
  call (renumber_callback d cb) st (later w) = later (call cb st w).
Proof.
  destruct cb as [name body|slot promise]; cbn [call renumber_callback].
  - apply continued_fold_perform.
  - destruct (Qeq_bool (FuncResult.progress st) 1); [|reflexivity].
    unfold resolve. rewrite continued_unsubscribe.
    apply (continued_record (Resolved promise st)).
Qed.

Lemma continued_visit (k : nat) (st : FuncResult.t) (w : World) :
  visit k st (later w) = later (visit k st w).
Proof.
  unfold visit.
  change (listeners (self (later w))) with (renumber_slots d (listeners (self w))).
  unfold renumber_slots. rewrite list_lookup_fmap.
  destruct (listeners (self w) !! k) as [[l|]|]; simpl; try reflexivity.
  rewrite <- continued_call. f_equal.
  apply (continued_record (Notified k (callback l) st)).
Qed.

Lemma continued_forEach_from (st : FuncResult.t) (n : nat) :
  forall k w, forEach_from k n st (later w) = later (forEach_from k n st w).
Proof.
  induction n as [|n IH]; intros k w; [reflexivity|].
  simpl. rewrite continued_visit. apply IH.
Qed.

Lemma continued_notify (st : FuncResult.t) (w : World) :
  notify st (later w) = later (notify st w).
Proof.
  unfold notify.
  change (listeners (self (later w))) with (renumber_slots d (listeners (self w))).
  rewrite length_renumber. apply continued_forEach_from.
Qed.

Lemma continued_requestAnimationFrame (i : any) (w : World) :
  requestAnimationFrame i (later w) = later (requestAnimationFrame i w).
Proof.
  unfold requestAnimationFrame, continued, record. simpl.
  rewrite fmap_app, app_assoc. reflexivity.
Qed.

Lemma continued_advanced (i : any) (now' : Q) (w : World) :
  advanced i now' (later w) = later (advanced i now' w).
Proof.
  unfold advanced, continued, record, with_self. simpl.
  rewrite fmap_app, app_assoc. reflexivity.
Qed.

Lemma continued_tick (i : any) (now' : Q) (w : World) :
  tick i now' (later w) = later (tick i now' w).
Proof.
  rewrite !tick_eq. cbv zeta.
  change (next_state i (later w)) with (next_state i w).
  rewrite continued_advanced, continued_notify.
  change (progress (self (later ?x))) with (progress (self x)).
  destruct (Qle_bool 1 _); [reflexivity|]. apply continued_requestAnimationFrame.
Qed.

Lemma continued_next (i : any) (now now' : Q) (w : World) :
  next i now now' (later w) = later (next i now now' w).
Proof.
  unfold next. change (tick_due now (self (later w))) with (tick_due now (self w)).
  destruct (tick_due now (self w));
    [apply continued_tick|apply continued_requestAnimationFrame].
Qed.

Lemma continued_frame (c : Q * Q) (w : World) :
  frame c (later w) = later (frame c w).
Proof.
  unfold frame. change (frames (later w)) with (frames w).
  destruct (frames w) as [|i rest]; [reflexivity|].
  apply (continued_next i (fst c) (snd c)
           {| self := self w; frames := rest; promises := promises w; log := log w |}).
Qed.

Lemma continued_run (clocks : list (Q * Q)) :
  forall w, run clocks (later w) = later (run clocks w).
Proof.
  induction clocks as [|c clocks IH]; intros w; [reflexivity|].
  change (run (c :: clocks) ?x) with (run clocks (frame c x)).
  rewrite continued_frame. apply IH.
Qed.

Lemma continued_start (i : any) (w : World) :
  fst (start i (later w)) = later (fst (start i w)).
Proof.
  unfold start. cbv zeta.
  set (w1 := requestAnimationFrame i
               {| self := self w; frames := frames w;
                  promises := S (promises w); log := log w |}).
  change (requestAnimationFrame i
            {| self := self (later w); frames := frames (later w);
               promises := S (promises (later w)); log := log (later w) |})
    with (requestAnimationFrame i (later {| self := self w; frames := frames w;
                   promises := S (promises w); log := log w |})).
  rewrite continued_requestAnimationFrame. fold w1.
  change (listeners (self (later w1))) with (renumber_slots d (listeners (self w1))).
  rewrite subscribe_slot_renumber.
  apply (continued_subscribe
           (StartCallback (subscribe_slot (listeners (self w1))) (promises w))).
Qed.

End Renumbering.

(** With no frame pending, the world after [resetAll] is the world of
    a new iterator, later. *)
Lemma resetAll_continued (w : World) :
  frames w = [] ->
  resetAll w = continued (promises w) (log w) (fresh (args (self w))).
Proof.
  intros Hf. destruct w as [it fr pr lg]. simpl in Hf. subst fr.
  unfold resetAll, resetListeners, reset, with_self, continued, fresh. simpl.
  rewrite app_nil_r. reflexivity.
Qed.

(** A frame that is pending when [resetAll] is called stays pending.
    Here [start] was called before, with the initial state [1/4];
    after [resetAll], [subscribe] and [start] the old frame callback
    runs as well: three ticks are accepted where a new iterator
    accepts two, the update function is called with the old initial
    state, and the listener is notified once more. *)
Lemma resetAll_with_a_frame_pending :
  let w := fst (start (Number (1 # 4)) (fresh Samples.two_ticks)) in
  let clocks := [(20, 20); (40, 40); (60, 60)] in
  let again :=
    run clocks (fst (start Null (fst (subscribe (Samples.quiet 7) (resetAll w))))) in
  let anew :=
    run clocks
      (fst (start Null (fst (subscribe (Samples.quiet 7) (fresh (args (self w))))))) in
  frames w = [Number (1 # 4)] /\
  ticks (since (resetAll w) again) = 3%nat /\
  ticks (log anew) = 2%nat /\
  omap (fun e => fst <$> (fst <$> updated e)) (since (resetAll w) again) =
    [Number (1 # 4); Null; Number (1 # 4)] /\
  omap notified_state (since (resetAll w) again) <>
  omap notified_state (log anew).
Proof.
  cbv zeta. split; [reflexivity|]. split; [vm_compute; reflexivity|].
  split; [vm_compute; reflexivity|]. split; [vm_compute; reflexivity|].
  vm_compute. discriminate.
Qed.

(** C8 (amended). [resetAll] reloads interval, rate and update function
    from the arguments of the constructor, each argument that was
    given as it was given and the default where it was omitted, sets
    progress, elapsed time and last tick to zero and empties the
    registry: the iterator is the one the constructor builds from
    these arguments; [reset] alone does the same and keeps the
    registry.  When no frame is pending, [subscribe] and [start]
    after [resetAll] and any run of frames go as they go for a new
    iterator: the two worlds are the same but for the events that
    happened before and the numbers of the promises, so the same
    frames are requested, the same updates made, the same listeners
    called with the same states and the promise resolved at the same
    point with the same state. *)
Theorem resetAll_like_new (w : World) (name : nat)
    (body : FuncResult.t -> list action) (initialState : any)
    (clocks : list (Q * Q)) :
  let a := args (self w) in
  let cb := UserCallback name body in
  let again :=
    run clocks (fst (start initialState (fst (subscribe cb (resetAll w))))) in
  let anew :=
    run clocks (fst (start initialState (fst (subscribe cb (fresh a))))) in
  (interval (self (resetAll w)) =
     match Args.interval a with Some x => x | None => DEFAULT_STEP_INTERVAL end /\
   rate (self (resetAll w)) =
     match Args.rate a with Some x => x | None => DEFAULT_FRAME_RATE end /\
   func (self (resetAll w)) =
     match Args.func a, Args.function a with
     | Some f, _ => f
     | None, Some f => f
     | None, None => DEFAULT_FUNC
     end /\
   progress (self (resetAll w)) = 0 /\
   time (self (resetAll w)) = 0 /\
   lastTick (self (resetAll w)) = 0 /\
   listeners (self (resetAll w)) = [] /\
   self (resetAll w) = self (fresh a)) /\
  self (reset w) = with_listeners (listeners (self w)) (self (fresh a)) /\
  (frames w = [] ->
   again = continued (promises w) (log w) anew /\
   frames again = frames anew /\
   progress (self again) = progress (self anew) /\
   since (resetAll w) again = renumber_event (promises w) <$> log anew).
Proof.
  intros a cb again anew. split; [|split].
  - unfold a.
    split; [change (interval (self (resetAll w)))
              with (conditionalDefault (Args.interval (args (self w)))
                      DEFAULT_STEP_INTERVAL);
            destruct (Args.interval (args (self w))); reflexivity|].
    split; [change (rate (self (resetAll w)))
              with (conditionalDefault (Args.rate (args (self w))) DEFAULT_FRAME_RATE);
            destruct (Args.rate (args (self w))); reflexivity|].
    split; [change (func (self (resetAll w)))
              with (conditionalDefault
                      (or_else (Args.func (args (self w)))
                         (Args.function (args (self w)))) DEFAULT_FUNC);
            destruct (Args.func (args (self w))), (Args.function (args (self w)));
            reflexivity|].
    repeat split.
  - reflexivity.
  - intros Hf.
    assert (H : again = continued (promises w) (log w) anew).
    { unfold again, anew. rewrite (resetAll_continued w Hf). fold a.
      pose proof (proj1 (continued_subscribe (promises w) (log w) cb (fresh a))) as Hs.
      change (renumber_callback (promises w) cb) with cb in Hs.
      rewrite Hs, continued_start. apply continued_run. }
    split; [exact H|]. rewrite H. split; [reflexivity|]. split; [reflexivity|].
    apply since_app. reflexivity.
Qed.

(** ** The theorems at sample iterators *)

Lemma next_too_early_witness :
  let w := fresh Samples.no_args in
  (rate (self w) == 0 \/ 5 - lastTick (self w) < 1000 / rate (self w)) /\
  next Null 5 5 w =
  {| self := self w; frames := frames w ++ [Null]; promises := promises w;
     log := log w ++ [FrameRequested Null] |}.
Proof.
  assert (H : rate (self (fresh Samples.no_args)) == 0 \/
              5 - lastTick (self (fresh Samples.no_args)) <
              1000 / rate (self (fresh Samples.no_args))).
  { right. reflexivity. }
  split; [exact H|]. apply (next_too_early Null 5 5 (fresh Samples.no_args) H).
Defined.

Lemma notified_progress_clamped_witness :
  let w := Samples.watched Samples.overshoot in
  Notified 0 (Samples.quiet 7) Samples.complete ∈ since w (next Null 20 20 w) /\
  FuncResult.progress
    (func (self w) Null (time (self w) + interval (self w))) == 3 # 2 /\
  FuncResult.progress Samples.complete <= 1.
Proof.
  assert (H : Notified 0 (Samples.quiet 7) Samples.complete
                ∈ since (Samples.watched Samples.overshoot)
                    (next Null 20 20 (Samples.watched Samples.overshoot))).
  { vm_compute. apply list_elem_of_further, list_elem_of_here. }
  split; [exact H|]. split; [reflexivity|].
  apply (notified_progress_clamped Null 20 20 (Samples.watched Samples.overshoot)
           0 (Samples.quiet 7) Samples.complete H).
Defined.


Lemma unsubscribe_during_pass_witness :
  let w := Samples.with_remover in
  every_listener unsubscribing (listeners (self w)) /\
  omap notification (since w (tick Null 17 w)) =
    survivors 0 3 (listeners (self w)) ∅ (next_state Null w) /\
  survivors 0 3 (listeners (self w)) ∅ (next_state Null w) =
    [(0%nat, Samples.remover 0 [1; 0]%nat); (2%nat, Samples.quiet 2)].
Proof.
  assert (H : every_listener unsubscribing (listeners (self Samples.with_remover))).
  { repeat constructor; eexists; reflexivity. }
  split; [exact H|].
  split; [|vm_compute; reflexivity].
  apply (unsubscribe_during_pass Null 17 Samples.with_remover H).
Defined.


Lemma progress_monotone_witness :
  let w := fst (start Null (fresh Samples.two_ticks)) in
  0 <= interval (self w) /\
  Forall (eq Null) (frames w) /\
  omap stored_progress (since w (run [(20, 20); (40, 40)] w)) = [1 # 2; 1] /\
  StronglySorted Qle (omap stored_progress (since w (run [(20, 20); (40, 40)] w))).
Proof.
  assert (Hm : forall t t', t <= t' ->
            FuncResult.progress
              (func (self (fst (start Null (fresh Samples.two_ticks)))) Null t) <=
            FuncResult.progress
              (func (self (fst (start Null (fresh Samples.two_ticks)))) Null t')).
  { intros t t' Ht. exact Ht. }
  assert (Hi : 0 <= interval (self (fst (start Null (fresh Samples.two_ticks))))).
  { vm_compute. discriminate. }
  assert (Hf : Forall (eq Null) (frames (fst (start Null (fresh Samples.two_ticks))))).
  { repeat constructor. }
  split; [exact Hi|]. split; [exact Hf|]. split; [vm_compute; reflexivity|].
  apply (progress_monotone (fst (start Null (fresh Samples.two_ticks))) Null
           [(20, 20); (40, 40)] Hm Hi Hf).
Defined.

Lemma first_tick_accepted_witness :
  let w := Samples.watched Samples.no_args in
  0 < rate (self w) /\
  1000 / rate (self w) <= 17 /\
  next Null 17 18 w = tick Null 18 w /\
  lastTick (self (next Null 17 18 w)) = 18 /\
  Notified 0 (Samples.quiet 7) (next_state Null w) ∈ since w (next Null 17 18 w).
Proof.
  assert (Hr : 0 < rate (self (Samples.watched Samples.no_args))) by reflexivity.
  assert (Hn : 1000 / rate (self (Samples.watched Samples.no_args)) <= 17).
  { vm_compute. discriminate. }
  destruct (first_tick_accepted (Samples.watched Samples.no_args)
              (with_listeners (listeners (self (Samples.watched Samples.no_args)))
                 (field_initialisers Samples.no_args))
              Null 17 18 eq_refl Hr Hn) as (_ & H1 & _ & H2 & _ & H3).
  split; [exact Hr|]. split; [exact Hn|]. split; [exact H1|]. split; [exact H2|].
  apply H3. reflexivity.
Defined.

Lemma start_resolves_once_witness :
  let w0 := Samples.watched Samples.two_ticks in
  let w' := run [(20, 20); (40, 40)] (fst (start Null w0)) in
  frames w0 = [] /\
  every_listener (spares 1 0) (listeners (self w0)) /\
  omap stored_progress (since w0 w') = [1 # 2; 1] /\
  resolutions 0 (since w0 w') = [Samples.complete] /\
  frames w' = [] /\
  listeners (self w') !! 1%nat = Some None.
Proof.
  assert (Hs : every_listener (spares 1 0)
                 (listeners (self (Samples.watched Samples.two_ticks)))).
  { repeat constructor. }
  destruct (start_resolves_once (Samples.watched Samples.two_ticks) Null
              [(20, 20); (40, 40)] eq_refl Hs)
    as (_ & [(_ & R & _)|(before & final & _ & _ & _ & R & _ & F & _)] & _).
  - exfalso. vm_compute in R. discriminate R.
  - split; [reflexivity|]. split; [exact Hs|]. split; [vm_compute; reflexivity|].
    split; [vm_compute; reflexivity|]. split; [exact F|]. vm_compute. reflexivity.
Defined.

Lemma resetAll_like_new_witness :
  let w := run [(20, 20); (40, 40)] (fst (start Null (Samples.watched Samples.two_ticks))) in
  let again :=
    run [(50, 50); (80, 80)]
      (fst (start Null (fst (subscribe (Samples.quiet 8) (resetAll w))))) in
  let anew :=
    run [(50, 50); (80, 80)]
      (fst (start Null (fst (subscribe (Samples.quiet 8) (fresh (args (self w))))))) in
  frames w = [] /\
  promises w = 1%nat /\
  resolutions 1 (since (resetAll w) again) = [Samples.complete] /\
  resolutions 0 (log anew) = [Samples.complete] /\
  since (resetAll w) again = renumber_event 1 <$> log anew.
Proof.
  assert (Hf : frames (run [(20, 20); (40, 40)]
                         (fst (start Null (Samples.watched Samples.two_ticks)))) = [])
    by (vm_compute; reflexivity).
  destruct (resetAll_like_new
              (run [(20, 20); (40, 40)]
                 (fst (start Null (Samples.watched Samples.two_ticks))))
              8 (fun _ => []) Null [(50, 50); (80, 80)]) as (_ & _ & H).
  destruct (H Hf) as (_ & _ & _ & S).
  split; [exact Hf|]. split; [vm_compute; reflexivity|].
  split; [vm_compute; reflexivity|]. split; [vm_compute; reflexivity|exact S].
Defined.

(** The animation of [examples/demo.ts] (rate 60, time step 0.007,
    progress [time ** 2]) with frames 17 milliseconds apart: the
    143rd tick is the first with [time >= 1]; it resolves the promise
    and requests no further frame. *)
Example demo_completes :
  let w' := run (punctual 143 0 17)
              (fst (start Null (Samples.watched Samples.demo_args))) in
  ticks (log w') = 143%nat /\
  resolutions 0 (log w') = [Samples.complete] /\
  frames w' = [].
Proof. vm_compute. repeat split; reflexivity. Qed.

(** Why the other listeners have to spare the one-shot listener.  In
    [stale] the listener of slot 0 calls an unsubscribe closure of slot
    1 that was used before; [start] has taken the free slot 1 in the
    meantime, so the first pass removes the one-shot listener before it
    is reached.  The update function reaches 1 at the second tick and
    the animation completes, but the promise is never resolved. *)
Lemma stale_closure_cancels_start :
  let w' := run [(20, 20); (40, 40)] Samples.stale in
  omap stored_progress (log w') = [1 # 2; 1] /\
  progress (self w') = 1 /\
  frames w' = [] /\
  resolutions 0 (log w') = [] /\
  omap notified_slot (log w') = [0; 0]%nat.
Proof. vm_compute. repeat split; reflexivity. Qed.

End AnimationFacts.

(* ===================================================================== *)
(** * The colour parser on all texts of a form *)
(* ===================================================================== *)

Module ColorTextFacts.
Import ColorParser ColorText.

Ltac all_chars x := destruct x as [[] [] [] [] [] [] [] []].

Lemma digit_cases (x : ascii) :
  is_digit x = true ->
  In x ["0"; "1"; "2"; "3"; "4"; "5"; "6"; "7"; "8"; "9"]%char.
Proof. all_chars x; vm_compute; intros H; try discriminate H; tauto. Qed.

Lemma digit_facts (x : ascii) :
  is_digit x = true ->
  is_space x = false /\ lower x = x /\
  Ascii.eqb x "(" = false /\ Ascii.eqb x "," = false /\ Ascii.eqb x ")" = false /\
  Ascii.eqb x "#" = false.
Proof.
  intros H. apply digit_cases in H. simpl in H.
  repeat (destruct H as [<-|H]; [repeat split; reflexivity|]). contradiction.
Qed.

Lemma space_facts (x : ascii) :
  is_space x = true ->
  is_digit x = false /\ lower x = x /\
  Ascii.eqb x "(" = false /\ Ascii.eqb x "," = false /\ Ascii.eqb x ")" = false /\
  Ascii.eqb x "#" = false.
Proof. all_chars x; vm_compute; intros H; try discriminate H; repeat split. Qed.

Lemma rmatch_char {R : Type} (c : ascii) (i : nat) (s : list ascii) (caps : captures)
    (k : nat -> list ascii -> captures -> option R) :
  rmatch (RChar c) i (c :: s) caps k = k (S i) s caps.
Proof. simpl. rewrite Ascii.eqb_refl. reflexivity. Qed.

Lemma rmatch_ws {R : Type} (g rest : list ascii) (i : nat) (caps : captures)
    (k : nat -> list ascii -> captures -> option R) (x : R) :
  is_gap g = true -> starts_without is_space rest ->
  k (i + length g) rest caps = Some x ->
  rmatch ws i (g ++ rest) caps k = Some x.
Proof.
  intros Hg Hr Hk. destruct g as [|c [|c' g]]; simpl in Hg; try discriminate Hg.
  - simpl in *. rewrite Nat.add_0_r in Hk.
    destruct rest as [|y rest]; simpl in *; [exact Hk|]. rewrite Hr. exact Hk.
  - simpl in *. rewrite Hg. replace (i + 1) with (S i) in Hk by lia. rewrite Hk. reflexivity.
Qed.

Lemma rmatch_channel {R : Type} (ds rest : list ascii) (i : nat) (caps : captures)
    (k : nat -> list ascii -> captures -> option R) (x : R) :
  is_channel ds = true -> starts_without is_digit rest ->
  k (i + length ds) rest (caps ++ [ds]) = Some x ->
  rmatch channel i (ds ++ rest) caps k = Some x.
Proof.
  intros Hd Hr Hk. unfold is_channel in Hd.
  apply andb_prop in Hd as (Hd & H3). apply andb_prop in Hd as (Hd & H1).
  apply Nat.leb_le in H1, H3.
  destruct ds as [|a [|b [|c [|d ds]]]]; simpl in H1, H3; try lia; simpl in Hd.
  - apply andb_prop in Hd as (Ha & _).
    unfold channel. simpl. rewrite Ha.
    replace (S i - i) with 1 by lia. simpl in Hk. replace (i + 1) with (S i) in Hk by lia.
    destruct rest as [|y rest]; simpl in *.
    + rewrite Hk. reflexivity.
    + rewrite Hr. rewrite Hk. reflexivity.
  - apply andb_prop in Hd as (Ha & Hd). apply andb_prop in Hd as (Hb & _).
    unfold channel. simpl. rewrite Ha, Hb.
    replace (S (S i) - i) with 2 by lia. simpl in Hk. replace (i + 2) with (S (S i)) in Hk by lia.
    destruct rest as [|y rest]; simpl in *.
    + rewrite Hk. reflexivity.
    + rewrite Hr. rewrite Hk. reflexivity.
  - apply andb_prop in Hd as (Ha & Hd). apply andb_prop in Hd as (Hb & Hd).
    apply andb_prop in Hd as (Hc & _).
    unfold channel. simpl. rewrite Ha, Hb, Hc.
    replace (S (S (S i)) - i) with 3 by lia. simpl in Hk.
    replace (i + 3) with (S (S (S i))) in Hk by lia.
    simpl. change (take 0 rest) with (@nil ascii). rewrite Hk. reflexivity.
Qed.

Lemma rmatch_seq {R : Type} (r1 r2 : regex) (i : nat) (s : list ascii) (caps : captures)
    (k : nat -> list ascii -> captures -> option R) :
  rmatch (RSeq r1 r2) i s caps k =
  rmatch r1 i s caps (fun i' s' caps' => rmatch r2 i' s' caps' k).
Proof. reflexivity. Qed.

Lemma rmatch_rgb {R : Type} (i : nat) (s : list ascii) (caps : captures)
    (k : nat -> list ascii -> captures -> option R) :
  rmatch (lit "rgb") i (chars "rgb" ++ s) caps k = k (S (S (S i))) s caps.
Proof. reflexivity. Qed.

Lemma search_here (r : regex) (i : nat) (s : list ascii) (caps : captures) :
  rmatch r i s [] (fun _ _ caps' => Some caps') = Some caps ->
  search r i s = Some caps.
Proof. intros H. destruct s; simpl; rewrite H; reflexivity. Qed.

Lemma channel_digits (ds : list ascii) :
  is_channel ds = true -> Forall (fun x => is_digit x = true) ds /\ ds <> [].
Proof.
  unfold is_channel. intros H.
  apply andb_prop in H as (H & _). apply andb_prop in H as (H & H1).
  split.
  - apply Forall_forall. intros x Hx. rewrite forallb_forall in H. apply H.
    apply list_elem_of_In. exact Hx.
  - destruct ds; [discriminate H1|discriminate].
Qed.

Lemma gap_spaces (g : list ascii) :
  is_gap g = true -> Forall (fun x => is_space x = true) g.
Proof.
  destruct g as [|c [|c' g]]; simpl; intros H; try discriminate H; repeat constructor.
  exact H.
Qed.

Lemma starts_without_gap (p : ascii -> bool) (g : list ascii) (c : ascii)
    (rest : list ascii) :
  is_gap g = true -> (forall x, is_space x = true -> p x = false) -> p c = false ->
  starts_without p (g ++ c :: rest).
Proof.
  intros Hg Hp Hc. apply gap_spaces in Hg.
  destruct Hg as [|x g Hx _]; simpl; [exact Hc|apply Hp, Hx].
Qed.

Lemma starts_without_channel (p : ascii -> bool) (ds rest : list ascii) :
  is_channel ds = true -> (forall x, is_digit x = true -> p x = false) ->
  starts_without p (ds ++ rest).
Proof.
  intros Hd Hp. apply channel_digits in Hd as (Hd & Hne).
  destruct Hd as [|x ds Hx _]; [contradiction|]. simpl. apply Hp, Hx.
Qed.

Lemma digit_not_space (x : ascii) : is_digit x = true -> is_space x = false.
Proof. intros H. apply digit_facts in H. tauto. Qed.

Lemma space_not_digit (x : ascii) : is_space x = true -> is_digit x = false.
Proof. intros H. apply space_facts in H. tauto. Qed.

Ltac gap_step Hg :=
  rewrite rmatch_seq; apply rmatch_ws;
  [exact Hg
  |first [reflexivity
         |eapply starts_without_channel; [eassumption|exact digit_not_space]]
  |cbn beta].

Ltac channel_step Hd :=
  rewrite rmatch_seq; apply rmatch_channel;
  [exact Hd
  |first [reflexivity
         |eapply starts_without_gap; [eassumption|exact space_not_digit|reflexivity]]
  |cbn beta].

Ltac char_step := rewrite rmatch_seq, rmatch_char.

Section Accepted.

Variables g1 d1 g2 g3 d2 g4 g5 d3 g6 d4 g7 : list ascii.
Hypotheses (G1 : is_gap g1 = true) (G2 : is_gap g2 = true) (G3 : is_gap g3 = true)
  (G4 : is_gap g4 = true) (G5 : is_gap g5 = true) (G6 : is_gap g6 = true)
  (G7 : is_gap g7 = true).
Hypotheses (D1 : is_channel d1 = true) (D2 : is_channel d2 = true)
  (D3 : is_channel d3 = true) (D4 : is_channel d4 = true).

Lemma rgb_regex_matches :
  search rgb_regex 0 (rgb_text g1 d1 g2 g3 d2 g4 g5 d3 g6) = Some [d1; d2; d3].
Proof.
  apply search_here. unfold rgb_regex, rgb_text. cbn [seq].
  rewrite rmatch_seq, rmatch_rgb.
  gap_step G1. char_step.
  channel_step D1. gap_step G2. char_step. gap_step G3.
  channel_step D2. gap_step G4. char_step. gap_step G5.
  channel_step D3.
  rewrite rmatch_seq. apply rmatch_ws; [exact G6|reflexivity|cbn beta].
  rewrite rmatch_char. reflexivity.
Qed.

Lemma rgba_regex_matches :
  search rgba_regex 0 (rgba_text g1 d1 g2 g3 d2 g4 g5 d3 g6 d4 g7) =
  Some [d1; d2; d3; d4].
Proof.
  apply search_here. unfold rgba_regex, rgba_text. cbn [seq].
  rewrite rmatch_seq, rmatch_rgb.
  gap_step G1. char_step.
  channel_step D1. gap_step G2. char_step. gap_step G3.
  channel_step D2. gap_step G4. char_step. gap_step G5.
  channel_step D3. char_step. gap_step G6.
  channel_step D4.
  rewrite rmatch_seq. apply rmatch_ws; [exact G7|reflexivity|cbn beta].
  rewrite rmatch_char. reflexivity.
Qed.

End Accepted.


Lemma rmatch_too_few (c : ascii) {R : Type} (r : regex) :
  forall (i : nat) (s : list ascii) (caps : captures)
         (k : nat -> list ascii -> captures -> option R),
  (forall i' s' caps',
     occurrences c s' + min_occurrences c r <= occurrences c s ->
     k i' s' caps' = None) ->
  rmatch r i s caps k = None.
Proof.
  induction r as [c'|p|r1 IH1 r2 IH2|r1 IH1|lo hi r1 IH1|r1 IH1| |];
    intros i s caps k Hk; simpl.
  - destruct s as [|x s']; [reflexivity|].
    destruct (Ascii.eqb x c') eqn:E; [|reflexivity].
    apply Hk. simpl. apply Ascii.eqb_eq in E. subst x.
    destruct (Ascii.eqb c' c); lia.
  - destruct s as [|x s']; [reflexivity|].
    destruct (p x); [|reflexivity]. apply Hk. simpl. lia.
  - apply IH1. intros i' s' caps' H1. apply IH2. intros i'' s'' caps'' H2.
    apply Hk. simpl. lia.
  - rewrite IH1.
    + apply Hk. simpl. lia.
    + intros i' s' caps' H1. apply Hk. simpl. lia.
  - revert lo i s caps k Hk.
    induction hi as [|hi IHhi]; intros lo i s caps k Hk.
    + destruct lo; [|reflexivity]. apply Hk. simpl. lia.
    + rewrite IH1.
      * destruct lo; [|reflexivity]. apply Hk. simpl. lia.
      * intros i' s' caps' H1. apply IHhi. intros i'' s'' caps'' H2.
        apply Hk. simpl. destruct lo; simpl in *; lia.
  - apply IH1. intros i' s' caps' H1. apply Hk. exact H1.
  - destruct (Nat.eqb i 0); [|reflexivity]. apply Hk. simpl. lia.
  - destruct s; [|reflexivity]. apply Hk. simpl. lia.
Qed.

Lemma search_too_few (c : ascii) (r : regex) (s : list ascii) :
  forall i, occurrences c s < min_occurrences c r -> search r i s = None.
Proof.
  induction s as [|x s IH]; intros i H; simpl.
  - rewrite (rmatch_too_few c); [reflexivity|]. intros. simpl in *. lia.
  - rewrite (rmatch_too_few c).
    + apply IH. simpl in H. lia.
    + intros. lia.
Qed.

(** ** Formatting *)

Lemma formatted_chars (color : string) :
  chars (trim (toLowerCase color)) =
  rev (drop_spaces (rev (drop_spaces (List.map lower (chars color))))).
Proof.
  unfold trim, toLowerCase, chars. rewrite !list_ascii_of_string_of_list_ascii.
  reflexivity.
Qed.

Lemma chars_text (s : list ascii) : chars (text s) = s.
Proof. apply list_ascii_of_string_of_list_ascii. Qed.

Lemma map_lower_plain (s : list ascii) :
  Forall (fun x => lower x = x) s -> List.map lower s = s.
Proof. intros H. induction H as [|x s Hx _ IH]; simpl; congruence. Qed.

Lemma drop_spaces_app (l r : list ascii) :
  Forall (fun x => is_space x = true) l -> drop_spaces (l ++ r) = drop_spaces r.
Proof. intros H. induction H as [|x l Hx _ IH]; simpl; [reflexivity|]. rewrite Hx. exact IH. Qed.

Lemma drop_spaces_plain (s : list ascii) :
  starts_without is_space s -> drop_spaces s = s.
Proof. destruct s as [|x s]; simpl; [reflexivity|]. intros ->. reflexivity. Qed.

(** Lower-case text without white space at either end, followed by
    white space, is formatted to itself without the white space. *)
Lemma formatted_plain (a z : ascii) (body tail : list ascii) :
  is_space a = false -> is_space z = false ->
  Forall (fun x => lower x = x) (a :: body ++ [z]) ->
  Forall (fun x => is_space x = true) tail ->
  chars (trim (toLowerCase (text (a :: body ++ z :: tail)))) = a :: body ++ [z].
Proof.
  intros Ha Hz Hl Ht. rewrite formatted_chars, chars_text.
  assert (Hm : List.map lower (a :: body ++ z :: tail) = a :: body ++ z :: tail).
  { apply map_lower_plain.
    apply Forall_cons in Hl as (Hla & Hl). apply Forall_app in Hl as (Hlb & Hlz).
    apply Forall_cons in Hlz as (Hlz & _).
    constructor; [exact Hla|]. apply Forall_app. split; [exact Hlb|].
    constructor; [exact Hlz|]. eapply Forall_impl; [exact Ht|].
    intros x Hx. apply space_facts in Hx. tauto. }
  rewrite Hm. rewrite (drop_spaces_plain (a :: _)) by exact Ha.
  assert (Hr : rev (a :: body ++ z :: tail) = rev tail ++ z :: rev (a :: body)).
  { change (a :: body ++ z :: tail) with ((a :: body) ++ z :: tail).
    rewrite rev_app_distr. simpl. rewrite <- app_assoc. reflexivity. }
  rewrite Hr, drop_spaces_app.
  - rewrite (drop_spaces_plain (z :: _)) by exact Hz.
    change (z :: rev (a :: body)) with ([z] ++ rev (a :: body)).
    rewrite rev_app_distr, rev_involutive. reflexivity.
  - apply Forall_forall. intros x Hx. rewrite Forall_forall in Ht. apply Ht.
    apply list_elem_of_In. apply list_elem_of_In in Hx. apply in_rev. exact Hx.
Qed.

(** ** Counting *)

Lemma occurrences_app (c : ascii) (s1 s2 : list ascii) :
  occurrences c (s1 ++ s2) = occurrences c s1 + occurrences c s2.
Proof. induction s1 as [|x s1 IH]; simpl; [reflexivity|]. rewrite IH. lia. Qed.

Lemma occurrences_none (c : ascii) (s : list ascii) :
  Forall (fun x => Ascii.eqb x c = false) s -> occurrences c s = 0.
Proof. intros H. induction H as [|x s Hx _ IH]; simpl; [reflexivity|]. rewrite Hx, IH. reflexivity. Qed.

Lemma occurrences_rev (c : ascii) (s : list ascii) :
  occurrences c (rev s) = occurrences c s.
Proof.
  induction s as [|x s IH]; simpl; [reflexivity|].
  rewrite occurrences_app, IH. simpl. lia.
Qed.

Lemma occurrences_drop_spaces (c : ascii) (s : list ascii) :
  occurrences c (drop_spaces s) <= occurrences c s.
Proof.
  induction s as [|x s IH]; simpl; [lia|].
  destruct (is_space x); simpl; lia.
Qed.

(** Lower-casing keeps the punctuation of the patterns. *)
Lemma lower_punctuation (c x : ascii) :
  In c ["("; ")"; ","; "#"]%char -> Ascii.eqb (lower x) c = Ascii.eqb x c.
Proof.
  simpl. intros [<-|[<-|[<-|[<-|[]]]]]; all_chars x; reflexivity.
Qed.

Lemma occurrences_lower (c : ascii) (s : list ascii) :
  In c ["("; ")"; ","; "#"]%char ->
  occurrences c (List.map lower s) = occurrences c s.
Proof.
  intros Hc. induction s as [|x s IH]; simpl; [reflexivity|].
  rewrite (lower_punctuation c x Hc), IH. reflexivity.
Qed.

(** Formatting adds no punctuation. *)
Lemma occurrences_formatted (c : ascii) (color : string) :
  In c ["("; ")"; ","; "#"]%char ->
  occurrences c (chars (trim (toLowerCase color))) <= occurrences c (chars color).
Proof.
  intros Hc. rewrite formatted_chars, occurrences_rev.
  etransitivity; [apply occurrences_drop_spaces|]. rewrite occurrences_rev.
  etransitivity; [apply occurrences_drop_spaces|]. rewrite (occurrences_lower c _ Hc).
  reflexivity.
Qed.

Lemma exec_too_few (c : ascii) (r : regex) (str : string) :
  occurrences c (chars str) < min_occurrences c r -> exec r str = None.
Proof. intros H. unfold exec. apply (search_too_few c). exact H. Qed.


(** ** Rejection *)

(** X7. A colour text without [#] that has fewer than two commas, or
    no opening or no closing parenthesis, is rejected with the
    "Format not recognized" error, whatever else it contains. *)
Theorem rejected_without_punctuation (color : string) :
  occurrences "#" (chars color) = 0 ->
  occurrences "," (chars color) < 2 \/
  occurrences "(" (chars color) = 0 \/
  occurrences ")" (chars color) = 0 ->
  extractColorAsRgb color = Throw not_recognized.
Proof.
  intros Hhash Hp.
  assert (Hle : forall c, In c ["("; ")"; ","; "#"]%char ->
            occurrences c (chars (trim (toLowerCase color))) <=
            occurrences c (chars color))
    by (intros c Hc; apply occurrences_formatted; exact Hc).
  assert (H1 := Hle "("%char ltac:(simpl; tauto)).
  assert (H2 := Hle ")"%char ltac:(simpl; tauto)).
  assert (H3 := Hle ","%char ltac:(simpl; tauto)).
  assert (H4 := Hle "#"%char ltac:(simpl; tauto)).
  apply ColorParserFacts.no_match_throws.
  - destruct Hp as [Hp|[Hp|Hp]].
    + apply (exec_too_few ","). change (min_occurrences "," rgba_regex) with 3. lia.
    + apply (exec_too_few "("). change (min_occurrences "(" rgba_regex) with 1. lia.
    + apply (exec_too_few ")"). change (min_occurrences ")" rgba_regex) with 1. lia.
  - destruct Hp as [Hp|[Hp|Hp]].
    + apply (exec_too_few ","). change (min_occurrences "," rgb_regex) with 2. lia.
    + apply (exec_too_few "("). change (min_occurrences "(" rgb_regex) with 1. lia.
    + apply (exec_too_few ")"). change (min_occurrences ")" rgb_regex) with 1. lia.
  - apply (exec_too_few "#"). change (min_occurrences "#" hex_regex) with 1. lia.
Qed.

(** X8. A result with an alpha channel comes from the four-channel
    pattern only: the text it was read from has at least three commas. *)
Theorem alpha_needs_three_commas (color : string) (c : IRgbColor) :
  extractColorAsRgb color = Return c -> a c <> None ->
  3 <= occurrences "," (chars color).
Proof.
  intros Hr Ha. destruct (le_lt_dec 3 (occurrences "," (chars color))) as [H|H];
    [exact H|exfalso].
  assert (Hn : exec rgba_regex (trim (toLowerCase color)) = None).
  { apply (exec_too_few ","). change (min_occurrences "," rgba_regex) with 3.
    pose proof (occurrences_formatted "," color ltac:(simpl; tauto)). lia. }
  unfold extractColorAsRgb in Hr. rewrite Hn in Hr.
  destruct (exec rgb_regex (trim (toLowerCase color)))
    as [[|c1 [|c2 [|c3 [|c4 cs]]]]|];
    try (destruct (exec hex_regex (trim (toLowerCase color)));
         [injection Hr as <-; apply Ha; reflexivity|discriminate Hr]).
  injection Hr as <-. apply Ha. reflexivity.
Qed.

(** ** Acceptance *)

Lemma capture_int_decimal (ds : list ascii) :
  is_channel ds = true -> capture_int ds = Num (decimal ds).
Proof.
  intros H. destruct (channel_digits ds H) as (HF & _).
  unfold is_channel in H. apply andb_prop in H as (H & H3).
  apply andb_prop in H as (_ & H1). apply Nat.leb_le in H1, H3.
  destruct ds as [|x [|y [|z [|t ds]]]]; simpl in H1, H3; try lia.
  - apply Forall_cons in HF as (Hx & _).
    apply digit_cases in Hx. simpl in Hx. decompose [or] Hx; subst; try contradiction;
      reflexivity.
  - apply Forall_cons in HF as (Hx & HF). apply Forall_cons in HF as (Hy & _).
    apply digit_cases in Hx, Hy. simpl in Hx, Hy.
    decompose [or] Hx; subst; try contradiction;
      decompose [or] Hy; subst; try contradiction; reflexivity.
  - apply Forall_cons in HF as (Hx & HF). apply Forall_cons in HF as (Hy & HF).
    apply Forall_cons in HF as (Hz & _).
    apply digit_cases in Hx, Hy, Hz. simpl in Hx, Hy, Hz.
    decompose [or] Hx; subst; try contradiction;
      decompose [or] Hy; subst; try contradiction;
      decompose [or] Hz; subst; try contradiction; reflexivity.
Qed.


Lemma channel_plain (ds : list ascii) :
  is_channel ds = true ->
  Forall (fun x => lower x = x) ds /\ Forall (fun x => Ascii.eqb x "," = false) ds.
Proof.
  intros H. apply channel_digits in H as (H & _).
  split; (eapply Forall_impl; [exact H|]); intros x Hx; apply digit_facts in Hx; tauto.
Qed.

Lemma gap_plain (g : list ascii) :
  is_gap g = true ->
  Forall (fun x => lower x = x) g /\ Forall (fun x => Ascii.eqb x "," = false) g.
Proof.
  intros H. apply gap_spaces in H.
  split; (eapply Forall_impl; [exact H|]); intros x Hx; apply space_facts in Hx; tauto.
Qed.

Section AcceptedColours.

Variables g1 d1 g2 g3 d2 g4 g5 d3 g6 d4 g7 : list ascii.
Hypotheses (G1 : is_gap g1 = true) (G2 : is_gap g2 = true) (G3 : is_gap g3 = true)
  (G4 : is_gap g4 = true) (G5 : is_gap g5 = true) (G6 : is_gap g6 = true)
  (G7 : is_gap g7 = true).
Hypotheses (D1 : is_channel d1 = true) (D2 : is_channel d2 = true)
  (D3 : is_channel d3 = true) (D4 : is_channel d4 = true).

Lemma rgb_text_formatted :
  chars (trim (toLowerCase (text (rgb_text g1 d1 g2 g3 d2 g4 g5 d3 g6)))) =
  rgb_text g1 d1 g2 g3 d2 g4 g5 d3 g6.
Proof.
  set (body := "g"%char :: "b"%char :: g1 ++ "("%char :: d1 ++ g2 ++ ","%char :: g3 ++
               d2 ++ g4 ++ ","%char :: g5 ++ d3 ++ g6).
  assert (E : rgb_text g1 d1 g2 g3 d2 g4 g5 d3 g6 = "r"%char :: body ++ [")"%char]).
  { unfold rgb_text, body. simpl. repeat (rewrite <- app_assoc; simpl). reflexivity. }
  rewrite E. change ("r"%char :: body ++ [")"%char]) with ("r"%char :: body ++ ")"%char :: [])
    at 1.
  apply formatted_plain; try reflexivity; [|constructor].
  constructor; [reflexivity|]. apply Forall_app. split; [|repeat constructor].
  unfold body.
  repeat first [apply Forall_cons; split; [reflexivity|]
               |apply Forall_app; split];
    first [apply channel_plain; assumption|apply gap_plain; assumption].
Qed.

Lemma rgb_text_commas :
  occurrences "," (rgb_text g1 d1 g2 g3 d2 g4 g5 d3 g6) = 2.
Proof.
  unfold rgb_text. simpl. repeat (rewrite occurrences_app; simpl).
  rewrite !(occurrences_none ",") by
    first [apply channel_plain; assumption|apply gap_plain; assumption].
  reflexivity.
Qed.

(** X1. Every text [rgb(d1,d2,d3)] with channels of one to three
    decimal digits and at most one white-space character wherever the
    pattern has [\s?] (after [rgb], around the commas, before the
    closing parenthesis) is accepted, and the channels are the decimal
    values of the digits.  No range is checked: [999] is a channel. *)
Theorem rgb_accepted :
  extractColorAsRgb (text (rgb_text g1 d1 g2 g3 d2 g4 g5 d3 g6)) =
  Return (rgb (decimal d1) (decimal d2) (decimal d3)).
Proof.
  rewrite (ColorParserFacts.three_channels_second _ d1 d2 d3).
  - rewrite !capture_int_decimal by assumption. reflexivity.
  - apply (exec_too_few ","). rewrite rgb_text_formatted, rgb_text_commas.
    change (min_occurrences "," rgba_regex) with 3. lia.
  - unfold exec. fold (chars (trim (toLowerCase (text (rgb_text g1 d1 g2 g3 d2 g4 g5 d3 g6))))).
    rewrite rgb_text_formatted. apply rgb_regex_matches; assumption.
Qed.

Lemma rgba_text_formatted :
  chars (trim (toLowerCase (text (rgba_text g1 d1 g2 g3 d2 g4 g5 d3 g6 d4 g7)))) =
  rgba_text g1 d1 g2 g3 d2 g4 g5 d3 g6 d4 g7.
Proof.
  set (body := "g"%char :: "b"%char :: g1 ++ "("%char :: d1 ++ g2 ++ ","%char :: g3 ++
               d2 ++ g4 ++ ","%char :: g5 ++ d3 ++ ","%char :: g6 ++ d4 ++ g7).
  assert (E : rgba_text g1 d1 g2 g3 d2 g4 g5 d3 g6 d4 g7 = "r"%char :: body ++ [")"%char]).
  { unfold rgba_text, body. simpl. repeat (rewrite <- app_assoc; simpl). reflexivity. }
  rewrite E. change ("r"%char :: body ++ [")"%char]) with ("r"%char :: body ++ ")"%char :: [])
    at 1.
  apply formatted_plain; try reflexivity; [|constructor].
  constructor; [reflexivity|]. apply Forall_app. split; [|repeat constructor].
  unfold body.
  repeat first [apply Forall_cons; split; [reflexivity|]
               |apply Forall_app; split];
    first [apply channel_plain; assumption|apply gap_plain; assumption].
Qed.

(** X2. The four-channel form that is accepted is spelled [rgb(...)]
    with four integer channels (no gap between the third channel and
    its comma); the fourth is returned as [a]. *)
Theorem four_channels_accepted :
  extractColorAsRgb (text (rgba_text g1 d1 g2 g3 d2 g4 g5 d3 g6 d4 g7)) =
  Return (rgba (decimal d1) (decimal d2) (decimal d3) (decimal d4)).
Proof.
  rewrite (ColorParserFacts.four_channels_first _ d1 d2 d3 d4).
  - rewrite !capture_int_decimal by assumption. reflexivity.
  - unfold exec.
    fold (chars (trim (toLowerCase (text (rgba_text g1 d1 g2 g3 d2 g4 g5 d3 g6 d4 g7))))).
    rewrite rgba_text_formatted. apply rgba_regex_matches; assumption.
Qed.

End AcceptedColours.


(** ** Hexadecimal colours *)

Lemma hex_third (color : string) (caps : captures) :
  exec rgba_regex (trim (toLowerCase color)) = None ->
  exec rgb_regex (trim (toLowerCase color)) = None ->
  exec hex_regex (trim (toLowerCase color)) = Some caps ->
  extractColorAsRgb color =
  Return {| r := parseInt (substring 1 3 color) (Some 16%N);
            g := parseInt (substring 3 5 color) (Some 16%N);
            b := parseInt (substring 5 7 color) (Some 16%N);
            a := None |}.
Proof. intros H1 H2 H3. unfold extractColorAsRgb. rewrite H1, H2, H3. reflexivity. Qed.

Lemma hex_facts (x : ascii) :
  is_hex x = true ->
  is_hex_lower (lower x) = true /\ is_space (lower x) = false /\
  Ascii.eqb (lower x) "(" = false.
Proof. all_chars x; vm_compute; intros H; try discriminate H; repeat split. Qed.

Lemma hex_cases (x : ascii) :
  is_hex x = true ->
  In x ["0"; "1"; "2"; "3"; "4"; "5"; "6"; "7"; "8"; "9";
        "a"; "b"; "c"; "d"; "e"; "f"; "A"; "B"; "C"; "D"; "E"; "F"]%char.
Proof. all_chars x; vm_compute; intros H; try discriminate H; tauto. Qed.

Lemma parseInt_hex_pair (h l : ascii) :
  is_hex h = true -> is_hex l = true ->
  parseInt (String h (String l EmptyString)) (Some 16%N) = Num (hex_pair h l).
Proof.
  intros Hh Hl. apply hex_cases in Hh, Hl. simpl in Hh, Hl.
  decompose [or] Hh; subst; try contradiction;
    decompose [or] Hl; subst; try contradiction; reflexivity.
Qed.

Lemma parseInt_blank (x y : ascii) :
  is_space x = true -> is_space y = true ->
  parseInt (String x (String y EmptyString)) (Some 16%N) = NaN.
Proof.
  intros Hx Hy. unfold parseInt. simpl. rewrite Hx, Hy. reflexivity.
Qed.

Lemma parseInt_blank_hash (x : ascii) :
  is_space x = true ->
  parseInt (String x (String "#" EmptyString)) (Some 16%N) = NaN.
Proof.
  intros Hx. unfold parseInt. simpl. rewrite Hx. reflexivity.
Qed.

Lemma parseInt_hash (x : ascii) :
  parseInt (String "#" (String x EmptyString)) (Some 16%N) = NaN.
Proof. reflexivity. Qed.

Lemma substring_0_0 (s : string) : String.substring 0 0 s = EmptyString.
Proof. destruct s; reflexivity. Qed.

Lemma map_lower_spaces (s : list ascii) :
  Forall (fun x => is_space x = true) s -> List.map lower s = s.
Proof.
  intros H. apply map_lower_plain. eapply Forall_impl; [exact H|].
  intros x Hx. apply space_facts in Hx. tauto.
Qed.

(** White space around a text is trimmed away, the text is lowered. *)
Lemma formatted_trimmed (lead core tail : list ascii) :
  Forall (fun x => is_space x = true) lead ->
  Forall (fun x => is_space x = true) tail ->
  core <> [] ->
  starts_without is_space (List.map lower core) ->
  starts_without is_space (rev (List.map lower core)) ->
  chars (trim (toLowerCase (text (lead ++ core ++ tail)))) = List.map lower core.
Proof.
  intros Hl Ht Hc Hs He. rewrite formatted_chars, chars_text.
  rewrite !List.map_app, (map_lower_spaces lead), (map_lower_spaces tail) by assumption.
  rewrite drop_spaces_app by exact Hl.
  assert (Hd : drop_spaces (List.map lower core ++ tail) = List.map lower core ++ tail).
  { destruct core as [|x m]; [congruence|].
    simpl in Hs. simpl. rewrite Hs. reflexivity. }
  rewrite Hd, rev_app_distr, drop_spaces_app.
  - rewrite drop_spaces_plain by exact He. apply rev_involutive.
  - apply Forall_forall. intros x Hx. rewrite Forall_forall in Ht. apply Ht.
    apply list_elem_of_In. apply list_elem_of_In in Hx. apply in_rev. exact Hx.
Qed.

Section Hexadecimal.

Variables h1 h2 h3 h4 h5 h6 : ascii.
Variables lead tail : list ascii.
Hypotheses (H1 : is_hex h1 = true) (H2 : is_hex h2 = true) (H3 : is_hex h3 = true)
  (H4 : is_hex h4 = true) (H5 : is_hex h5 = true) (H6 : is_hex h6 = true).
Hypothesis Lead : Forall (fun x => is_space x = true) lead.
Hypothesis Tail : Forall (fun x => is_space x = true) tail.

#[local] Abbreviation hex_core := (hex_core h1 h2 h3 h4 h5 h6).

Lemma hex_formatted :
  chars (trim (toLowerCase (text (lead ++ hex_core ++ tail)))) =
  ["#"%char; lower h1; lower h2; lower h3; lower h4; lower h5; lower h6].
Proof.
  rewrite formatted_trimmed; try assumption; try reflexivity; [discriminate|].
  simpl. apply hex_facts. exact H6.
Qed.

Lemma hex_regex_matches :
  exec hex_regex (trim (toLowerCase (text (lead ++ hex_core ++ tail)))) = Some [].
Proof.
  unfold exec. fold (chars (trim (toLowerCase (text (lead ++ hex_core ++ tail))))).
  rewrite hex_formatted. simpl.
  rewrite (proj1 (hex_facts h1 H1)), (proj1 (hex_facts h2 H2)), (proj1 (hex_facts h3 H3)),
    (proj1 (hex_facts h4 H4)), (proj1 (hex_facts h5 H5)), (proj1 (hex_facts h6 H6)).
  reflexivity.
Qed.

Lemma hex_no_parenthesis :
  occurrences "("
    (chars (trim (toLowerCase (text (lead ++ hex_core ++ tail))))) = 0.
Proof.
  rewrite hex_formatted. apply occurrences_none.
  repeat constructor; apply hex_facts; assumption.
Qed.

Lemma hex_parsed :
  extractColorAsRgb (text (lead ++ hex_core ++ tail)) =
  Return {| r := parseInt (substring 1 3 (text (lead ++ hex_core ++ tail))) (Some 16%N);
            g := parseInt (substring 3 5 (text (lead ++ hex_core ++ tail))) (Some 16%N);
            b := parseInt (substring 5 7 (text (lead ++ hex_core ++ tail))) (Some 16%N);
            a := None |}.
Proof.
  apply (hex_third _ []).
  - apply (exec_too_few "("). rewrite hex_no_parenthesis.
    change (min_occurrences "(" rgba_regex) with 1. lia.
  - apply (exec_too_few "("). rewrite hex_no_parenthesis.
    change (min_occurrences "(" rgb_regex) with 1. lia.
  - exact hex_regex_matches.
Qed.

End Hexadecimal.

(** X3. [#] followed by six hexadecimal digits in either case, and
    then any white space, is accepted; each channel is the value of
    its two digits. *)
Theorem hex_accepted (h1 h2 h3 h4 h5 h6 : ascii) (tail : list ascii) :
  is_hex h1 = true -> is_hex h2 = true -> is_hex h3 = true ->
  is_hex h4 = true -> is_hex h5 = true -> is_hex h6 = true ->
  Forall (fun x => is_space x = true) tail ->
  extractColorAsRgb (text ("#"%char :: h1 :: h2 :: h3 :: h4 :: h5 :: h6 :: tail)) =
  Return (rgb (hex_pair h1 h2) (hex_pair h3 h4) (hex_pair h5 h6)).
Proof.
  intros H1 H2 H3 H4 H5 H6 Ht.
  etransitivity;
    [exact (hex_parsed h1 h2 h3 h4 h5 h6 [] tail H1 H2 H3 H4 H5 H6 ltac:(constructor) Ht)|].
  unfold substring. simpl. rewrite substring_0_0.
  rewrite !parseInt_hex_pair by assumption. reflexivity.
Qed.

(** X4. White space in front of a hexadecimal colour is trimmed for
    the pattern but not for cutting the digits: the text is accepted
    and its red channel is [NaN]. *)
Theorem hex_after_space (h1 h2 h3 h4 h5 h6 : ascii) (lead tail : list ascii) :
  is_hex h1 = true -> is_hex h2 = true -> is_hex h3 = true ->
  is_hex h4 = true -> is_hex h5 = true -> is_hex h6 = true ->
  Forall (fun x => is_space x = true) lead ->
  Forall (fun x => is_space x = true) tail ->
  lead <> [] ->
  exists c,
    extractColorAsRgb
      (text (lead ++ "#"%char :: h1 :: h2 :: h3 :: h4 :: h5 :: h6 :: tail)) = Return c /\
    r c = NaN.
Proof.
  intros H1 H2 H3 H4 H5 H6 Hl Ht Hne.
  eexists. split.
  - exact (hex_parsed h1 h2 h3 h4 h5 h6 lead tail H1 H2 H3 H4 H5 H6 Hl Ht).
  - simpl. destruct lead as [|x [|y [|z l]]]; [congruence| | |].
    + reflexivity.
    + apply Forall_cons in Hl as (_ & Hl). apply Forall_cons in Hl as (Hy & _).
      unfold substring. simpl. apply parseInt_blank_hash. exact Hy.
    + apply Forall_cons in Hl as (_ & Hl). apply Forall_cons in Hl as (Hy & Hl).
      apply Forall_cons in Hl as (Hz & _).
      unfold substring. simpl. rewrite substring_0_0. apply parseInt_blank; assumption.
Qed.

(** X5. One white-space character in front shifts every channel by
    one character: red is [NaN], green is read from the second and
    third digit, blue from the fourth and fifth. *)
Theorem hex_shifted (x h1 h2 h3 h4 h5 h6 : ascii) (tail : list ascii) :
  is_space x = true ->
  is_hex h1 = true -> is_hex h2 = true -> is_hex h3 = true ->
  is_hex h4 = true -> is_hex h5 = true -> is_hex h6 = true ->
  Forall (fun x => is_space x = true) tail ->
  extractColorAsRgb (text (x :: "#"%char :: h1 :: h2 :: h3 :: h4 :: h5 :: h6 :: tail)) =
  Return {| r := NaN; g := Num (hex_pair h2 h3); b := Num (hex_pair h4 h5); a := None |}.
Proof.
  intros Hx H1 H2 H3 H4 H5 H6 Ht.
  etransitivity;
    [exact (hex_parsed h1 h2 h3 h4 h5 h6 [x] tail H1 H2 H3 H4 H5 H6
              (List.Forall_cons _ x [] Hx (List.Forall_nil _)) Ht)|].
  unfold substring. simpl.
  rewrite (parseInt_hex_pair h2 h3), (parseInt_hex_pair h4 h5) by assumption. reflexivity.
Qed.

(** ** Texts of the wrong length *)

Lemma rep_exact {R : Type} (p : ascii -> bool) (n : nat) :
  forall (i : nat) (s : list ascii) (caps : captures)
         (k : nat -> list ascii -> captures -> option R),
  (forall i' s' caps', length s = n + length s' -> k i' s' caps' = None) ->
  rmatch (RRep n n (RClass p)) i s caps k = None.
Proof.
  induction n as [|n IH]; intros i s caps k Hk.
  - simpl. apply Hk. reflexivity.
  - change (rmatch (RRep (S n) (S n) (RClass p)) i s caps k) with
      (match rmatch (RClass p) i s caps
               (fun i' s' caps' => rmatch (RRep n n (RClass p)) i' s' caps' k) with
       | Some x => Some x
       | None => None
       end).
    destruct s as [|x s']; simpl; [reflexivity|].
    destruct (p x); [|reflexivity].
    change (match rmatch (RRep n n (RClass p)) (S i) s' caps k with
            | Some x => Some x | None => None end = None).
    rewrite IH; [reflexivity|]. intros i' s'' caps' E. apply Hk. simpl. lia.
Qed.

Lemma hex_regex_length {R : Type} (i : nat) (s : list ascii)
    (k : nat -> list ascii -> captures -> option R) :
  (i = 0 -> length s <> 7) -> rmatch hex_regex i s [] k = None.
Proof.
  intros H.
  change (rmatch hex_regex i s [] k) with
    (if Nat.eqb i 0
     then rmatch (RChar "#") i s []
            (fun i1 s1 caps1 =>
               rmatch (RRep 6 6 (RClass is_hex_lower)) i1 s1 caps1
                 (fun i2 s2 caps2 => rmatch REol i2 s2 caps2 k))
     else None).
  destruct (Nat.eqb i 0) eqn:E; [|reflexivity].
  apply Nat.eqb_eq in E. specialize (H E).
  destruct s as [|x s']; [reflexivity|].
  match goal with |- rmatch _ _ _ _ ?K = _ => set (rest := K) end.
  change (rmatch (RChar "#") i (x :: s') [] rest) with
    (if Ascii.eqb x "#" then rest (S i) s' [] else None).
  destruct (Ascii.eqb x "#"); [|reflexivity].
  subst rest. cbv beta.
  apply (rep_exact is_hex_lower 6). intros i' s'' caps' E'.
  destruct s'' as [|y s'']; [|reflexivity].
  simpl in H, E'. lia.
Qed.

Lemma search_hex_later (s : list ascii) :
  forall i, 0 < i -> search hex_regex i s = None.
Proof.
  induction s as [|x s IH]; intros i Hi; cbn [search].
  - rewrite hex_regex_length; [reflexivity|lia].
  - rewrite hex_regex_length; [|lia]. apply IH. lia.
Qed.

Lemma exec_hex_length (str : string) :
  length (chars str) <> 7 -> exec hex_regex str = None.
Proof.
  intros H. unfold exec. fold (chars str).
  destruct (chars str) as [|x s]; cbn [search].
  - rewrite hex_regex_length; [reflexivity|]. intros _. exact H.
  - rewrite hex_regex_length; [|intros _; exact H]. apply search_hex_later. lia.
Qed.

(** X6. A text without an opening parenthesis whose trimmed form is
    not exactly seven characters long is rejected: the short form
    [#fff] and the eight-digit form [#rrggbbaa] throw. *)
Theorem hex_needs_six_digits (color : string) :
  occurrences "(" (chars color) = 0 ->
  length (chars (trim (toLowerCase color))) <> 7 ->
  extractColorAsRgb color = Throw not_recognized.
Proof.
  intros Hp Hl.
  assert (Hf : occurrences "(" (chars (trim (toLowerCase color))) = 0).
  { pose proof (occurrences_formatted "(" color ltac:(simpl; tauto)) as H. lia. }
  apply ColorParserFacts.no_match_throws.
  - apply (exec_too_few "("). rewrite Hf. change (min_occurrences "(" rgba_regex) with 1. lia.
  - apply (exec_too_few "("). rewrite Hf. change (min_occurrences "(" rgb_regex) with 1. lia.
  - apply exec_hex_length. exact Hl.
Qed.


(** ** A colour inside a longer text *)

Lemma drop_spaces_before (p : list ascii) (c : ascii) (rest : list ascii) :
  is_space c = false ->
  drop_spaces (p ++ c :: rest) = drop_spaces p ++ c :: rest.
Proof.
  intros Hc. induction p as [|x p IH]; simpl.
  - rewrite Hc. reflexivity.
  - destruct (is_space x); [exact IH|reflexivity].
Qed.

Lemma Forall_drop_spaces (P : ascii -> Prop) (s : list ascii) :
  Forall P s -> Forall P (drop_spaces s).
Proof.
  intros H. induction H as [|x s Hx Hs IH]; simpl; [constructor|].
  destruct (is_space x); [exact IH|constructor; assumption].
Qed.

(** The formatted text of a lower-case core between two texts: the
    core stays, white space is dropped in front and at the end. *)
Lemma formatted_around (pre post : list ascii) (a z : ascii) (body : list ascii) :
  is_space a = false -> is_space z = false ->
  Forall (fun x => lower x = x) (a :: body ++ [z]) ->
  chars (trim (toLowerCase (text (pre ++ (a :: body ++ [z]) ++ post)))) =
  drop_spaces (List.map lower pre) ++ (a :: body ++ [z]) ++
  rev (drop_spaces (rev (List.map lower post))).
Proof.
  intros Ha Hz Hl. rewrite formatted_chars, chars_text.
  rewrite !List.map_app, (map_lower_plain (a :: body ++ [z])) by exact Hl.
  change ((a :: body ++ [z]) ++ List.map lower post)
    with (a :: (body ++ [z]) ++ List.map lower post).
  rewrite drop_spaces_before by exact Ha.
  set (p := drop_spaces (List.map lower pre)). set (q := List.map lower post).
  assert (Hr : rev (p ++ a :: (body ++ [z]) ++ q) = rev q ++ z :: rev (p ++ a :: body)).
  { change (p ++ a :: (body ++ [z]) ++ q) with (p ++ (a :: body ++ [z]) ++ q).
    rewrite app_assoc, rev_app_distr. f_equal.
    change (a :: body ++ [z]) with ((a :: body) ++ [z]).
    rewrite app_assoc, rev_app_distr. reflexivity. }
  rewrite Hr, drop_spaces_before by exact Hz.
  rewrite rev_app_distr.
  change (rev (z :: rev (p ++ a :: body))) with (rev (rev (p ++ a :: body)) ++ [z]).
  rewrite rev_involutive. simpl. rewrite <- !app_assoc. reflexivity.
Qed.

Lemma rmatch_not_r {R : Type} (rest : regex) (i : nat) (x : ascii) (s : list ascii)
    (caps : captures) (k : nat -> list ascii -> captures -> option R) :
  Ascii.eqb x "r" = false ->
  rmatch (RSeq (lit "rgb") rest) i (x :: s) caps k = None.
Proof. intros H. cbn [rmatch lit list_ascii_of_string fold_left]. rewrite H. reflexivity. Qed.

Lemma search_skip (rest : regex) (p s : list ascii) :
  Forall (fun x => Ascii.eqb x "r" = false) p ->
  forall i, search (RSeq (lit "rgb") rest) i (p ++ s) =
            search (RSeq (lit "rgb") rest) (i + length p) s.
Proof.
  intros H. induction H as [|x p Hx _ IH]; intros i.
  - simpl. rewrite Nat.add_0_r. reflexivity.
  - change ((x :: p) ++ s) with (x :: p ++ s). cbn [search].
    rewrite (rmatch_not_r rest i x (p ++ s) [] _ Hx), IH. f_equal. simpl. lia.
Qed.


Section Inside.

Variables g1 d1 g2 g3 d2 g4 g5 d3 g6 : list ascii.
Hypotheses (G1 : is_gap g1 = true) (G2 : is_gap g2 = true) (G3 : is_gap g3 = true)
  (G4 : is_gap g4 = true) (G5 : is_gap g5 = true) (G6 : is_gap g6 = true).
Hypotheses (D1 : is_channel d1 = true) (D2 : is_channel d2 = true)
  (D3 : is_channel d3 = true).

#[local] Abbreviation core := (rgb_text g1 d1 g2 g3 d2 g4 g5 d3 g6).

Lemma rgb_text_then (rest : list ascii) :
  core ++ rest =
  chars "rgb" ++ g1 ++ "("%char :: d1 ++ g2 ++ ","%char :: g3 ++ d2 ++ g4 ++
  ","%char :: g5 ++ d3 ++ g6 ++ ")"%char :: rest.
Proof.
  unfold rgb_text.
  repeat first [rewrite <- app_assoc | rewrite <- app_comm_cons].
  reflexivity.
Qed.

Lemma rgb_regex_matches_at (i : nat) (rest : list ascii) :
  search rgb_regex i (core ++ rest) = Some [d1; d2; d3].
Proof.
  apply search_here. rewrite rgb_text_then. unfold rgb_regex. cbn [seq].
  rewrite rmatch_seq, rmatch_rgb.
  gap_step G1. char_step.
  channel_step D1. gap_step G2. char_step. gap_step G3.
  channel_step D2. gap_step G4. char_step. gap_step G5.
  channel_step D3.
  rewrite rmatch_seq. apply rmatch_ws; [exact G6|reflexivity|cbn beta].
  rewrite rmatch_char. reflexivity.
Qed.

Lemma rgb_text_ends :
  exists body, core = "r"%char :: body ++ [")"%char] /\
               Forall (fun x => lower x = x) ("r"%char :: body ++ [")"%char]).
Proof.
  exists ("g"%char :: "b"%char :: g1 ++ "("%char :: d1 ++ g2 ++ ","%char :: g3 ++
          d2 ++ g4 ++ ","%char :: g5 ++ d3 ++ g6).
  split.
  - unfold rgb_text. simpl. repeat (rewrite <- app_assoc; simpl). reflexivity.
  - constructor; [reflexivity|]. apply Forall_app. split; [|repeat constructor].
    repeat first [apply Forall_cons; split; [reflexivity|]
                 |apply Forall_app; split];
      first [apply channel_plain; assumption|apply gap_plain; assumption].
Qed.

(** X19. The two [rgb] patterns are not anchored: a three-channel
    colour is found inside a longer text.  Whatever stands in front of
    it (without a comma and without the letter r in either case) and
    whatever follows it (without a comma) is ignored. *)
Theorem rgb_found_inside (pre post : list ascii) :
  Forall (fun x => Ascii.eqb (lower x) "r" = false) pre ->
  occurrences "," pre = 0 ->
  occurrences "," post = 0 ->
  extractColorAsRgb (text (pre ++ core ++ post)) =
  Return (rgb (decimal d1) (decimal d2) (decimal d3)).
Proof.
  intros Hr Hpre Hpost.
  rewrite (ColorParserFacts.three_channels_second _ d1 d2 d3).
  - rewrite !capture_int_decimal by assumption. reflexivity.
  - apply (exec_too_few ",").
    pose proof (occurrences_formatted "," (text (pre ++ core ++ post))
                  ltac:(simpl; tauto)) as H.
    rewrite chars_text, !occurrences_app, rgb_text_commas in H by assumption.
    change (min_occurrences "," rgba_regex) with 3. lia.
  - unfold exec.
    fold (chars (trim (toLowerCase (text (pre ++ core ++ post))))).
    destruct rgb_text_ends as (body & E & Hl). rewrite E at 1.
    rewrite formatted_around by (reflexivity || exact Hl). rewrite <- E.
    unfold rgb_regex. cbn [seq]. rewrite search_skip.
    + apply rgb_regex_matches_at.
    + apply Forall_drop_spaces. apply Forall_forall. intros x Hx.
      apply list_elem_of_In, in_map_iff in Hx as (y & <- & Hy).
      rewrite Forall_forall in Hr. apply Hr. apply list_elem_of_In. exact Hy.
Qed.

End Inside.

(** ** Upper and lower case *)

Lemma lower_facts (c : ascii) :
  lower (lower c) = lower c /\
  is_space (lower c) = is_space c /\
  digit_value (lower c) = digit_value c /\
  Ascii.eqb (lower c) "-" = Ascii.eqb c "-" /\
  Ascii.eqb (lower c) "+" = Ascii.eqb c "+" /\
  Ascii.eqb (lower c) "0" = Ascii.eqb c "0" /\
  (Ascii.eqb (lower c) "x" || Ascii.eqb (lower c) "X" =
   Ascii.eqb c "x" || Ascii.eqb c "X")%bool.
Proof. all_chars c; vm_compute; repeat split. Qed.

Lemma toLowerCase_cons (c : ascii) (s : string) :
  toLowerCase (String c s) = String (lower c) (toLowerCase s).
Proof. reflexivity. Qed.

Lemma toLowerCase_twice (s : string) : toLowerCase (toLowerCase s) = toLowerCase s.
Proof.
  induction s as [|c s IH]; [reflexivity|].
  rewrite !toLowerCase_cons, IH. f_equal. apply lower_facts.
Qed.

Lemma substring_toLowerCase (s : string) :
  forall n m, String.substring n m (toLowerCase s) = toLowerCase (String.substring n m s).
Proof.
  induction s as [|c s IH]; intros n m.
  - destruct n, m; reflexivity.
  - rewrite toLowerCase_cons. destruct n as [|n].
    + destruct m as [|m]; [reflexivity|]. simpl String.substring.
      rewrite IH, toLowerCase_cons. reflexivity.
    + simpl String.substring. apply IH.
Qed.

Lemma drop_spaces_lower (s : list ascii) :
  drop_spaces (List.map lower s) = List.map lower (drop_spaces s).
Proof.
  induction s as [|c s IH]; [reflexivity|]. simpl.
  rewrite (proj1 (proj2 (lower_facts c))). destruct (is_space c); [exact IH|reflexivity].
Qed.

Lemma digits_lower (radix : N) (s : list ascii) :
  digits radix (List.map lower s) = digits radix s.
Proof.
  induction s as [|c s IH]; [reflexivity|]. simpl.
  rewrite (proj1 (proj2 (proj2 (lower_facts c)))), IH. reflexivity.
Qed.

Lemma strip_hex_prefix_cases (s : list ascii) :
  strip_hex_prefix s =
  match s with
  | c :: x :: s' =>
      if Ascii.eqb c "0"
      then if (Ascii.eqb x "x" || Ascii.eqb x "X")%bool then Some s' else None
      else None
  | _ => None
  end.
Proof.
  destruct s as [|c [|x s']].
  - reflexivity.
  - all_chars c; reflexivity.
  - all_chars c; reflexivity.
Qed.

Lemma strip_hex_prefix_lower (s : list ascii) :
  strip_hex_prefix (List.map lower s) = List.map lower <$> strip_hex_prefix s.
Proof.
  rewrite !strip_hex_prefix_cases. destruct s as [|c [|x s']]; try reflexivity.
  simpl. destruct (lower_facts c) as (_ & _ & _ & _ & _ & -> & _).
  destruct (lower_facts x) as (_ & _ & _ & _ & _ & _ & ->).
  destruct (Ascii.eqb c "0"); [|reflexivity].
  destruct (Ascii.eqb x "x" || Ascii.eqb x "X")%bool; reflexivity.
Qed.

Lemma parseInt_after_sign (s : string) (radix : option N) :
  parseInt s radix =
  match drop_spaces (list_ascii_of_string s) with
  | c :: s' =>
      if Ascii.eqb c "-" then after_sign radix true s'
      else if Ascii.eqb c "+" then after_sign radix false s'
      else after_sign radix false (c :: s')
  | [] => after_sign radix false []
  end.
Proof.
  unfold parseInt.
  destruct (drop_spaces (list_ascii_of_string s)) as [|c s']; [reflexivity|].
  all_chars c; reflexivity.
Qed.


Lemma after_sign_lower (radix : option N) (neg : bool) (s1 : list ascii) :
  after_sign radix neg (List.map lower s1) = after_sign radix neg s1.
Proof.
  unfold after_sign. rewrite strip_hex_prefix_lower.
  destruct (strip_hex_prefix s1) as [s'|]; simpl fmap;
    (destruct radix as [[|p]|];
     [|do 5 (try destruct p as [p|p|])|]; simpl; rewrite ?digits_lower; reflexivity).
Qed.

Lemma parseInt_lower (s : string) (radix : option N) :
  parseInt (toLowerCase s) radix = parseInt s radix.
Proof.
  rewrite !parseInt_after_sign. unfold toLowerCase.
  rewrite list_ascii_of_string_of_list_ascii, drop_spaces_lower.
  destruct (drop_spaces (list_ascii_of_string s)) as [|c s']; [reflexivity|].
  change (List.map lower (c :: s')) with (lower c :: List.map lower s').
  destruct (lower_facts c) as (_ & _ & _ & -> & -> & _).
  destruct (Ascii.eqb c "-"); [apply after_sign_lower|].
  destruct (Ascii.eqb c "+"); [apply after_sign_lower|].
  apply (after_sign_lower radix false (c :: s')).
Qed.

(** X22. The case of the letters does not matter: a text and its
    lower-case form give the same result, the same channels or the
    same error.  (The hexadecimal digits are cut from the text as it
    was passed, in its own case; [parseInt] reads both cases alike.) *)
Theorem case_does_not_matter (color : string) :
  extractColorAsRgb (toLowerCase color) = extractColorAsRgb color.
Proof.
  unfold extractColorAsRgb. rewrite toLowerCase_twice.
  unfold substring. rewrite !substring_toLowerCase, !parseInt_lower. reflexivity.
Qed.

(** ** The theorems at sample texts *)

Lemma rgb_accepted_witness :
  extractColorAsRgb "rgb (1 , 22, 333 )" = Return (rgb 1 22 333).
Proof.
  exact (rgb_accepted [" "%char] ["1"%char] [" "%char] [" "%char] ["2"; "2"]%char []
           [" "%char] ["3"; "3"; "3"]%char [" "%char]
           eq_refl eq_refl eq_refl eq_refl eq_refl eq_refl eq_refl eq_refl eq_refl).
Defined.

Lemma four_channels_accepted_witness :
  extractColorAsRgb "rgb(10,20,30,5)" = Return (rgba 10 20 30 5).
Proof.
  exact (four_channels_accepted [] ["1"; "0"]%char [] [] ["2"; "0"]%char [] []
           ["3"; "0"]%char [] ["5"%char] []
           eq_refl eq_refl eq_refl eq_refl eq_refl eq_refl eq_refl
           eq_refl eq_refl eq_refl eq_refl).
Defined.

Lemma hex_accepted_witness :
  extractColorAsRgb "#Ff00aB  " = Return (rgb 255 0 171).
Proof.
  assert (Ht : Forall (fun x => is_space x = true) [" "; " "]%char)
    by (repeat constructor).
  exact (hex_accepted "F" "f" "0" "0" "a" "B" [" "; " "]%char
           eq_refl eq_refl eq_refl eq_refl eq_refl eq_refl Ht).
Defined.

Lemma hex_after_space_witness :
  exists c, extractColorAsRgb "  #ff0000" = Return c /\ r c = NaN.
Proof.
  assert (Hl : Forall (fun x => is_space x = true) [" "; " "]%char)
    by (repeat constructor).
  assert (Ht : Forall (fun x => is_space x = true) (@nil ascii)) by constructor.
  assert (Hn : [" "; " "]%char <> []) by discriminate.
  exact (hex_after_space "f" "f" "0" "0" "0" "0" [" "; " "]%char []
           eq_refl eq_refl eq_refl eq_refl eq_refl eq_refl Hl Ht Hn).
Defined.

Lemma hex_shifted_witness :
  extractColorAsRgb " #ff0000" =
  Return {| r := NaN; g := Num 240; b := Num 0; a := None |}.
Proof.
  assert (Ht : Forall (fun x => is_space x = true) (@nil ascii)) by constructor.
  exact (hex_shifted " " "f" "f" "0" "0" "0" "0" []
           eq_refl eq_refl eq_refl eq_refl eq_refl eq_refl eq_refl Ht).
Defined.

Lemma hex_needs_six_digits_witness :
  occurrences "(" (chars "#fff") = 0 /\
  length (chars (trim (toLowerCase "#fff"))) <> 7 /\
  extractColorAsRgb "#fff" = Throw not_recognized.
Proof.
  assert (Hp : occurrences "(" (chars "#fff") = 0) by reflexivity.
  assert (Hl : length (chars (trim (toLowerCase "#fff"))) <> 7)
    by (vm_compute; lia).
  split; [exact Hp|]. split; [exact Hl|].
  apply (hex_needs_six_digits "#fff" Hp Hl).
Defined.

Lemma rejected_without_punctuation_witness :
  occurrences "#" (chars "rgb 10 20 30") = 0 /\
  occurrences "," (chars "rgb 10 20 30") < 2 /\
  extractColorAsRgb "rgb 10 20 30" = Throw not_recognized.
Proof.
  assert (Hh : occurrences "#" (chars "rgb 10 20 30") = 0) by reflexivity.
  assert (Hc : occurrences "," (chars "rgb 10 20 30") < 2) by (vm_compute; lia).
  split; [exact Hh|]. split; [exact Hc|].
  apply (rejected_without_punctuation "rgb 10 20 30" Hh (or_introl Hc)).
Defined.

Lemma alpha_needs_three_commas_witness :
  extractColorAsRgb "rgb(1,2,3,4)" = Return (rgba 1 2 3 4) /\
  3 <= occurrences "," (chars "rgb(1,2,3,4)").
Proof.
  assert (Hr : extractColorAsRgb "rgb(1,2,3,4)" = Return (rgba 1 2 3 4))
    by (vm_compute; reflexivity).
  assert (Ha : a (rgba 1 2 3 4) <> None) by discriminate.
  split; [exact Hr|].
  apply (alpha_needs_three_commas "rgb(1,2,3,4)" (rgba 1 2 3 4) Hr Ha).
Defined.

Lemma rgb_found_inside_witness :
  extractColorAsRgb "fill=rgb(1,2,3);" = Return (rgb 1 2 3).
Proof.
  assert (Hr : Forall (fun x => Ascii.eqb (lower x) "r" = false) (chars "fill="))
    by (repeat constructor).
  assert (Hpre : occurrences "," (chars "fill=") = 0) by reflexivity.
  assert (Hpost : occurrences "," (chars ";") = 0) by reflexivity.
  exact (rgb_found_inside [] ["1"%char] [] [] ["2"%char] [] [] ["3"%char] []
           eq_refl eq_refl eq_refl eq_refl eq_refl eq_refl eq_refl eq_refl eq_refl
           (chars "fill=") (chars ";") Hr Hpre Hpost).
Defined.

End ColorTextFacts.

(* ===================================================================== *)
(** * Runs of the animation loop *)
(* ===================================================================== *)

Module RunFacts.
Import Animation AnimationFacts Runs.
#[local] Open Scope Q_scope.

(** ** What a pass records *)

Lemma Forall_since_trans (P : event -> Prop) (w1 w2 w3 : World) :
  grows w1 w2 -> grows w2 w3 ->
  Forall P (since w1 w2) -> Forall P (since w2 w3) -> Forall P (since w1 w3).
Proof.
  intros G12 G23 F12 F23. rewrite (since_trans _ _ _ G12 G23).
  apply Forall_app. split; assumption.
Qed.

Lemma perform_grows (w : World) (a : action) : grows w (perform w a).
Proof. apply (extends_grows _ _ _ (perform_extends (FuncResult.make ∅ 0) w a)). Qed.

Lemma perform_settled (st : FuncResult.t) (w : World) (a : action) :
  Forall (settled st) (since w (perform w a)).
Proof.
  destruct a as [name body|i]; cbn [perform].
  - rewrite subscribe_since. repeat constructor.
  - rewrite unsubscribe_since. repeat constructor.
Qed.

Lemma fold_perform_settled (st : FuncResult.t) (body : list action) :
  forall w, Forall (settled st) (since w (fold_left perform body w)).
Proof.
  induction body as [|a body IH]; intros w; simpl.
  - rewrite since_refl. constructor.
  - apply (Forall_since_trans _ w (perform w a)).
    + apply perform_grows.
    + apply (extends_grows _ _ _ (fold_perform_extends st body (perform w a))).
    + apply perform_settled.
    + apply IH.
Qed.

Lemma call_settled (cb : TAnimationIteratorListenerCallback) (st : FuncResult.t)
    (w : World) :
  Forall (settled st) (since w (call cb st w)).
Proof.
  destruct cb as [name body|slot p]; simpl.
  - apply fold_perform_settled.
  - destruct (Qeq_bool (FuncResult.progress st) 1) eqn:E.
    + assert (H : since w (resolve p st (unsubscribe slot w)) =
                  [Unsubscribed slot; Resolved p st]).
      { apply since_app. simpl. rewrite <- app_assoc. reflexivity. }
      rewrite H. repeat constructor. exact E.
    + rewrite since_refl. constructor.
Qed.

Lemma visit_settled (k : nat) (st : FuncResult.t) (w : World) :
  Forall (settled st) (since w (visit k st w)).
Proof.
  unfold visit. destruct (listeners (self w) !! k) as [[l|]|] eqn:E;
    try (rewrite since_refl; constructor).
  apply (Forall_since_trans _ w (record (Notified k (callback l) st) w)).
  - apply record_grows.
  - apply call_grows.
  - rewrite record_since. repeat constructor.
  - apply call_settled.
Qed.

Lemma visit_grows (k : nat) (st : FuncResult.t) (w : World) : grows w (visit k st w).
Proof. apply (extends_grows _ _ _ (visit_extends k st w)). Qed.

Lemma forEach_from_settled (st : FuncResult.t) (n : nat) :
  forall k w, Forall (settled st) (since w (forEach_from k n st w)).
Proof.
  induction n as [|n IH]; intros k w; simpl.
  - rewrite since_refl. constructor.
  - apply (Forall_since_trans _ w (visit k st w)).
    + apply visit_grows.
    + apply forEach_from_grows.
    + apply visit_settled.
    + apply IH.
Qed.

Lemma notify_settled (st : FuncResult.t) (w : World) :
  Forall (settled st) (since w (notify st w)).
Proof. apply forEach_from_settled. Qed.


(** ** One frame *)

(** The world a frame callback runs in: the callback has left the queue. *)
Lemma frame_next (i : any) (rest : list any) (c : Q * Q) (w : World) :
  frames w = i :: rest ->
  frame c w =
  next i (fst c) (snd c)
    {| self := self w; frames := rest; promises := promises w; log := log w |}.
Proof. intros H. unfold frame. rewrite H. reflexivity. Qed.

Lemma frame_idle (c : Q * Q) (w : World) : frames w = [] -> frame c w = w.
Proof. intros H. unfold frame. rewrite H. reflexivity. Qed.

(** A frame changes neither the arguments, the interval, the rate nor
    the update function. *)
Lemma frame_config (c : Q * Q) (w : World) :
  args (self (frame c w)) = args (self w) /\
  interval (self (frame c w)) = interval (self w) /\
  rate (self (frame c w)) = rate (self w) /\
  func (self (frame c w)) = func (self w).
Proof.
  destruct (frames w) as [|i rest] eqn:E.
  - rewrite (frame_idle c w E). auto.
  - rewrite (frame_next i rest c w E). unfold next.
    destruct (tick_due _ _); [|simpl; auto].
    rewrite tick_self. simpl. auto.
Qed.

Lemma run_config (clocks : list (Q * Q)) :
  forall w,
  args (self (run clocks w)) = args (self w) /\
  interval (self (run clocks w)) = interval (self w) /\
  rate (self (run clocks w)) = rate (self w) /\
  func (self (run clocks w)) = func (self w).
Proof.
  induction clocks as [|c clocks IH]; intros w; [simpl; auto|].
  change (run (c :: clocks) w) with (run clocks (frame c w)).
  destruct (IH (frame c w)) as (H1 & H2 & H3 & H4).
  destruct (frame_config c w) as (F1 & F2 & F3 & F4).
  rewrite H1, H2, H3, H4. auto.
Qed.

Lemma run_cons (c : Q * Q) (clocks : list (Q * Q)) (w : World) :
  run (c :: clocks) w = run clocks (frame c w).
Proof. reflexivity. Qed.

Lemma since_run_cons (c : Q * Q) (clocks : list (Q * Q)) (w : World) :
  since w (run (c :: clocks) w) =
  since w (frame c w) ++ since (frame c w) (run clocks (frame c w)).
Proof. rewrite run_cons. apply since_trans; [apply frame_grows|apply run_grows]. Qed.

(** The events of an accepted tick: the update, what the pass records,
    and the frame request unless the state is complete. *)
Lemma tick_events (i : any) (now' : Q) (w : World) :
  exists pass,
    since w (tick i now' w) =
    Updated i (time (self w) + interval (self w)) (next_state i w) :: pass ++
    (if Qle_bool 1 (FuncResult.progress (next_state i w)) then []
     else [FrameRequested i]) /\
    Forall (settled (next_state i w)) pass.
Proof.
  eexists. split; [apply tick_since|]. apply notify_settled.
Qed.

(** ** A promise is resolved with a complete state only *)

Lemma accounted_app (evs1 evs2 : list event) :
  accounted evs1 -> accounted evs2 -> accounted (evs1 ++ evs2).
Proof.
  intros H1 H2 p st Hin. apply elem_of_app in Hin as [Hin|Hin].
  - destruct (H1 p st Hin) as (Hp & i & t & Hu).
    split; [exact Hp|]. exists i, t. apply elem_of_app. left. exact Hu.
  - destruct (H2 p st Hin) as (Hp & i & t & Hu).
    split; [exact Hp|]. exists i, t. apply elem_of_app. right. exact Hu.
Qed.

Lemma tick_accounted (i : any) (now' : Q) (w : World) :
  accounted (since w (tick i now' w)).
Proof.
  destruct (tick_events i now' w) as (pass & -> & F).
  intros p st Hin.
  apply elem_of_cons in Hin as [Hin|Hin]; [discriminate Hin|].
  apply elem_of_app in Hin as [Hin|Hin].
  - rewrite Forall_forall in F. specialize (F _ Hin). simpl in F.
    destruct F as (-> & Hq). split; [apply Qeq_bool_true; exact Hq|].
    eexists _, _. apply elem_of_cons. left. reflexivity.
  - destruct (Qle_bool 1 _).
    + apply elem_of_nil in Hin. contradiction.
    + apply list_elem_of_singleton in Hin. discriminate Hin.
Qed.

Lemma frame_accounted (c : Q * Q) (w : World) : accounted (since w (frame c w)).
Proof.
  destruct (frames w) as [|i rest] eqn:E.
  - rewrite (frame_idle c w E), since_refl. intros p st Hin.
    apply elem_of_nil in Hin. contradiction.
  - rewrite (frame_next i rest c w E). unfold next.
    set (w0 := {| self := self w; frames := rest; promises := promises w; log := log w |}).
    change (since w) with (since w0).
    destruct (tick_due _ _).
    + apply tick_accounted.
    + rewrite requestAnimationFrame_since. intros p st Hin.
      apply list_elem_of_singleton in Hin. discriminate Hin.
Qed.

(** X13. Whatever the listeners do and however the frames are timed,
    [resolve] is only ever called with a state whose progress is 1,
    and that state is the clamped result of an update of the same run. *)
Theorem resolved_only_complete (clocks : list (Q * Q)) :
  forall (w : World) (p : nat) (st : FuncResult.t),
  Resolved p st ∈ since w (run clocks w) ->
  FuncResult.progress st == 1 /\
  exists i t, Updated i t st ∈ since w (run clocks w).
Proof.
  induction clocks as [|c clocks IH]; intros w.
  - simpl. rewrite since_refl. intros p st Hin. apply elem_of_nil in Hin. contradiction.
  - rewrite since_run_cons. apply accounted_app.
    + apply frame_accounted.
    + exact (IH (frame c w)).
Qed.


(** ** An update function that never reaches 1 *)

Lemma settled_running (st : FuncResult.t) (evs : list event) :
  FuncResult.progress st < 1 ->
  Forall (settled st) evs -> omap resolved_state evs = [].
Proof.
  intros Hlt F. induction F as [|e evs He _ IH]; [reflexivity|].
  destruct e; simpl in *; try exact IH.
  destruct He as (_ & Hq). apply Qeq_bool_true in Hq. rewrite Hq in Hlt.
  exfalso. apply (Qlt_irrefl 1 Hlt).
Qed.

Lemma tick_running (i : any) (now' : Q) (w : World) :
  FuncResult.progress (func (self w) i (time (self w) + interval (self w))) < 1 ->
  omap resolved_state (since w (tick i now' w)) = [] /\
  frames (tick i now' w) = frames w ++ [i] /\
  progress (self (tick i now' w)) < 1.
Proof.
  intros Hlt.
  assert (Hst : next_state i w = func (self w) i (time (self w) + interval (self w)))
    by (apply clamp_lt_1; exact Hlt).
  assert (Hl : Qle_bool 1 (FuncResult.progress (next_state i w)) = false)
    by (rewrite Hst; apply Qle_bool_false; exact Hlt).
  split; [|split].
  - destruct (tick_events i now' w) as (pass & -> & F). rewrite Hl.
    simpl. rewrite omap_app. rewrite (settled_running (next_state i w)).
    + reflexivity.
    + rewrite Hst. exact Hlt.
    + exact F.
  - rewrite tick_frames, Hl. reflexivity.
  - destruct (tick_fields i now' w) as (_ & _ & _ & _ & _ & ->). rewrite Hst. exact Hlt.
Qed.

(** X14. With an update function whose progress stays below 1 the
    animation never ends: no promise is ever resolved, every frame
    callback that runs is requested again, and the stored progress
    stays below 1. *)
Theorem never_complete_never_resolves (clocks : list (Q * Q)) :
  forall w : World,
  (forall i t, FuncResult.progress (func (self w) i t) < 1) ->
  omap resolved_state (since w (run clocks w)) = [] /\
  length (frames (run clocks w)) = length (frames w) /\
  (progress (self w) < 1 -> progress (self (run clocks w)) < 1).
Proof.
  induction clocks as [|c clocks IH]; intros w Hf.
  - simpl. rewrite since_refl. auto.
  - rewrite since_run_cons, run_cons, omap_app.
    assert (Hf' : forall i t, FuncResult.progress (func (self (frame c w)) i t) < 1).
    { destruct (frame_config c w) as (_ & _ & _ & ->). exact Hf. }
    destruct (IH (frame c w) Hf') as (R & L & P). rewrite R, L, app_nil_r.
    destruct (frames w) as [|i rest] eqn:E.
    + rewrite (frame_idle c w E) in *. rewrite since_refl, E. auto.
    + rewrite (frame_next i rest c w E) in *. unfold next in *.
      set (w0 := {| self := self w; frames := rest; promises := promises w;
                    log := log w |}) in *.
      change (since w) with (since w0).
      destruct (tick_due _ _).
      * destruct (tick_running i (snd c) w0 (Hf i _)) as (R1 & F1 & P1).
        rewrite R1, F1, length_app. simpl. split; [reflexivity|].
        split; [lia|]. intros _. apply P. exact P1.
      * rewrite requestAnimationFrame_since. simpl. rewrite length_app. simpl.
        split; [reflexivity|]. split; [lia|]. exact P.
Qed.

(** ** The rate bounds the ticks *)

Lemma frame_throttled (c : Q * Q) (w : World) :
  0 < rate (self w) -> forward c ->
  inject_Z (Z.of_nat (ticks (since w (frame c w)))) * (1000 / rate (self w)) <=
  lastTick (self (frame c w)) - lastTick (self w).
Proof.
  intros Hr Hc. destruct (frames w) as [|i rest] eqn:E.
  - rewrite (frame_idle c w E), since_refl. change (inject_Z (Z.of_nat (ticks []))) with 0. lra.
  - rewrite (frame_next i rest c w E). unfold next.
    set (w0 := {| self := self w; frames := rest; promises := promises w; log := log w |}).
    change (since w) with (since w0).
    destruct (tick_due (fst c) (self w0)) eqn:D.
    + apply tick_due_true in D as (_ & D). rewrite ticks_tick.
      destruct (tick_fields i (snd c) w0) as (_ & _ & _ & _ & -> & _).
      change (lastTick (self w0)) with (lastTick (self w)) in D.
      change (rate (self w0)) with (rate (self w)) in D.
      unfold forward in Hc. change (inject_Z (Z.of_nat 1)) with 1. lra.
    + rewrite requestAnimationFrame_since.
      change (inject_Z (Z.of_nat (ticks [FrameRequested i]))) with 0.
      change (lastTick (self (requestAnimationFrame i w0))) with (lastTick (self w)). lra.
Qed.

(** X9. For a positive rate and a clock that does not go back between
    the two readings of a call, accepted ticks are at least
    [1000 / rate] milliseconds apart: [n] accepted ticks move
    [lastTick] forward by at least [n * 1000 / rate], however many
    frames are pending and however often the host calls them. *)
Theorem ticks_throttled (clocks : list (Q * Q)) :
  forall w : World,
  0 < rate (self w) ->
  Forall forward clocks ->
  inject_Z (Z.of_nat (ticks (since w (run clocks w)))) * (1000 / rate (self w)) <=
  lastTick (self (run clocks w)) - lastTick (self w).
Proof.
  induction clocks as [|c clocks IH]; intros w Hr Hc.
  - simpl. rewrite since_refl. change (inject_Z (Z.of_nat (ticks []))) with 0. lra.
  - apply Forall_cons in Hc as (Hc & Hcs).
    rewrite since_run_cons, run_cons, ticks_app, Nat2Z.inj_add, inject_Z_plus.
    pose proof (frame_throttled c w Hr Hc) as H1.
    destruct (frame_config c w) as (_ & _ & Hrate & _).
    assert (Hr' : 0 < rate (self (frame c w))) by (rewrite Hrate; exact Hr).
    pose proof (IH (frame c w) Hr' Hcs) as H2. rewrite Hrate in H2.
    rewrite Qmult_plus_distr_l. lra.
Qed.

(** ** Pending frames *)

Lemma frame_frames (c : Q * Q) (w : World) :
  (length (frames (frame c w)) <= length (frames w))%nat.
Proof.
  destruct (frames w) as [|i rest] eqn:E.
  - rewrite (frame_idle c w E), E. reflexivity.
  - rewrite (frame_next i rest c w E). unfold next. destruct (tick_due _ _).
    + rewrite tick_frames, length_app. simpl. destruct (Qle_bool 1 _); simpl; lia.
    + simpl. rewrite length_app. simpl. lia.
Qed.

(** X11. A frame callback requests at most one frame, so running
    frames never increases the number of pending frame callbacks. *)
Theorem frames_never_grow (clocks : list (Q * Q)) :
  forall w : World, (length (frames (run clocks w)) <= length (frames w))%nat.
Proof.
  induction clocks as [|c clocks IH]; intros w; [reflexivity|].
  rewrite run_cons. etransitivity; [apply IH|apply frame_frames].
Qed.


(** ** Frames that come too early *)

(** X10. Frames that all come before [1000 / rate] milliseconds have
    passed since [lastTick], or any frames when the rate is zero
    ([1000 / rate] is [Infinity]), leave every field of the iterator
    as it is: no update, no notification, no resolution; each frame
    callback that runs is only requested again. *)
Theorem run_too_early (clocks : list (Q * Q)) :
  forall w : World,
  Forall (too_early (self w)) clocks ->
  self (run clocks w) = self w /\
  ticks (since w (run clocks w)) = 0%nat /\
  omap notification (since w (run clocks w)) = [] /\
  omap resolved_state (since w (run clocks w)) = [] /\
  length (frames (run clocks w)) = length (frames w).
Proof.
  induction clocks as [|c clocks IH]; intros w Hc.
  - change (run [] w) with w. rewrite since_refl. auto.
  - apply Forall_cons in Hc as (Hc & Hcs).
    rewrite since_run_cons, run_cons, ticks_app, !omap_app.
    assert (H1 : self (frame c w) = self w /\
                 ticks (since w (frame c w)) = 0%nat /\
                 omap notification (since w (frame c w)) = [] /\
                 omap resolved_state (since w (frame c w)) = [] /\
                 length (frames (frame c w)) = length (frames w)).
    { destruct (frames w) as [|i rest] eqn:E.
      - rewrite (frame_idle c w E), since_refl, E. auto.
      - rewrite (frame_next i rest c w E). unfold next.
        set (w0 := {| self := self w; frames := rest; promises := promises w;
                      log := log w |}).
        change (since w) with (since w0).
        apply tick_due_false in Hc. change (self w) with (self w0) in Hc.
        rewrite Hc, requestAnimationFrame_since. simpl. rewrite length_app. simpl.
        repeat split. lia. }
    destruct H1 as (S1 & T1 & N1 & R1 & F1).
    rewrite <- S1 in Hcs. destruct (IH (frame c w) Hcs) as (S2 & T2 & N2 & R2 & F2).
    rewrite S2, T2, N2, R2, F2, T1, N1, R1. auto.
Qed.

(** ** The registry *)

Lemma free_slot_app_None (ls : slots) :
  free_slot ls = None -> free_slot (ls ++ [None]) = Some (length ls).
Proof.
  induction ls as [|[l|] ls IH]; simpl; intros H.
  - reflexivity.
  - destruct (free_slot ls); [discriminate|]. rewrite IH by reflexivity. reflexivity.
  - discriminate.
Qed.

Lemma active_app (ls1 ls2 : slots) : active (ls1 ++ ls2) = active ls1 ++ active ls2.
Proof. apply omap_app. Qed.

(** X15. [subscribe] followed by the closure it returned gives the
    registry back, but for one hole at the end when the listener had
    been appended: the listeners are the same, and the next
    [subscribe] gets the same slot again. *)
Theorem subscribe_then_unsubscribe (cb : TAnimationIteratorListenerCallback) (w : World) :
  let ls := listeners (self w) in
  let ls' := listeners (self (unsubscribe (snd (subscribe cb w)) (fst (subscribe cb w)))) in
  (ls' = ls \/ ls' = ls ++ [None]) /\
  active ls' = active ls /\
  subscribe_slot ls' = subscribe_slot ls.
Proof.
  intros ls ls'.
  assert (E : ls' = <[subscribe_slot ls := None]> (subscribe_slots cb ls)) by reflexivity.
  unfold subscribe_slot, subscribe_slots in E.
  destruct (free_slot ls) as [i|] eqn:F.
  - assert (Hls : ls' = ls).
    { rewrite E, list_insert_insert_eq. apply list_insert_id.
      apply (free_slot_Some _ _ F). }
    rewrite Hls. auto.
  - assert (Hls : ls' = ls ++ [None]).
    { rewrite E, insert_app_r_alt by lia. rewrite Nat.sub_diag. reflexivity. }
    rewrite Hls. split; [right; reflexivity|]. split.
    + rewrite active_app. apply app_nil_r.
    + unfold subscribe_slot. rewrite (free_slot_app_None _ F), F. reflexivity.
Qed.

(** ** An empty registry *)

Lemma run_unheard (clocks : list (Q * Q)) :
  forall w : World,
  listeners (self w) = [] ->
  listeners (self (run clocks w)) = [] /\
  omap notification (since w (run clocks w)) = [] /\
  omap resolved_state (since w (run clocks w)) = [].
Proof.
  induction clocks as [|c clocks IH]; intros w Hl.
  - change (run [] w) with w. rewrite since_refl. auto.
  - rewrite since_run_cons, run_cons, !omap_app.
    assert (H1 : listeners (self (frame c w)) = [] /\
                 omap notification (since w (frame c w)) = [] /\
                 omap resolved_state (since w (frame c w)) = []).
    { destruct (frames w) as [|i rest] eqn:E.
      - rewrite (frame_idle c w E), since_refl. auto.
      - rewrite (frame_next i rest c w E). unfold next.
        set (w0 := {| self := self w; frames := rest; promises := promises w;
                      log := log w |}).
        change (since w) with (since w0).
        destruct (tick_due _ _).
        + assert (Hn : notify (next_state i w0) (advanced i (snd c) w0) =
                       advanced i (snd c) w0).
          { unfold notify. rewrite advanced_self. simpl.
            change (listeners (self w0)) with (listeners (self w)). rewrite Hl.
            reflexivity. }
          split; [|split].
          * rewrite tick_listeners, Hn. exact Hl.
          * rewrite tick_since. cbv zeta. rewrite Hn, since_refl. simpl.
            destruct (Qle_bool 1 _); reflexivity.
          * rewrite tick_since. cbv zeta. rewrite Hn, since_refl. simpl.
            destruct (Qle_bool 1 _); reflexivity.
        + rewrite requestAnimationFrame_since. simpl. auto. }
    destruct H1 as (L1 & N1 & R1). destruct (IH (frame c w) L1) as (L2 & N2 & R2).
    rewrite L2, N1, N2, R1, R2. auto.
Qed.

(** X18. After [resetListeners] or [resetAll] the registry is empty,
    the one-shot listener of a pending [start] included: frames that
    are still pending go on ticking, but nobody is notified and no
    promise is resolved. *)
Theorem resetListeners_orphans_promises (clocks : list (Q * Q)) (w : World) :
  (omap notification (since (resetListeners w) (run clocks (resetListeners w))) = [] /\
   omap resolved_state (since (resetListeners w) (run clocks (resetListeners w))) = []) /\
  (omap notification (since (resetAll w) (run clocks (resetAll w))) = [] /\
   omap resolved_state (since (resetAll w) (run clocks (resetAll w))) = []).
Proof.
  split.
  - apply (run_unheard clocks (resetListeners w)). reflexivity.
  - apply (run_unheard clocks (resetAll w)). reflexivity.
Qed.


(** ** [start] cleans up after itself *)

Lemma cleared_subscription (cb : TAnimationIteratorListenerCallback) (ls : slots) :
  let ls' := <[subscribe_slot ls := None]> (subscribe_slots cb ls) in
  (ls' = ls \/ ls' = ls ++ [None]) /\ active ls' = active ls.
Proof.
  cbv zeta. unfold subscribe_slot, subscribe_slots.
  destruct (free_slot ls) as [i|] eqn:F.
  - assert (Hls : <[i := None]> (<[i := Some {| callback := cb |}]> ls) = ls).
    { rewrite list_insert_insert_eq. apply list_insert_id. apply (free_slot_Some _ _ F). }
    rewrite Hls. auto.
  - assert (Hls : <[length ls := None]> (ls ++ [Some {| callback := cb |}]) =
                  ls ++ [None]).
    { rewrite insert_app_r_alt by lia. rewrite Nat.sub_diag. reflexivity. }
    rewrite Hls. split; [right; reflexivity|]. rewrite active_app. apply app_nil_r.
Qed.

Lemma forEach_from_calm (st : FuncResult.t) (n : nat) :
  forall (k : nat) (w : World),
  (forall j l, (k <= j < k + n)%nat -> listeners (self w) !! j = Some (Some l) ->
     passive (callback l)) ->
  listeners (self (forEach_from k n st w)) = listeners (self w).
Proof.
  induction n as [|n IH]; intros k w Hp; [reflexivity|].
  change (forEach_from k (S n) st w) with (forEach_from (S k) n st (visit k st w)).
  assert (Hv : listeners (self (visit k st w)) = listeners (self w)).
  { unfold visit. destruct (listeners (self w) !! k) as [[l|]|] eqn:E; try reflexivity.
    rewrite call_passive; [reflexivity|]. apply (Hp k l); [lia|exact E]. }
  rewrite IH; [exact Hv|].
  intros j l Hj Hl. rewrite Hv in Hl. apply (Hp j l); [lia|exact Hl].
Qed.

Lemma visit_start (s p : nat) (st : FuncResult.t) (w : World) :
  listeners (self w) !! s = Some (Some {| callback := StartCallback s p |}) ->
  listeners (self (visit s st w)) =
  if Qeq_bool (FuncResult.progress st) 1 then <[s := None]> (listeners (self w))
  else listeners (self w).
Proof.
  intros H. unfold visit. rewrite H. simpl.
  destruct (Qeq_bool (FuncResult.progress st) 1); reflexivity.
Qed.

Lemma notify_lone (s p : nat) (st : FuncResult.t) (w : World) :
  lone_start s p (listeners (self w)) ->
  listeners (self (notify st w)) =
  if Qeq_bool (FuncResult.progress st) 1 then <[s := None]> (listeners (self w))
  else listeners (self w).
Proof.
  intros (Hs & Hp). unfold notify.
  assert (Hlen : (s < length (listeners (self w)))%nat)
    by (apply lookup_lt_Some in Hs; exact Hs).
  replace (length (listeners (self w)))
    with (s + S (length (listeners (self w)) - S s))%nat by lia.
  rewrite forEach_from_app. simpl.
  set (w1 := forEach_from 0 s st w).
  assert (H1 : listeners (self w1) = listeners (self w)).
  { apply forEach_from_calm. intros j l Hj Hl. apply (Hp j l); [lia|exact Hl]. }
  assert (H2 : listeners (self (visit s st w1)) =
               if Qeq_bool (FuncResult.progress st) 1
               then <[s := None]> (listeners (self w))
               else listeners (self w)).
  { rewrite (visit_start s p) by (rewrite H1; exact Hs). rewrite H1. reflexivity. }
  rewrite forEach_from_calm; [exact H2|].
  intros j l Hj Hl. rewrite H2 in Hl. apply (Hp j l); [lia|].
  destruct (Qeq_bool (FuncResult.progress st) 1); [|exact Hl].
  rewrite list_lookup_insert_ne in Hl by lia. exact Hl.
Qed.

Lemma passive_spares (s p : nat) (cb : TAnimationIteratorListenerCallback) :
  passive cb -> spares s p cb.
Proof.
  destruct cb as [name body|s' p']; simpl; [|tauto].
  intros H st. rewrite H. constructor.
Qed.

Lemma lone_start_armed (s p : nat) (ls : slots) : lone_start s p ls -> armed s p ls.
Proof.
  intros (Hs & Hp). split; [exact Hs|].
  intros j l Hj Hl. apply passive_spares. apply (Hp j l Hj Hl).
Qed.

Lemma lone_start_cleared (s p : nat) (ls : slots) :
  lone_start s p ls -> every_listener passive (<[s := None]> ls).
Proof.
  intros (Hs & Hp). unfold every_listener. apply Forall_lookup. intros j x Hx.
  destruct (decide (j = s)) as [->|Hj].
  - rewrite list_lookup_insert_eq in Hx by (apply lookup_lt_Some in Hs; exact Hs).
    injection Hx as <-. exact I.
  - rewrite list_lookup_insert_ne in Hx by congruence.
    destruct x as [l|]; [|exact I]. apply (Hp j l Hj Hx).
Qed.

Lemma run_passive (clocks : list (Q * Q)) :
  forall w : World,
  every_listener passive (listeners (self w)) ->
  listeners (self (run clocks w)) = listeners (self w).
Proof.
  induction clocks as [|c clocks IH]; intros w Hp; [reflexivity|].
  rewrite run_cons.
  assert (H1 : listeners (self (frame c w)) = listeners (self w)).
  { destruct (frames w) as [|i rest] eqn:E.
    - rewrite (frame_idle c w E). reflexivity.
    - rewrite (frame_next i rest c w E). unfold next.
      set (w0 := {| self := self w; frames := rest; promises := promises w;
                    log := log w |}).
      destruct (tick_due _ _).
      + rewrite tick_listeners.
        apply (proj2 (notify_passive (next_state i w0) (advanced i (snd c) w0) Hp)).
      + reflexivity. }
  rewrite IH; [exact H1|]. rewrite H1. exact Hp.
Qed.

(** The registry and the promise go together: as long as the promise
    is pending the registry is as [start] left it, and from the
    resolution on the slot of the one-shot listener is empty. *)
Lemma run_lone (s p : nat) (clocks : list (Q * Q)) :
  forall w : World,
  lone_start s p (listeners (self w)) ->
  (resolutions p (since w (run clocks w)) = [] /\
   listeners (self (run clocks w)) = listeners (self w)) \/
  (resolutions p (since w (run clocks w)) <> [] /\
   listeners (self (run clocks w)) = <[s := None]> (listeners (self w))).
Proof.
  induction clocks as [|c clocks IH]; intros w Hl.
  - left. change (run [] w) with w. rewrite since_refl. auto.
  - rewrite since_run_cons, run_cons, resolutions_app.
    assert (Hkeep : resolutions p (since w (frame c w)) = [] ->
                    listeners (self (frame c w)) = listeners (self w) ->
                    (resolutions p (since w (frame c w)) ++
                     resolutions p (since (frame c w) (run clocks (frame c w))) = [] /\
                     listeners (self (run clocks (frame c w))) = listeners (self w)) \/
                    (resolutions p (since w (frame c w)) ++
                     resolutions p (since (frame c w) (run clocks (frame c w))) <> [] /\
                     listeners (self (run clocks (frame c w))) =
                     <[s := None]> (listeners (self w)))).
    { intros R1 L1. rewrite R1. simpl. rewrite <- L1. apply IH. rewrite L1. exact Hl. }
    destruct (frames w) as [|i rest] eqn:E.
    + apply Hkeep; rewrite (frame_idle c w E); [rewrite since_refl|]; reflexivity.
    + rewrite (frame_next i rest c w E) in *. unfold next in *.
      set (w0 := {| self := self w; frames := rest; promises := promises w;
                    log := log w |}) in *.
      change (since w) with (since w0) in *.
      change (listeners (self w)) with (listeners (self w0)) in *.
      destruct (tick_due _ _).
      * pose proof (lone_start_armed s p _ Hl) as Ha.
        destruct (Qle_bool 1 (FuncResult.progress
                                (func (self w0) i (time (self w0) + interval (self w0)))))
          eqn:Q.
        -- right. apply Qle_bool_true in Q.
           destruct (tick_armed_complete s p i (snd c) w0 Ha Q) as (R1 & P1 & _).
           rewrite R1. split; [discriminate|].
           assert (L1 : listeners (self (tick i (snd c) w0)) =
                        <[s := None]> (listeners (self w0))).
           { rewrite tick_listeners, (notify_lone s p) by exact Hl.
             change (listeners (self (advanced i (snd c) w0)))
               with (listeners (self w0)).
             cbv zeta in P1. rewrite P1. reflexivity. }
           rewrite run_passive; [exact L1|]. rewrite L1.
           apply (lone_start_cleared s p). exact Hl.
        -- apply Qle_bool_false in Q.
           destruct (tick_armed_running s p i (snd c) w0 Ha Q) as (R1 & _).
           apply Hkeep; [exact R1|].
           rewrite tick_listeners, (notify_lone s p) by exact Hl.
           change (listeners (self (advanced i (snd c) w0))) with (listeners (self w0)).
           unfold next_state. rewrite (clamp_lt_1 _ Q).
           destruct (Qeq_bool _ 1) eqn:Q1; [|reflexivity].
           apply Qeq_bool_true in Q1. rewrite Q1 in Q.
           exfalso. apply (Qlt_irrefl 1 Q).
      * apply Hkeep; [|reflexivity]. rewrite requestAnimationFrame_since. reflexivity.
Qed.

(** X16. [start] on an iterator whose listeners are passive: as long
    as the promise is pending the registry is as [start] left it, and
    once the promise is resolved the registry is the one from before
    [start], but for one hole at the end when the one-shot listener
    had been appended; the listeners are those from before. *)
Theorem start_leaves_no_listener (w0 : World) (initialState : any)
    (clocks : list (Q * Q)) :
  let p := snd (start initialState w0) in
  let w1 := fst (start initialState w0) in
  let w' := run clocks w1 in
  every_listener passive (listeners (self w0)) ->
  (resolutions p (since w1 w') = [] /\
   listeners (self w') = listeners (self w1)) \/
  (resolutions p (since w1 w') <> [] /\
   (listeners (self w') = listeners (self w0) \/
    listeners (self w') = listeners (self w0) ++ [None]) /\
   active (listeners (self w')) = active (listeners (self w0))).
Proof.
  intros p w1 w' Hp.
  set (s := subscribe_slot (listeners (self w0))).
  assert (Hl : lone_start s p (listeners (self w1))).
  { change (listeners (self w1))
      with (subscribe_slots (StartCallback s p) (listeners (self w0))).
    split; [apply subscribe_slots_lookup|].
    intros j l Hj Hjl. rewrite subscribe_slots_other in Hjl by exact Hj.
    apply (every_listener_lookup _ _ _ _ Hp Hjl). }
  destruct (run_lone s p clocks w1 Hl) as [(R & L)|(R & L)]; [left; auto|right].
  split; [exact R|]. fold w' in L. rewrite L.
  change (listeners (self w1))
    with (subscribe_slots (StartCallback s p) (listeners (self w0))).
  apply cleared_subscription.
Qed.


(** ** The loop stops at completion only *)

Lemma next_state_complete (i : any) (w : World) :
  Qle_bool 1 (FuncResult.progress (next_state i w)) = true ->
  FuncResult.progress (next_state i w) = 1.
Proof.
  unfold next_state, clamp.
  destruct (Qle_bool 1 (FuncResult.progress (func (self w) i _))) eqn:E; simpl.
  - reflexivity.
  - rewrite E. discriminate.
Qed.

(** X12. With one frame pending, after any run either one frame is
    pending still, or none is and then at least one tick was accepted
    and the stored progress is exactly 1: the loop stops at
    completion and nowhere else. *)
Theorem loop_stops_at_completion (initialState : any) (clocks : list (Q * Q)) :
  forall w : World,
  frames w = [initialState] ->
  frames (run clocks w) = [initialState] \/
  (frames (run clocks w) = [] /\ progress (self (run clocks w)) = 1 /\
   (1 <= ticks (since w (run clocks w)))%nat).
Proof.
  induction clocks as [|c clocks IH]; intros w Hf; [left; exact Hf|].
  rewrite since_run_cons, run_cons, ticks_app.
  rewrite (frame_next initialState [] c w Hf) in *. unfold next in *.
  set (w0 := {| self := self w; frames := []; promises := promises w; log := log w |}) in *.
  change (since w) with (since w0).
  destruct (tick_due _ _).
  - destruct (Qle_bool 1 (FuncResult.progress (next_state initialState w0))) eqn:Q.
    + right.
      assert (F : frames (tick initialState (snd c) w0) = [])
        by (rewrite tick_frames, Q; reflexivity).
      rewrite (run_idle clocks _ F). split; [exact F|]. split.
      * destruct (tick_fields initialState (snd c) w0) as (_ & _ & _ & _ & _ & ->).
        apply next_state_complete. exact Q.
      * rewrite ticks_tick. lia.
    + assert (F : frames (tick initialState (snd c) w0) = [initialState])
        by (rewrite tick_frames, Q; reflexivity).
      destruct (IH _ F) as [H|(H1 & H2 & H3)]; [left; exact H|right].
      split; [exact H1|]. split; [exact H2|]. lia.
  - destruct (IH (requestAnimationFrame initialState w0) eq_refl)
      as [H|(H1 & H2 & H3)]; [left; exact H|right].
    split; [exact H1|]. split; [exact H2|]. lia.
Qed.


(** ** Several starts *)

Section Together.

Variable st : FuncResult.t.
Hypothesis complete : Qeq_bool (FuncResult.progress st) 1 = true.

Lemma visit_orderly (k : nat) (w : World) :
  orderly (listeners (self w)) ->
  grows w (visit k st w) /\
  length (listeners (self (visit k st w))) = length (listeners (self w)) /\
  (forall j, listeners (self (visit k st w)) !! j =
             if bool_decide (j = k) then strip <$> listeners (self w) !! j
             else listeners (self w) !! j) /\
  omap resolved (since w (visit k st w)) =
  match listeners (self w) !! k with
  | Some x => (fun p => (p, st)) <$> pending [x]
  | None => []
  end.
Proof.
  intros Ho. split; [apply visit_grows|].
  unfold visit. destruct (listeners (self w) !! k) as [[[cb]|]|] eqn:E.
  - destruct (Ho k _ E) as [Hp|(p & Hp)]; simpl in Hp.
    + rewrite call_passive by exact Hp. simpl. split; [reflexivity|]. split.
      * intros j. case_bool_decide as Hj; [|reflexivity]. subst j. rewrite E.
        destruct cb as [name body|s' p']; [reflexivity|contradiction].
      * rewrite record_since. destruct cb as [name body|s' p']; [reflexivity|contradiction].
    + subst cb. cbn [call callback]. rewrite complete.
      set (w2 := resolve p st
                   (unsubscribe k (record (Notified k (StartCallback k p) st) w))).
      assert (Hls : listeners (self w2) = <[k := None]> (listeners (self w)))
        by reflexivity.
      assert (H : since w w2 =
                  [Notified k (StartCallback k p) st; Unsubscribed k; Resolved p st]).
      { apply since_app. simpl. rewrite <- !app_assoc. reflexivity. }
      rewrite Hls, H. split; [apply length_insert|]. split; [|reflexivity].
      intros j. case_bool_decide as Hj.
      * subst j. rewrite E. apply list_lookup_insert_eq.
        apply lookup_lt_Some in E. exact E.
      * apply list_lookup_insert_ne. congruence.
  - rewrite since_refl. split; [reflexivity|]. split; [|reflexivity].
    intros j. case_bool_decide as Hj; [|reflexivity]. subst j. rewrite E. reflexivity.
  - rewrite since_refl. split; [reflexivity|]. split; [|reflexivity].
    intros j. case_bool_decide as Hj; [|reflexivity]. subst j. rewrite E. reflexivity.
Qed.

Lemma own_slot_strip (j : nat) (x : option IAnimationIteratorListener) :
  own_slot j x -> own_slot j (strip x).
Proof.
  unfold strip. destruct (started x); [intros _; exact I|tauto].
Qed.

Lemma forEach_from_orderly (n : nat) :
  forall (k : nat) (w : World),
  orderly (listeners (self w)) ->
  length (listeners (self (forEach_from k n st w))) = length (listeners (self w)) /\
  (forall j, listeners (self (forEach_from k n st w)) !! j =
             if bool_decide (k <= j < k + n)%nat then strip <$> listeners (self w) !! j
             else listeners (self w) !! j) /\
  omap resolved (since w (forEach_from k n st w)) =
  (fun p => (p, st)) <$> pending (take n (drop k (listeners (self w)))).
Proof.
  induction n as [|n IH]; intros k w Ho.
  - simpl. rewrite since_refl. split; [reflexivity|]. split; [|reflexivity].
    intros j. case_bool_decide as Hj; [lia|reflexivity].
  - change (forEach_from k (S n) st w) with (forEach_from (S k) n st (visit k st w)).
    destruct (visit_orderly k w Ho) as (G1 & L1 & K1 & R1).
    assert (Ho1 : orderly (listeners (self (visit k st w)))).
    { intros j x Hx. rewrite K1 in Hx. case_bool_decide as Hj.
      - destruct (listeners (self w) !! j) as [x0|] eqn:E; [|discriminate Hx].
        injection Hx as <-. apply own_slot_strip. apply (Ho j x0 E).
      - apply (Ho j x Hx). }
    destruct (IH (S k) (visit k st w) Ho1) as (L2 & K2 & R2).
    split; [rewrite L2; exact L1|]. split.
    + intros j. rewrite K2, K1.
      repeat case_bool_decide; try lia; try reflexivity.
    + rewrite (since_trans _ _ _ G1 (forEach_from_grows _ _ _ _)), omap_app, R1, R2.
      assert (Hd : drop (S k) (listeners (self (visit k st w))) =
                   drop (S k) (listeners (self w))).
      { apply list_eq. intros j. rewrite !lookup_drop, K1.
        case_bool_decide; [lia|reflexivity]. }
      rewrite Hd. destruct (listeners (self w) !! k) as [x|] eqn:E.
      * rewrite (drop_S _ _ _ E). simpl. unfold pending. simpl.
        destruct (started x); reflexivity.
      * apply lookup_ge_None_1 in E. rewrite !drop_ge by lia.
        rewrite !take_nil. reflexivity.
Qed.

Lemma notify_orderly (w : World) :
  orderly (listeners (self w)) ->
  listeners (self (notify st w)) = finished (listeners (self w)) /\
  omap resolved (since w (notify st w)) =
  (fun p => (p, st)) <$> pending (listeners (self w)).
Proof.
  intros Ho. unfold notify.
  destruct (forEach_from_orderly (length (listeners (self w))) 0 w Ho) as (L & K & R).
  split.
  - apply list_eq. intros j. rewrite K. unfold finished. rewrite list_lookup_fmap.
    case_bool_decide as Hj; [reflexivity|].
    rewrite (lookup_ge_None_2 _ j) by lia. reflexivity.
  - rewrite R, drop_0, take_ge by lia. reflexivity.
Qed.

End Together.

Lemma pending_finished (ls : slots) : pending (finished ls) = [].
Proof.
  unfold pending, finished. induction ls as [|x ls IH]; [reflexivity|].
  change (omap started (strip <$> x :: ls))
    with (match started (strip x) with
          | Some p => p :: omap started (strip <$> ls)
          | None => omap started (strip <$> ls)
          end).
  rewrite IH. unfold strip. destruct (started x) eqn:E; [reflexivity|].
  rewrite E. reflexivity.
Qed.

(** A pass with a state that is not complete over an orderly registry
    changes nothing but the log and resolves nothing. *)
Lemma forEach_from_waiting (st : FuncResult.t) (n : nat) :
  Qeq_bool (FuncResult.progress st) 1 = false ->
  forall (k : nat) (w : World),
  orderly (listeners (self w)) ->
  listeners (self (forEach_from k n st w)) = listeners (self w) /\
  omap resolved (since w (forEach_from k n st w)) = [].
Proof.
  intros Hq. induction n as [|n IH]; intros k w Ho.
  - simpl. rewrite since_refl. auto.
  - change (forEach_from k (S n) st w) with (forEach_from (S k) n st (visit k st w)).
    assert (H1 : listeners (self (visit k st w)) = listeners (self w) /\
                 omap resolved (since w (visit k st w)) = []).
    { unfold visit. destruct (listeners (self w) !! k) as [[[cb]|]|] eqn:E;
        try (rewrite since_refl; auto).
      destruct (Ho k _ E) as [Hp|(p & Hp)]; simpl in Hp.
      - rewrite call_passive by exact Hp. rewrite record_since. auto.
      - subst cb. simpl. rewrite Hq. rewrite record_since. auto. }
    destruct H1 as (L1 & R1).
    destruct (IH (S k) (visit k st w)) as (L2 & R2); [rewrite L1; exact Ho|].
    rewrite (since_trans _ _ _ (visit_grows _ _ _) (forEach_from_grows _ _ _ _)).
    rewrite omap_app, R1, R2, L2, L1. auto.
Qed.

(** X17. An accepted tick over a registry of passive listeners and
    one-shot listeners of several [start]s.  When the update function
    reaches 1, every pending promise is resolved by this tick, in slot
    order, each with the clamped state, and the registry keeps the
    other listeners only; when it stays below 1, nothing is resolved
    and the registry is as it was. *)
Theorem tick_resolves_every_start (initialState : any) (now' : Q) (w : World) :
  orderly (listeners (self w)) ->
  let raw := func (self w) initialState (time (self w) + interval (self w)) in
  let w' := tick initialState now' w in
  (1 <= FuncResult.progress raw ->
   omap resolved (since w w') =
     (fun p => (p, clamp raw)) <$> pending (listeners (self w)) /\
   listeners (self w') = finished (listeners (self w)) /\
   pending (listeners (self w')) = []) /\
  (FuncResult.progress raw < 1 ->
   omap resolved (since w w') = [] /\
   listeners (self w') = listeners (self w)).
Proof.
  intros Ho raw w'.
  assert (Hs : omap resolved (since w w') =
               omap resolved (since (advanced initialState now' w)
                                (notify (next_state initialState w)
                                   (advanced initialState now' w)))).
  { unfold w'. rewrite tick_since. cbv zeta. simpl. rewrite omap_app.
    destruct (Qle_bool 1 _); simpl; apply app_nil_r. }
  assert (Hl : listeners (self w') =
               listeners (self (notify (next_state initialState w)
                                  (advanced initialState now' w))))
    by apply tick_listeners.
  change (next_state initialState w) with (clamp raw) in *.
  split.
  - intros Hge.
    assert (Hq : Qeq_bool (FuncResult.progress (clamp raw)) 1 = true).
    { rewrite (clamp_ge_1 _ Hge). reflexivity. }
    destruct (notify_orderly (clamp raw) Hq (advanced initialState now' w) Ho) as (L & R).
    rewrite Hs, Hl, R, L. split; [reflexivity|]. split; [reflexivity|].
    apply pending_finished.
  - intros Hlt.
    assert (Hq : Qeq_bool (FuncResult.progress (clamp raw)) 1 = false).
    { rewrite (clamp_lt_1 _ Hlt). destruct (Qeq_bool _ 1) eqn:Q; [|reflexivity].
      apply Qeq_bool_true in Q. lra. }
    destruct (forEach_from_waiting (clamp raw)
                (length (listeners (self (advanced initialState now' w)))) Hq 0
                (advanced initialState now' w) Ho) as (L & R).
    rewrite Hs, Hl. split; [exact R|exact L].
Qed.


(** ** The course of an animation *)

Lemma next_state_same (i : any) (w1 w2 : World) :
  same_course w1 w2 -> next_state i w1 = next_state i w2.
Proof.
  intros (Hi & _ & _ & Ht & _ & Hf & _). unfold next_state. rewrite Hi, Ht, Hf.
  reflexivity.
Qed.

Lemma tick_due_same (now : Q) (w1 w2 : World) :
  same_course w1 w2 -> tick_due now (self w1) = tick_due now (self w2).
Proof.
  intros (_ & Hr & _ & _ & Hl & _). unfold tick_due. rewrite Hr, Hl. reflexivity.
Qed.

Lemma frame_same (c : Q * Q) (w1 w2 : World) :
  same_course w1 w2 ->
  same_course (frame c w1) (frame c w2) /\
  omap updated (since w1 (frame c w1)) = omap updated (since w2 (frame c w2)).
Proof.
  intros H. pose proof H as (Hi & Hr & Hp & Ht & Hl & Hf & Hfr).
  destruct (frames w1) as [|i rest] eqn:E1.
  - rewrite (frame_idle c w1 E1), (frame_idle c w2) by (rewrite <- Hfr; reflexivity).
    rewrite !since_refl. split; [exact H|reflexivity].
  - symmetry in Hfr.
    rewrite (frame_next i rest c w1 E1), (frame_next i rest c w2 Hfr). unfold next.
    set (v1 := {| self := self w1; frames := rest; promises := promises w1;
                  log := log w1 |}).
    set (v2 := {| self := self w2; frames := rest; promises := promises w2;
                  log := log w2 |}).
    assert (Hv : same_course v1 v2) by (unfold same_course; simpl; repeat split; assumption).
    change (since w1) with (since v1). change (since w2) with (since v2).
    rewrite (tick_due_same (fst c) v1 v2 Hv).
    destruct (tick_due (fst c) (self v2)).
    + destruct (tick_fields i (snd c) v1) as (T1 & I1 & R1 & F1 & L1 & P1).
      destruct (tick_fields i (snd c) v2) as (T2 & I2 & R2 & F2 & L2 & P2).
      split.
      * unfold same_course.
        rewrite T1, I1, R1, F1, L1, P1, T2, I2, R2, F2, L2, P2, !tick_frames.
        rewrite (next_state_same i v1 v2 Hv).
        change (self v1) with (self w1). change (self v2) with (self w2).
        rewrite Hi, Hr, Ht, Hf. repeat split; reflexivity.
      * rewrite !tick_updated, (next_state_same i v1 v2 Hv).
        change (self v1) with (self w1). change (self v2) with (self w2).
        rewrite Hi, Ht. reflexivity.
    + rewrite !requestAnimationFrame_since. split; [|reflexivity].
      unfold same_course. simpl. repeat split; assumption.
Qed.

(** Along a run, two worlds that are at the same point stay at the
    same point and record the same updates. *)
Lemma run_same (clocks : list (Q * Q)) :
  forall w1 w2 : World,
  same_course w1 w2 ->
  same_course (run clocks w1) (run clocks w2) /\
  omap updated (since w1 (run clocks w1)) = omap updated (since w2 (run clocks w2)).
Proof.
  induction clocks as [|c clocks IH]; intros w1 w2 H.
  - change (run [] w1) with w1. change (run [] w2) with w2.
    rewrite !since_refl. auto.
  - rewrite !since_run_cons, !run_cons, !omap_app.
    destruct (frame_same c w1 w2 H) as (H1 & U1).
    destruct (IH _ _ H1) as (H2 & U2).
    rewrite U1, U2. auto.
Qed.

(** X20. The registry does not steer the animation: with any other
    registry in place of the one of [w], the same run of frames
    accepts the same ticks, calls the update function with the same
    arguments and results, and ends with the same progress, elapsed
    time, [lastTick] and pending frames. *)
Theorem listeners_do_not_steer (ls : slots) (clocks : list (Q * Q)) (w : World) :
  let w2 := with_self (with_listeners ls) w in
  omap updated (since w (run clocks w)) = omap updated (since w2 (run clocks w2)) /\
  progress (self (run clocks w)) = progress (self (run clocks w2)) /\
  time (self (run clocks w)) = time (self (run clocks w2)) /\
  lastTick (self (run clocks w)) = lastTick (self (run clocks w2)) /\
  frames (run clocks w) = frames (run clocks w2).
Proof.
  intros w2.
  assert (H : same_course w w2) by (unfold same_course; simpl; repeat split; reflexivity).
  destruct (run_same clocks w w2 H) as ((_ & _ & P & T & L & _ & F) & U).
  repeat split; assumption.
Qed.

Lemma start_same (i : any) (w1 w2 : World) :
  same_course w1 w2 ->
  same_course (fst (start i w1)) (fst (start i w2)).
Proof.
  intros (Hi & Hr & Hp & Ht & Hl & Hf & Hfr).
  unfold same_course. simpl. rewrite Hfr. repeat split; assumption.
Qed.

(** X21. [reset] between two animations, as [examples/demo.ts] does
    after the promise of [start] is resolved: with no frame pending,
    [start] after [reset] replays the animation of a new iterator
    built from the same arguments: under the same clock the same
    updates are computed, and progress and pending frames agree
    throughout, whatever listeners are still registered. *)
Theorem reset_replays (initialState : any) (clocks : list (Q * Q)) (w : World) :
  frames w = [] ->
  let again := fst (start initialState (reset w)) in
  let anew := fst (start initialState (fresh (args (self w)))) in
  omap updated (since again (run clocks again)) =
    omap updated (since anew (run clocks anew)) /\
  progress (self (run clocks again)) = progress (self (run clocks anew)) /\
  frames (run clocks again) = frames (run clocks anew).
Proof.
  intros Hf again anew.
  assert (H : same_course again anew).
  { apply start_same. unfold same_course. simpl. rewrite Hf. repeat split; reflexivity. }
  destruct (run_same clocks again anew H)
    as ((_ & _ & P & _ & _ & _ & F) & U).
  auto.
Qed.

(** ** The theorems at sample iterators *)

Lemma ticks_throttled_witness :
  let w := Scenes.started_once in
  let clocks := [(20, 20); (30, 31); (40, 41)] in
  0 < rate (self w) /\
  Forall forward clocks /\
  ticks (since w (run clocks w)) = 2%nat /\
  inject_Z (Z.of_nat (ticks (since w (run clocks w)))) * (1000 / rate (self w)) <=
  lastTick (self (run clocks w)) - lastTick (self w).
Proof.
  assert (Hr : 0 < rate (self Scenes.started_once)) by reflexivity.
  assert (Hc : Forall forward [(20, 20); (30, 31); (40, 41)]).
  { repeat constructor; vm_compute; discriminate. }
  split; [exact Hr|]. split; [exact Hc|]. split; [vm_compute; reflexivity|].
  apply (ticks_throttled [(20, 20); (30, 31); (40, 41)] Scenes.started_once Hr Hc).
Defined.

Lemma run_too_early_witness :
  let w := Scenes.started_once in
  Forall (too_early (self w)) [(5, 5); (10, 10)] /\
  self (run [(5, 5); (10, 10)] w) = self w /\
  ticks (since w (run [(5, 5); (10, 10)] w)) = 0%nat.
Proof.
  assert (Hc : Forall (too_early (self Scenes.started_once)) [(5, 5); (10, 10)]).
  { constructor; [right; reflexivity|]. constructor; [right; reflexivity|constructor]. }
  destruct (run_too_early [(5, 5); (10, 10)] Scenes.started_once Hc) as (S & T & _).
  split; [exact Hc|]. split; [exact S|exact T].
Defined.

Lemma loop_stops_at_completion_witness :
  let w := Scenes.started_once in
  frames w = [Null] /\
  frames (run [(20, 20); (40, 40)] w) = [] /\
  progress (self (run [(20, 20); (40, 40)] w)) = 1.
Proof.
  assert (Hf : frames Scenes.started_once = [Null]) by reflexivity.
  destruct (loop_stops_at_completion Null [(20, 20); (40, 40)] Scenes.started_once Hf)
    as [H|(H1 & H2 & _)].
  - exfalso. vm_compute in H. discriminate H.
  - split; [exact Hf|]. split; [exact H1|exact H2].
Defined.

Lemma resolved_only_complete_witness :
  let w := Scenes.started_watched in
  Resolved 0 Samples.complete ∈ since w (run [(20, 20); (40, 40)] w) /\
  FuncResult.progress Samples.complete == 1.
Proof.
  assert (H : Resolved 0 Samples.complete
                ∈ since Scenes.started_watched
                    (run [(20, 20); (40, 40)] Scenes.started_watched)).
  { vm_compute. do 8 apply list_elem_of_further. apply list_elem_of_here. }
  split; [exact H|].
  apply (resolved_only_complete [(20, 20); (40, 40)] Scenes.started_watched 0
           Samples.complete H).
Defined.

Lemma never_complete_never_resolves_witness :
  let w := fst (start Null (fresh Scenes.stuck)) in
  (forall i t, FuncResult.progress (func (self w) i t) < 1) /\
  omap resolved_state (since w (run [(20, 20); (40, 40); (60, 60)] w)) = [] /\
  length (frames (run [(20, 20); (40, 40); (60, 60)] w)) = 1%nat.
Proof.
  assert (Hf : forall i t,
            FuncResult.progress
              (func (self (fst (start Null (fresh Scenes.stuck)))) i t) < 1).
  { intros i t. reflexivity. }
  destruct (never_complete_never_resolves [(20, 20); (40, 40); (60, 60)]
              (fst (start Null (fresh Scenes.stuck))) Hf) as (R & L & _).
  split; [exact Hf|]. split; [exact R|exact L].
Defined.

Lemma start_leaves_no_listener_witness :
  let w0 := Samples.watched Samples.two_ticks in
  let w' := run [(20, 20); (40, 40)] (fst (start Null w0)) in
  every_listener passive (listeners (self w0)) /\
  listeners (self w') = listeners (self w0) ++ [None] /\
  active (listeners (self w')) = active (listeners (self w0)).
Proof.
  assert (Hp : every_listener passive
                 (listeners (self (Samples.watched Samples.two_ticks)))).
  { repeat constructor. }
  destruct (start_leaves_no_listener (Samples.watched Samples.two_ticks) Null
              [(20, 20); (40, 40)] Hp) as [(R & _)|(_ & _ & A)].
  - exfalso. vm_compute in R. discriminate R.
  - split; [exact Hp|]. split; [vm_compute; reflexivity|exact A].
Defined.

Lemma tick_resolves_every_start_witness :
  let w := Scenes.started_twice in
  orderly (listeners (self w)) /\
  pending (listeners (self w)) = [0; 1]%nat /\
  omap resolved (since w (tick Null 20 w)) =
    [(0%nat, Samples.complete); (1%nat, Samples.complete)] /\
  active (listeners (self (tick Null 20 w))) = [{| callback := Samples.quiet 7 |}].
Proof.
  assert (Ho : orderly (listeners (self Scenes.started_twice))).
  { intros [|[|[|j]]] x H; simpl in H; try discriminate H; injection H as <-.
    - left. intros st. reflexivity.
    - right. exists 0%nat. reflexivity.
    - right. exists 1%nat. reflexivity. }
  assert (Hge : 1 <= FuncResult.progress
                       (func (self Scenes.started_twice) Null
                          (time (self Scenes.started_twice) +
                           interval (self Scenes.started_twice)))).
  { vm_compute. discriminate. }
  destruct (tick_resolves_every_start Null 20 Scenes.started_twice Ho) as (H & _).
  destruct (H Hge) as (R & L & _).
  split; [exact Ho|]. split; [reflexivity|]. split.
  - rewrite R. vm_compute. reflexivity.
  - rewrite L. reflexivity.
Defined.

Lemma reset_replays_witness :
  let w := run [(20, 20); (40, 40)] Scenes.started_watched in
  let again := fst (start Null (reset w)) in
  frames w = [] /\
  omap stored_progress (since again (run [(50, 50); (80, 80)] again)) = [1 # 2; 1] /\
  omap updated (since again (run [(50, 50); (80, 80)] again)) =
  omap updated
    (since (fst (start Null (fresh (args (self w)))))
       (run [(50, 50); (80, 80)] (fst (start Null (fresh (args (self w))))))).
Proof.
  assert (Hf : frames (run [(20, 20); (40, 40)] Scenes.started_watched) = [])
    by (vm_compute; reflexivity).
  destruct (reset_replays Null [(50, 50); (80, 80)]
              (run [(20, 20); (40, 40)] Scenes.started_watched) Hf) as (U & _).
  split; [exact Hf|]. split; [vm_compute; reflexivity|exact U].
Defined.

End RunFacts.
